(** * Amanuensis: the storage index ([Index]) and its normalizers

    A shallow embedding of the storage layer of Amanuensis (the class [Index],
    [getIndex] and the [normalizers] registry), and the properties of it that
    the specification states.

    Conventions of the embedding.
    - A JavaScript string is the list of its characters, each given by its
      code point ([jsstring]); the model covers the Basic Multilingual Plane,
      where a UTF-16 code unit is a code point.
    - The Unicode tables of the host (canonical decomposition, case mapping,
      the classes [\p{L}] and [\p{N}]) are not part of the program: they are
      the interface [Unicode].  [ucd_latin1] is that interface for the blocks
      Basic Latin and Latin-1 Supplement.
    - A [Map] is an association list in insertion order ([JsMap]); a plain
      object used as a dictionary likewise.
    - Note objects live in a heap of cells; the cache and the matches handed
      to a caller hold addresses, so sharing between them is visible.  A note
      object owns its arrays and its [relations] object: two notes share
      none.
    - Numbers are integers: primary keys, byte counts and times.  They are
      JavaScript numbers, so a sum or a difference is the double nearest to
      the exact one ([Double]).
    - A promise is run to its end: an operation is a function from the state
      before it to its outcome and the state after, the calls of the store
      being answered on the spot. *)

From Stdlib Require Import ZArith NArith List Bool Lia String Ascii DecimalPos.
From stdpp Require Import base option list gmap.
Import ListNotations.

Local Open Scope N_scope.

(** ** Strings *)

Definition jsstring : Type := list N.

(** An ASCII literal as a JavaScript string. *)
Definition str (s : string) : jsstring :=
  List.map N_of_ascii (list_ascii_of_string s).

Definition jsstring_eqb (a b : jsstring) : bool := bool_decide (a = b).

(** [\s] of ECMAScript regular expressions: WhiteSpace and LineTerminator. *)
Definition isSpace (c : N) : bool :=
  ((9 <=? c) && (c <=? 13)) || (c =? 32) || (c =? 160) || (c =? 5760)
  || ((8192 <=? c) && (c <=? 8202)) || (c =? 8232) || (c =? 8233)
  || (c =? 8239) || (c =? 8287) || (c =? 12288) || (c =? 65279).

(** [.] of a regular expression without the [s] flag: anything but a line
    terminator. *)
Definition isLineTerminator (c : N) : bool :=
  (c =? 10) || (c =? 13) || (c =? 8232) || (c =? 8233).

Fixpoint dropWhile {A} (f : A -> bool) (l : list A) : list A :=
  match l with
  | [] => []
  | x :: l' => if f x then dropWhile f l' else l
  end.

(** What is left of [l] once its longest suffix satisfying [f] is cut. *)
Fixpoint dropWhileEnd {A} (f : A -> bool) (l : list A) : list A :=
  match l with
  | [] => []
  | x :: l' =>
      match dropWhileEnd f l' with
      | [] => if f x then [] else [x]
      | r => x :: r
      end
  end.

(** [s.replace(/^\s+|\s+$/g, '')] *)
Definition trim (s : jsstring) : jsstring :=
  dropWhileEnd isSpace (dropWhile isSpace s).

(** [s.replace(/\s+/g, ' ')]; [in_run] tells that the character before was
    white space, already replaced. *)
Fixpoint collapse_from (in_run : bool) (s : jsstring) : jsstring :=
  match s with
  | [] => []
  | c :: s' =>
      if isSpace c
      then if in_run then collapse_from true s' else 32 :: collapse_from true s'
      else c :: collapse_from false s'
  end.

Definition collapse (s : jsstring) : jsstring := collapse_from false s.

(** [s.replace(/c/g, by)] for a single character [c]. *)
Definition replaceChar (c : N) (by_ : jsstring) (s : jsstring) : jsstring :=
  flat_map (fun x => if x =? c then by_ else [x]) s.

(** [.replace(/ß/g, 'ss').replace(/ä/g, 'ae').replace(/ö/g, 'oe')
    .replace(/ü/g, 'ue')] *)
Definition germanLetters (s : jsstring) : jsstring :=
  replaceChar 252 (str "ue")
    (replaceChar 246 (str "oe")
       (replaceChar 228 (str "ae") (replaceChar 223 (str "ss") s))).

(** [hay.indexOf(needle) !== -1] *)
Fixpoint isPrefix (p s : jsstring) : bool :=
  match p, s with
  | [], _ => true
  | _ :: _, [] => false
  | a :: p', b :: s' => (a =? b) && isPrefix p' s'
  end.

Fixpoint includes (needle hay : jsstring) : bool :=
  isPrefix needle hay ||
  match hay with
  | [] => false
  | _ :: hay' => includes needle hay'
  end.

(** ** Numbers

    A JavaScript number is an IEEE 754 double.  The numbers of the index are
    integers, kept as [Z]; the integers that are doubles are those of at
    most 53 significant bits.  [a + b] and [a - b] are the double nearest to
    the exact result, a tie going to the double whose last bit is 0.  The
    finite doubles end below 2^1024, and the model is for results in that
    range: the sums and differences of the index are, one side of each
    being 1 or 5242880. *)

Module Double.

(** The distance between the doubles of the size of [z]: 1 below 2^53,
    2 from there to 2^54, 4 from there to 2^55, and so on. *)
Definition ulp (z : Z) : Z := (2 ^ Z.max 0 (Z.log2 (Z.abs z) - 52))%Z.

(** The double nearest to the integer [z]. *)
Definition round (z : Z) : Z :=
  let u := ulp z in
  let q := (z / u)%Z in
  let r := (z mod u)%Z in
  if (2 * r <? u)%Z then (q * u)%Z
  else if (u <? 2 * r)%Z then ((q + 1) * u)%Z
  else if Z.even q then (q * u)%Z else ((q + 1) * u)%Z.


(** [a + b] and [a - b] *)
Definition add (a b : Z) : Z := round (a + b).

End Double.

(** ** Numbers as strings *)

Fixpoint uint_digits (d : Decimal.uint) : jsstring :=
  match d with
  | Decimal.Nil => []
  | Decimal.D0 d => 48 :: uint_digits d
  | Decimal.D1 d => 49 :: uint_digits d
  | Decimal.D2 d => 50 :: uint_digits d
  | Decimal.D3 d => 51 :: uint_digits d
  | Decimal.D4 d => 52 :: uint_digits d
  | Decimal.D5 d => 53 :: uint_digits d
  | Decimal.D6 d => 54 :: uint_digits d
  | Decimal.D7 d => 55 :: uint_digits d
  | Decimal.D8 d => 56 :: uint_digits d
  | Decimal.D9 d => 57 :: uint_digits d
  end.

(** [n.toString()] for an integer [n]. *)
Definition toString (z : Z) : jsstring :=
  match z with
  | Z0 => [48]
  | Zpos p => uint_digits (Pos.to_uint p)
  | Zneg p => 45 :: uint_digits (Pos.to_uint p)
  end.

(** [`${a}:${b}`], the key of a note in the cache and in the store. *)
Definition noteKey (a b : Z) : jsstring := toString a ++ [58] ++ toString b.

Definition isDigit (c : N) : bool := (48 <=? c) && (c <=? 57).

Fixpoint takeWhile {A} (f : A -> bool) (l : list A) : list A :=
  match l with
  | [] => []
  | x :: l' => if f x then x :: takeWhile f l' else []
  end.

Definition digitsValue (ds : jsstring) : Z :=
  fold_left (fun acc c => (10 * acc + (Z.of_N c - 48))%Z) ds 0%Z.

(** [Number.parseInt(s)]: leading white space, a sign, then decimal digits;
    [None] is [NaN]. *)
Definition parseInt (s : jsstring) : option Z :=
  let s := dropWhile isSpace s in
  let '(neg, s) :=
    match s with
    | 45 :: s' => (true, s')
    | 43 :: s' => (false, s')
    | _ => (false, s)
    end in
  match takeWhile isDigit s with
  | [] => None
  | ds => Some (if neg then (- digitsValue ds)%Z else digitsValue ds)
  end.

(** [key.split(":")[0]] *)
Definition beforeColon (s : jsstring) : jsstring :=
  takeWhile (fun c => negb (c =? 58)) s.

(** ** The Unicode tables of the host *)

Class Unicode : Type := {
  (** [s.normalize('NFD')] *)
  normalizeNFD : jsstring -> jsstring;
  (** [s.toLowerCase()] *)
  toLowerCase : jsstring -> jsstring;
  (** [s.toLocaleLowerCase()], in the locale of the host *)
  toLocaleLowerCase : jsstring -> jsstring;
  (** [\p{L}] *)
  isLetter : N -> bool;
  (** [\p{N}] *)
  isNumber : N -> bool
}.

(** *** Basic Latin and Latin-1 Supplement *)

Module Latin1.

(** Canonical decomposition of one character below U+0100. *)
Definition decomp (c : N) : jsstring :=
  match c with
  | 192 => [65; 768] | 193 => [65; 769] | 194 => [65; 770]
  | 195 => [65; 771] | 196 => [65; 776] | 197 => [65; 778]
  | 199 => [67; 807]
  | 200 => [69; 768] | 201 => [69; 769] | 202 => [69; 770] | 203 => [69; 776]
  | 204 => [73; 768] | 205 => [73; 769] | 206 => [73; 770] | 207 => [73; 776]
  | 209 => [78; 771]
  | 210 => [79; 768] | 211 => [79; 769] | 212 => [79; 770]
  | 213 => [79; 771] | 214 => [79; 776]
  | 217 => [85; 768] | 218 => [85; 769] | 219 => [85; 770] | 220 => [85; 776]
  | 221 => [89; 769]
  | 224 => [97; 768] | 225 => [97; 769] | 226 => [97; 770]
  | 227 => [97; 771] | 228 => [97; 776] | 229 => [97; 778]
  | 231 => [99; 807]
  | 232 => [101; 768] | 233 => [101; 769] | 234 => [101; 770] | 235 => [101; 776]
  | 236 => [105; 768] | 237 => [105; 769] | 238 => [105; 770] | 239 => [105; 776]
  | 241 => [110; 771]
  | 242 => [111; 768] | 243 => [111; 769] | 244 => [111; 770]
  | 245 => [111; 771] | 246 => [111; 776]
  | 249 => [117; 768] | 250 => [117; 769] | 251 => [117; 770] | 252 => [117; 776]
  | 253 => [121; 769] | 255 => [121; 776]
  | _ => [c]
  end.

(** Simple lower-case mapping of one character below U+0100. *)
Definition lower (c : N) : N :=
  if ((65 <=? c) && (c <=? 90))
     || ((192 <=? c) && (c <=? 222) && negb (c =? 215))
  then c + 32 else c.

(** General category L below U+0100. *)
Definition letter (c : N) : bool :=
  ((65 <=? c) && (c <=? 90)) || ((97 <=? c) && (c <=? 122))
  || (c =? 170) || (c =? 181) || (c =? 186)
  || ((192 <=? c) && (c <=? 214)) || ((216 <=? c) && (c <=? 246))
  || ((248 <=? c) && (c <=? 255)).

(** General category N below U+0100. *)
Definition number (c : N) : bool :=
  ((48 <=? c) && (c <=? 57)) || (c =? 178) || (c =? 179) || (c =? 185)
  || ((188 <=? c) && (c <=? 190)).

Definition inRange (s : jsstring) : Prop := Forall (fun c => c < 256) s.

(** What is left of a character once its diacritics are gone. *)
Definition base (c : N) : N :=
  match decomp c with b :: _ => b | [] => c end.

(** A character that the normalizers keep. *)
Definition wordChar (c : N) : bool :=
  letter c || number c || (c =? 32) || (c =? 95) || (c =? 39) || (c =? 45).

(** All the characters below U+0100. *)
Definition chars : list N := List.map N.of_nat (seq 0 256).

(** A character on which the default normalizer has nothing left to do: it
    is kept, in lower case, without diacritics, and if it is white space it
    is the space. *)
Definition settled (c : N) : bool :=
  (c <? 256) && wordChar c && (lower c =? c) && (base c =? c)
  && (negb (isSpace c) || (c =? 32)).

(** The same for the German normalizer, which rewrites four characters. *)
Definition settledGerman (c : N) : bool :=
  settled c && negb ((c =? 223) || (c =? 228) || (c =? 246) || (c =? 252)).

(** The default normalizer, with the tables of the two blocks. *)
Definition normalizeDefault (p : jsstring) : jsstring :=
  List.map lower (List.filter wordChar (List.map base (collapse (trim p)))).

(** The German normalizer, with the tables of the two blocks. *)
Definition normalizeGerman (p : jsstring) : jsstring :=
  List.filter wordChar
    (List.map base (germanLetters (List.map lower (collapse (trim p))))).

(** A decimal digit. *)
Definition digit (c : N) : Prop := 48 <= c <= 57.

End Latin1.

(** The tables restricted to the first two blocks: characters from U+0100 on
    are left alone and belong to no class. *)
#[local] Instance ucd_latin1 : Unicode := {|
  normalizeNFD s := flat_map Latin1.decomp s;
  toLowerCase s := List.map Latin1.lower s;
  toLocaleLowerCase s := List.map Latin1.lower s;
  isLetter c := (c <? 256) && Latin1.letter c;
  isNumber c := (c <? 256) && Latin1.number c
|}.

(** What a host has to agree on for the strings below U+0100. *)
Record Latin1Host (U : Unicode) : Prop := {
  nfd_latin1 : forall s, Latin1.inRange s ->
    normalizeNFD s = flat_map Latin1.decomp s;
  lower_latin1 : forall s, Latin1.inRange s ->
    toLowerCase s = List.map Latin1.lower s;
  locale_lower_latin1 : forall s, Latin1.inRange s ->
    toLocaleLowerCase s = List.map Latin1.lower s;
  letter_latin1 : forall c, c < 256 -> isLetter c = Latin1.letter c;
  number_latin1 : forall c, c < 256 -> isNumber c = Latin1.number c
}.

(** ** The normalizers *)

Module Normalizer.
Record t : Type := { pk : Z; name : jsstring; code : jsstring -> jsstring }.
End Normalizer.
Abbreviation Normalizer := Normalizer.t.

Section Normalizers.
Context {U : Unicode}.

(** [/[\u0300-\u036f]/g] *)
Definition isCombiningMark (c : N) : bool := (768 <=? c) && (c <=? 879).

Definition stripDiacrics (s : jsstring) : jsstring :=
  List.filter (fun c => negb (isCombiningMark c)) (normalizeNFD s).

(** The characters that [/[^\p{L}\p{N} _'-]+/ug] leaves in place. *)
Definition isWordChar (c : N) : bool :=
  isLetter c || isNumber c || (c =? 32) || (c =? 95) || (c =? 39) || (c =? 45).

Definition stripNonWord (s : jsstring) : jsstring := List.filter isWordChar s.

Definition normalizer_default : Normalizer := {|
  Normalizer.pk := 0;
  Normalizer.name := str "default";
  Normalizer.code phrase := toLowerCase (stripNonWord (stripDiacrics (collapse (trim phrase))))
|}.

Definition normalizer_German : Normalizer := {|
  Normalizer.pk := 1;
  Normalizer.name := str "German";
  Normalizer.code phrase :=
    let phrase := germanLetters (toLocaleLowerCase (collapse (trim phrase))) in
    stripNonWord (stripDiacrics phrase)
|}.

(** [normalizers[key]]: the registry has two own properties.  A key it does
    not have gives [undefined], or a member of [Object.prototype] that has
    no [code]; both are [None]. *)
Definition normalizers (key : jsstring) : option Normalizer :=
  if jsstring_eqb key [] then Some normalizer_default
  else if jsstring_eqb key (str "German") then Some normalizer_German
  else None.

End Normalizers.

(** ** Maps in insertion order

    [Map] of JavaScript, and a plain object whose property names are not
    array indices: [set] on a key that is present keeps its place. *)

Module JsMap.
Section Ops.
Context {K V : Type} `{EqDecision K}.

Fixpoint get (k : K) (m : list (K * V)) : option V :=
  match m with
  | [] => None
  | (k', v) :: m' => if decide (k = k') then Some v else get k m'
  end.

Definition has (k : K) (m : list (K * V)) : bool :=
  match get k m with Some _ => true | None => false end.

Fixpoint set (k : K) (v : V) (m : list (K * V)) : list (K * V) :=
  match m with
  | [] => [(k, v)]
  | (k', v') :: m' =>
      if decide (k = k') then (k, v) :: m' else (k', v') :: set k v m'
  end.

Definition delete (k : K) (m : list (K * V)) : list (K * V) :=
  List.filter (fun kv => negb (bool_decide (fst kv = k))) m.

Definition keys (m : list (K * V)) : list K := List.map fst m.
Definition values (m : list (K * V)) : list V := List.map snd m.

(** [new Map(entries)] *)
Definition of_entries (l : list (K * V)) : list (K * V) :=
  fold_left (fun m kv => set (fst kv) (snd kv) m) l [].

End Ops.
End JsMap.

Abbreviation JsMap K V := (list (K * V)) (only parsing).

(** [set.add(x)] on a [Set] *)
Definition set_add (x : jsstring) (s : list jsstring) : list jsstring :=
  if bool_decide (x ∈ s) then s else s ++ [x].

(** ** Records

    Modelled from the spec: [./types] is not part of the sources at hand;
    [KeyPair], [CitationRecord], [NoteRecord], [ProjectInfo] and [Query] have
    the fields that the code of [Index] reads and writes, with the meaning the
    data model of the specification gives them. *)

Definition KeyPair : Type := Z * Z.

Module Citation.
Record t : Type := {
  phrase : jsstring;
  url : jsstring;          (* [source.url] *)
  when : list Z            (* times, as milliseconds *)
}.
End Citation.
Abbreviation CitationRecord := Citation.t.

Module Note.
Record t : Type := {
  starred : bool;
  tags : list jsstring;
  citations : list CitationRecord;
  relations : JsMap jsstring (list KeyPair)
}.
End Note.
Abbreviation NoteRecord := Note.t.

Module Project.
Record t : Type := {
  pk : Z;
  name : jsstring;
  description : jsstring;
  normalizer : jsstring;
  relations : list (jsstring * jsstring)
}.
End Project.
Abbreviation ProjectInfo := Project.t.

(** [ProjectIdentifier]: a name, a primary key or a record. *)
Inductive ProjectIdentifier : Type :=
| ByName (name : jsstring)
| ByPk (pk : Z)
| ByInfo (info : ProjectInfo).

Inductive Strictness : Type := exact | substring | fuzzy.

Module AdHoc.
Record t : Type := {
  phrase : option jsstring;
  strictness : option Strictness;
  project : option (list Z);
  starred : option bool;
  tagRequired : option (list jsstring);
  tagForbidden : option (list jsstring);
  url : option jsstring;
  before : option Z;
  after : option Z
}.
End AdHoc.

Inductive Query : Type :=
| lookup (phrase : jsstring) (project : option Z)
| ad_hoc (q : AdHoc.t).

(** The argument of [saveProject]: a member that is left out has its
    default. *)
Module SaveProject.
Record t : Type := {
  name : jsstring;
  description : option jsstring;
  normalizer : option jsstring;
  relations : option (list (jsstring * jsstring))
}.
End SaveProject.

(** A [Match] pairs a project with a note object.  The project is [None] when
    it is [NaN], the note is [None] when it is [undefined]. *)
Definition Match : Type := option Z * option nat.

Inductive FindResponse : Type :=
| state_found (match_ : Match)
| state_ambiguous (matches : list Match)
| state_none.

(** ** Stored values, the heap and the store *)

(** The values the index keeps in [chrome.storage.local] and holds in
    objects: a note, the array of the projects map, the array of a phrase
    index, the array of tags, a number, and the object a [get] answers
    with. *)
#[warnings="-register-all"]
Inductive Json : Type :=
| JNote (n : NoteRecord)
| JProjects (l : list (jsstring * ProjectInfo))
| JIndex (l : list (jsstring * Z))
| JTags (l : list jsstring)
| JNumber (z : Z)
| JObject (l : list (jsstring * Json)).

(** The note in a cell; a cell that holds something else has none of the
    members of a note. *)
Definition asNote (j : Json) : option NoteRecord :=
  match j with JNote n => Some n | _ => None end.

(** [chrome]: the store, the byte count it reports, and what is to go wrong.
    The head of [faults] decides the next call: [Some e] makes it fail,
    leaving the store as it is, with [chrome.runtime.lastError] being [e];
    when [faults] is used up every call succeeds. *)
Record Chrome : Type := {
  local : gmap jsstring Json;
  bytesInUse : Z;
  faults : list (option jsstring)
}.

Record Index : Type := {
  chrome : Chrome;
  projects : JsMap jsstring ProjectInfo;
  currentProject : Z;
  projectIndices : JsMap Z (JsMap jsstring Z);
  tags : list jsstring;
  reverseProjectIndex : JsMap Z jsstring;
  (** a cached value is the address of an object, or [undefined] *)
  cache : JsMap jsstring (option nat)
}.

(** The index and the objects it shares with its callers. *)
Record World : Type := {
  index : Index;
  heap : list Json
}.

(** ** Exceptions and promises *)

Inductive Err : Type :=
| LastError (e : jsstring)      (* [chrome.runtime.lastError] *)
| Message (m : jsstring)        (* a rejection with a string *)
| TypeError                     (* a member of [undefined] was read or called *)
| Unreachable.                  (* [new Error("unreachable")] *)

Inductive Result (A : Type) : Type :=
| Ok (a : A)
| Throw (e : Err).
Arguments Ok {A} a.
Arguments Throw {A} e.

(** How a promise ends.  [Pending] is a promise that is never settled: its
    executor returned without a call of [resolve] or [reject], or a callback
    of the store threw. *)
Inductive Outcome (A : Type) : Type :=
| Resolved (a : A)
| Rejected (e : Err)
| Pending.
Arguments Resolved {A} a.
Arguments Rejected {A} e.
Arguments Pending {A}.

Definition M (A : Type) : Type := World -> Result A * World.

Definition ret {A} (a : A) : M A := fun w => (Ok a, w).

Definition bind {A B} (m : M A) (k : A -> M B) : M B :=
  fun w => match m w with
           | (Ok a, w') => k a w'
           | (Throw e, w') => (Throw e, w')
           end.

Definition throw {A} (e : Err) : M A := fun w => (Throw e, w).

#[export] Instance M_ret : MRet M := @ret.
#[export] Instance M_bind : MBind M := fun A B k m => bind m k.

Definition this : M Index := fun w => (Ok (index w), w).

Definition update (f : Index -> Index) : M unit :=
  fun w => (Ok tt, {| index := f (index w); heap := heap w |}).

(** A member of something that may be [undefined]. *)
Definition defined {A} (o : option A) : M A :=
  match o with Some a => ret a | None => throw TypeError end.

Fixpoint forEach {A} (l : list A) (body : A -> M unit) : M unit :=
  match l with
  | [] => ret tt
  | x :: l' => _ ← body x; forEach l' body
  end.

(** The executor of [new Promise]: an exception rejects the promise. *)
Definition promise {A} (executor : M (Outcome A)) : World -> Outcome A * World :=
  fun w => match executor w with
           | (Ok o, w') => (o, w')
           | (Throw e, w') => (Rejected e, w')
           end.

(** A callback of the store: an exception in it is nobody's, and the promise
    stays as it is. *)
Definition callback {A} (body : M (Outcome A)) : M (Outcome A) :=
  fun w => match body w with
           | (Ok o, w') => (Ok o, w')
           | (Throw _, w') => (Ok Pending, w')
           end.

(** *** Objects *)

Definition alloc (j : Json) : M nat :=
  fun w => (Ok (length (heap w)),
            {| index := index w; heap := heap w ++ [j] |}).

Definition readObj (l : nat) : M Json :=
  fun w => match heap w !! l with
           | Some j => (Ok j, w)
           | None => (Throw TypeError, w)
           end.

Definition writeObj (l : nat) (j : Json) : M unit :=
  fun w => (Ok tt, {| index := index w; heap := <[l := j]> (heap w) |}).

(** Modelled from the spec: [./clone] is not part of the sources at hand;
    [deepClone] makes a deep copy, which is a new object with the contents of
    the old one.  Of [undefined] the specification says nothing; the model
    takes the copy of it to be [undefined]. *)
Definition deepClone (o : option nat) : M (option nat) :=
  match o with
  | None => ret None
  | Some l => j ← readObj l; l' ← alloc j; ret (Some l')
  end.

#[export] Instance Result_ret : MRet Result := @Ok.
#[export] Instance Result_bind : MBind Result :=
  fun A B k r => match r with Ok a => k a | Throw e => Throw e end.

(** A computation that reads the index only. *)
Definition reading {A} (f : Index -> Result A) : M A :=
  fun w => (f (index w), w).

(** ** The store: [chrome.storage.local] *)

(** What the callback of a call finds: the answer, or
    [chrome.runtime.lastError]. *)
Inductive Reply (A : Type) : Type :=
| Done (a : A)
| Failed (lastError : jsstring).
Arguments Done {A} a.
Arguments Failed {A} lastError.

Module Storage.

Definition next (c : Chrome) : option jsstring * Chrome :=
  match faults c with
  | [] => (None, c)
  | f :: fs => (f, {| local := local c; bytesInUse := bytesInUse c; faults := fs |})
  end.

Definition withLocal (m : gmap jsstring Json) (c : Chrome) : Chrome :=
  {| local := m; bytesInUse := bytesInUse c; faults := faults c |}.

Fixpoint nodup (keys : list jsstring) : list jsstring :=
  match keys with
  | [] => []
  | k :: ks => k :: List.filter (fun k' => negb (jsstring_eqb k' k)) (nodup ks)
  end.

(** [get(keys, callback)]: the object handed to the callback has the keys
    that are stored, here in the order they were asked for. *)
Definition get (keys : list jsstring) (c : Chrome)
  : Reply (list (jsstring * Json)) * Chrome :=
  match next c with
  | (Some e, c') => (Failed e, c')
  | (None, c') =>
      (Done (omap (fun k => (fun j => (k, j)) <$> local c' !! k) (nodup keys)), c')
  end.

(** [set(items, callback)] *)
Definition set (items : list (jsstring * Json)) (c : Chrome) : Reply unit * Chrome :=
  match next c with
  | (Some e, c') => (Failed e, c')
  | (None, c') =>
      (Done tt, withLocal (fold_left (fun m kv => <[fst kv := snd kv]> m) items (local c')) c')
  end.

(** [remove(keys, callback)] *)
Definition remove (keys : list jsstring) (c : Chrome) : Reply unit * Chrome :=
  match next c with
  | (Some e, c') => (Failed e, c')
  | (None, c') =>
      (Done tt, withLocal (fold_left (fun m k => base.delete k m) keys (local c')) c')
  end.

(** [clear(callback)] *)
Definition clear (c : Chrome) : Reply unit * Chrome :=
  match next c with
  | (Some e, c') => (Failed e, c')
  | (None, c') => (Done tt, withLocal ∅ c')
  end.


End Storage.

(** A value in an object that is about to be stored: a value built on the
    spot, or an object that is written out as it is when [set] is called. *)
Inductive Storable : Type :=
| Plain (j : Json)
| Ref (l : nat).

Definition withChrome (c : Chrome) (i : Index) : Index :=
  {| chrome := c; projects := projects i; currentProject := currentProject i;
     projectIndices := projectIndices i; tags := tags i;
     reverseProjectIndex := reverseProjectIndex i; cache := cache i |}.

Definition withProjects (p : JsMap jsstring ProjectInfo) (i : Index) : Index :=
  {| chrome := chrome i; projects := p; currentProject := currentProject i;
     projectIndices := projectIndices i; tags := tags i;
     reverseProjectIndex := reverseProjectIndex i; cache := cache i |}.

Definition withCurrentProject (p : Z) (i : Index) : Index :=
  {| chrome := chrome i; projects := projects i; currentProject := p;
     projectIndices := projectIndices i; tags := tags i;
     reverseProjectIndex := reverseProjectIndex i; cache := cache i |}.

Definition withProjectIndices (p : JsMap Z (JsMap jsstring Z)) (i : Index) : Index :=
  {| chrome := chrome i; projects := projects i; currentProject := currentProject i;
     projectIndices := p; tags := tags i;
     reverseProjectIndex := reverseProjectIndex i; cache := cache i |}.

Definition withTags (t : list jsstring) (i : Index) : Index :=
  {| chrome := chrome i; projects := projects i; currentProject := currentProject i;
     projectIndices := projectIndices i; tags := t;
     reverseProjectIndex := reverseProjectIndex i; cache := cache i |}.

Definition withReverseProjectIndex (r : JsMap Z jsstring) (i : Index) : Index :=
  {| chrome := chrome i; projects := projects i; currentProject := currentProject i;
     projectIndices := projectIndices i; tags := tags i;
     reverseProjectIndex := r; cache := cache i |}.

Definition withCache (c : JsMap jsstring (option nat)) (i : Index) : Index :=
  {| chrome := chrome i; projects := projects i; currentProject := currentProject i;
     projectIndices := projectIndices i; tags := tags i;
     reverseProjectIndex := reverseProjectIndex i; cache := c |}.

(** A call of the store from the index. *)
Definition calling {A} (op : Chrome -> Reply A * Chrome) : M (Reply A) :=
  fun w => let '(r, c) := op (chrome (index w)) in
           (Ok r, {| index := withChrome c (index w); heap := heap w |}).

Definition storageGet (keys : list jsstring) : M (Reply (list (jsstring * Json))) :=
  calling (Storage.get keys).

(** [set(storable, callback)]: the objects in [storable] are written out as
    they are at the call. *)
Definition storageSet (storable : JsMap jsstring Storable) : M (Reply unit) :=
  fun w =>
    let written (kv : jsstring * Storable) : option (jsstring * Json) :=
      match snd kv with
      | Plain j => Some (fst kv, j)
      | Ref l => (fun j => (fst kv, j)) <$> heap w !! l
      end in
    calling (Storage.set (omap written storable)) w.

Definition storageRemove (keys : list jsstring) : M (Reply unit) :=
  calling (Storage.remove keys).

Definition storageClear : M (Reply unit) := calling Storage.clear.


(** The usual end of a callback: reject with [lastError], or resolve. *)
Definition settle {A B} (r : Reply A) (f : A -> B) : Outcome B :=
  match r with
  | Failed e => Rejected (LastError e)
  | Done a => Resolved (f a)
  end.

(** ** The index *)

Section Index.
Context {U : Unicode}.

(** [m2a]: the entries of a map, as an array. *)
Definition m2a {K V} (map : JsMap K V) : list (K * V) := map.

Definition makeDefaultProject : ProjectInfo := {|
  Project.pk := 0;
  Project.name := [];
  Project.description := str "A project for notes that have no project.";
  Project.normalizer := [];
  Project.relations := [(str "see also", str "see also")]
|}.

(** [new Index(chrome, projects, currentProject, projectIndices, tags)] *)
Definition constructor (chrome : Chrome) (projects : JsMap jsstring ProjectInfo)
    (currentProject : Z) (projectIndices : JsMap Z (JsMap jsstring Z))
    (tags : list jsstring) : Index :=
  let '(chrome, projects, projectIndices) :=
    if (length projectIndices =? 0)%nat then
      (* add the default project *)
      let project := makeDefaultProject in
      let projects := JsMap.set (Project.name project) project projects in
      let projectIndices := JsMap.set (Project.pk project) [] projectIndices in
      let storable := [(str "projects", JProjects (m2a projects))] in
      (snd (Storage.set storable chrome), projects, projectIndices)
    else (chrome, projects, projectIndices) in
  {| chrome := chrome;
     projects := projects;
     currentProject := currentProject;
     projectIndices := projectIndices;
     tags := tags;
     reverseProjectIndex :=
       fold_left (fun r kv => JsMap.set (Project.pk (snd kv)) (fst kv) r) projects [];
     cache := [] |}.

Definition defaultProject (i : Index) : jsstring * option ProjectInfo :=
  ([], JsMap.get [] (projects i)).

(** A string in a condition: the empty string counts as false. *)
Definition truthy (s : jsstring) : bool :=
  match s with [] => false | _ => true end.

(** [findProject(project)]; the second component is [None] when it is
    [undefined]. *)
Definition findProject (project : ProjectIdentifier) (i : Index)
  : jsstring * option ProjectInfo :=
  match project with
  | ByPk pk =>
      match JsMap.get pk (reverseProjectIndex i) with
      | Some r =>
          if truthy r then
            match JsMap.get r (projects i) with
            | Some ri => (r, Some ri)
            | None => defaultProject i
            end
          else defaultProject i
      | None => defaultProject i
      end
  | ByName name =>
      match JsMap.get name (projects i) with
      | Some ri => (name, Some ri)
      | None => defaultProject i
      end
  | ByInfo projectInfo =>
      match JsMap.get (Project.pk projectInfo) (reverseProjectIndex i) with
      | Some r => if truthy r then (r, Some projectInfo) else defaultProject i
      | None => defaultProject i
      end
  end.

(** The names that [for (const pair in array)] goes through: the indices of
    the array, as strings. *)
Definition forIn {A} (array : list A) : list jsstring :=
  List.map (fun n => toString (Z.of_nat n)) (seq 0 (length array)).

(** [s[n]]: a string of one character, or [undefined]. *)
Definition charAt (s : jsstring) (n : nat) : option jsstring :=
  (fun c => [c]) <$> s !! n.

(** What [reverseRelation] gives back: a string, [undefined] or [null]. *)
Inductive Reversed : Type :=
| RevString (s : jsstring)
| RevUndefined
| RevNull.

Definition orUndefined (o : option jsstring) : Reversed :=
  match o with Some s => RevString s | None => RevUndefined end.

Fixpoint reverseRelation_loop (relation : jsstring) (pairs : list jsstring) : Reversed :=
  match pairs with
  | [] => RevNull
  | pair_ :: rest =>
      if bool_decide (charAt pair_ 0 = Some relation) then orUndefined (charAt pair_ 1)
      else if bool_decide (charAt pair_ 1 = Some relation) then orUndefined (charAt pair_ 0)
      else reverseRelation_loop relation rest
  end.

(** [reverseRelation(project, relation)] *)
Definition reverseRelation (project : ProjectIdentifier) (relation : jsstring)
    (i : Index) : Result Reversed :=
  match snd (findProject project i) with
  | None => Throw TypeError
  | Some projectInfo =>
      Ok (reverseRelation_loop relation (forIn (Project.relations projectInfo)))
  end.

(** [normalize(phrase, project)] *)
Definition normalize (phrase : jsstring) (project : ProjectIdentifier) (i : Index)
  : Result jsstring :=
  let r :=
    match project with
    | ByInfo r => Some r
    | _ => snd (findProject project i)
    end in
  let normalizer := match r with Some r => Project.normalizer r | None => [] end in
  match normalizers normalizer with
  | Some n => Ok (Normalizer.code n phrase)
  | None => Throw TypeError
  end.

(** [normalize(phrase, projectInfo)] for the second component of a
    [findProject]: [undefined] is no object, and [findProject(undefined)]
    throws. *)
Definition normalizeFor (phrase : jsstring) (projectInfo : option ProjectInfo)
    (i : Index) : Result jsstring :=
  match projectInfo with
  | Some r => normalize phrase (ByInfo r) i
  | None => Throw Unreachable
  end.

Definition defaultNormalize (phrase : jsstring) : Result jsstring :=
  match normalizers [] with
  | Some n => Ok (Normalizer.code n phrase)
  | None => Throw TypeError
  end.

(** [projectIndex(phrase, project)] *)
Definition projectIndex (phrase : jsstring) (project : ProjectIdentifier) (i : Index)
  : Result (option Z) :=
  match snd (findProject project i) with
  | None => Throw TypeError
  | Some projectInfo =>
      match JsMap.get (Project.pk projectInfo) (projectIndices i) with
      | None => Throw TypeError
      | Some idx =>
          n ← normalize phrase (ByInfo projectInfo) i;
          Ok (JsMap.get n idx)
      end
  end.

(** [key(phrase, project)] *)
Definition key (phrase : jsstring) (project : ProjectIdentifier) (i : Index)
  : Result (option jsstring) :=
  match snd (findProject project i) with
  | None => Throw Unreachable
  | Some projectInfo =>
      match projectIndex phrase (ByInfo projectInfo) i with
      | Ok (Some n) => Ok (Some (noteKey (Project.pk projectInfo) n))
      | Ok None => Ok None
      | Throw e => Throw e
      end
  end.

Definition allProjects (i : Index) : list Z := JsMap.keys (projectIndices i).


(** [setCurrentProject(pk)] *)
Definition setCurrentProject (pk : Z) : World -> Outcome unit * World :=
  promise (
    i ← this;
    match JsMap.get pk (reverseProjectIndex i) with
    | Some _ =>
        r ← storageSet [(str "currentProject", Plain (JNumber pk))];
        callback (
          match r with
          | Failed e => ret (Rejected (LastError e))
          | Done _ => _ ← update (withCurrentProject pk); ret (Resolved tt)
          end)
    | None =>
        ret (Rejected (Message (toString pk ++ str " is not the primary key of a known project")))
    end).

Fixpoint foldM {A B} (f : B -> A -> M B) (l : list A) (b : B) : M B :=
  match l with
  | [] => ret b
  | x :: l' => b' ← f b x; foldM f l' b'
  end.

(** The note in the object at [l].  An object that is no note has none of the
    members [tags], [citations] and [relations], and what the index does with
    such a member of it throws. *)
Definition noteAt (l : nat) : M NoteRecord :=
  j ← readObj l; defined (asNote j).

Definition withRelations (r : JsMap jsstring (list KeyPair)) (n : NoteRecord)
  : NoteRecord :=
  {| Note.starred := Note.starred n; Note.tags := Note.tags n;
     Note.citations := Note.citations n; Note.relations := r |}.

Definition pairKey (p : KeyPair) : jsstring := noteKey (fst p) (snd p).

(** The primary key of a phrase that is new to [projectIndex]. *)
Definition nextPk (projectIndex : JsMap jsstring Z) : Z :=
  fold_left (fun pk kv => if (pk <=? snd kv)%Z then Double.add (snd kv) 1 else pk)
            projectIndex 0%Z.

(** The body of [for (const pair of pairs)] in [add]: the other end of one
    relation.  [acc] is [reversedRelation] and [storable]. *)
Definition add_mirror (projectInfo : ProjectInfo) (relation : jsstring)
    (keyPair pair_ : KeyPair) (acc : jsstring * JsMap jsstring Storable)
  : M (jsstring * JsMap jsstring Storable) :=
  let '(reversedRelation, storable) := acc in
  i ← this;
  match JsMap.get (pairKey pair_) (cache i) with
  | Some (Some other) =>
      (* other will necessarily be cached if a relation to it was added *)
      reversedRelation ←
        (if truthy reversedRelation then ret reversedRelation
         else
           r ← reading (reverseRelation (ByInfo projectInfo) relation);
           ret (match r with RevString s => s | _ => [] end));
      o ← noteAt other;
      match JsMap.get reversedRelation (Note.relations o) with
      | Some pairs2 =>
          if bool_decide (keyPair ∈ pairs2) then ret (reversedRelation, storable)
          else
            (* this is a new relation for other, so we'll need to store other *)
            _ ← writeObj other
                  (JNote (withRelations
                     (JsMap.set reversedRelation (pairs2 ++ [keyPair]) (Note.relations o)) o));
            ret (reversedRelation, JsMap.set (pairKey pair_) (Ref other) storable)
      | None => ret (reversedRelation, storable)
      end
  | _ => ret acc
  end.

(** [for (const pair of pairs)], from the element at [n] on.  The array is
    read afresh at each step, since what the body appends to it is gone
    through as well; it is the array of [relation] in the object [data]. *)
Fixpoint add_pairs (fuel n : nat) (data : nat) (projectInfo : ProjectInfo)
    (relation : jsstring) (keyPair : KeyPair)
    (acc : jsstring * JsMap jsstring Storable)
  : M (jsstring * JsMap jsstring Storable) :=
  match fuel with
  | O => ret acc
  | S fuel =>
      d ← noteAt data;
      match JsMap.get relation (Note.relations d) ≫= (fun pairs => pairs !! n) with
      | None => ret acc
      | Some pair_ =>
          acc ← add_mirror projectInfo relation keyPair pair_ acc;
          add_pairs fuel (S n) data projectInfo relation keyPair acc
      end
  end.

(** [add({ phrase, project, data })]; [data] is the address of the note
    object the caller hands over. *)
Definition add (phrase : jsstring) (project : Z) (data : nat)
  : World -> Outcome unit * World :=
  promise (
    i ← this;
    let found := snd (findProject (ByPk project) i) in
    key ← reading (normalizeFor phrase found);
    projectInfo ← defined found;
    let stored := JsMap.get (Project.pk projectInfo) (projectIndices i) in
    let projectIndex := default [] stored in
    '(pk, storable) ←
      match JsMap.get key projectIndex with
      | Some pk => ret (pk, [])
      | None =>
          (* we will have to generate a primary key for this phrase *)
          let pk := nextPk projectIndex in
          let projectIndex := JsMap.set key pk projectIndex in
          _ ← update (fun i =>
                 match stored with
                 | Some _ =>
                     withProjectIndices
                       (JsMap.set (Project.pk projectInfo) projectIndex (projectIndices i)) i
                 | None => i
                 end);
          ret (pk, [(toString (Project.pk projectInfo), Plain (JIndex (m2a projectIndex)))])
      end;
    let keyPair : KeyPair := (Project.pk projectInfo, pk) in
    _ ← update (fun i => withCache (JsMap.set (pairKey keyPair) (Some data) (cache i)) i);
    (* check for any new tags *)
    i ← this;
    let l := length (tags i) in
    d ← noteAt data;
    _ ← update (fun i => withTags (fold_left (fun t tag => set_add tag t) (Note.tags d) (tags i)) i);
    i ← this;
    let storable :=
      if (l <? length (tags i))%nat
      then JsMap.set (str "tags") (Plain (JTags (tags i))) storable
      else storable in
    (* modify any phrases newly tied to this by a relation *)
    storable ←
      foldM (fun storable relation =>
               d ← noteAt data;
               let pairs := default [] (JsMap.get relation (Note.relations d)) in
               acc ← add_pairs (length pairs + 2) 0 data projectInfo relation keyPair
                               ([], storable);
               ret (snd acc))
            (JsMap.keys (Note.relations d)) storable;
    (* store the phrase itself *)
    let storable := JsMap.set (pairKey keyPair) (Ref data) storable in
    r ← storageSet storable;
    callback (ret (settle r id))).

(** [delete({ phrase, project })]: the executor is empty. *)
Definition delete (phrase : jsstring) (project : ProjectInfo)
  : World -> Outcome unit * World :=
  promise (ret Pending).

(** *** [find] *)

(** [new RegExp(key.split('').map(escape).join(".*?")).test(normed)]: every
    character of [key] stands for itself, so the expression finds the
    characters of [key] in this order, with anything but line terminators in
    between.  [gap] tells that a [.*?] comes before what [key] starts with. *)
Fixpoint fuzzy_at (gap : bool) (key normed : jsstring) {struct normed} : bool :=
  match key with
  | [] => true
  | c :: key' =>
      match normed with
      | [] => false
      | x :: normed' =>
          ((x =? c) && fuzzy_at true key' normed')
          || (gap && negb (isLineTerminator x) && fuzzy_at true key normed')
      end
  end.

Fixpoint fuzzy_test (key normed : jsstring) : bool :=
  fuzzy_at false key normed ||
  match normed with
  | [] => false
  | _ :: normed' => fuzzy_test key normed'
  end.

(** What [Object.keys(requirements)] holds once [type] is deleted. *)
Definition requirementKeys (query : AdHoc.t) : list jsstring :=
  let present {A} (o : option A) (name : jsstring) : list jsstring :=
    match o with Some _ => [name] | None => [] end in
  present (AdHoc.phrase query) (str "phrase")
  ++ present (AdHoc.strictness query) (str "strictness")
  ++ present (AdHoc.project query) (str "project")
  ++ present (AdHoc.starred query) (str "starred")
  ++ present (AdHoc.tagRequired query) (str "tagRequired")
  ++ present (AdHoc.tagForbidden query) (str "tagForbidden")
  ++ present (AdHoc.url query) (str "url")
  ++ present (AdHoc.before query) (str "before")
  ++ present (AdHoc.after query) (str "after").

(** An array in a condition: an object, which counts as true whatever it
    holds. *)
Definition truthyArray {A} (array : list A) : bool := true.

(** The callback of [candidates.filter] in an ad hoc search, on the object
    [note]. *)
Definition adHocFilter (query : AdHoc.t) (note : Json) : Result bool :=
  let member {A} (f : NoteRecord -> A) : Result A :=
    match asNote note with Some n => Ok (f n) | None => Throw TypeError end in
  match AdHoc.starred query with
  | None => Ok false       (* the callback returns nothing *)
  | Some starred =>
      let noteStarred :=
        match asNote note with Some n => Note.starred n | None => false end in
      if (if starred then negb noteStarred else noteStarred) then Ok false else
      missingTag ←
        match AdHoc.tagRequired query with
        | Some ((_ :: _) as tagRequired) =>
            tags ← member Note.tags;
            Ok (existsb (fun t => negb (bool_decide (t ∈ tags))) tagRequired)
        | _ => Ok false
        end;
      if (missingTag : bool) then Ok false else
      forbiddenTag ←
        match AdHoc.tagForbidden query with
        | Some ((_ :: _) as tagForbidden) =>
            tags ← member Note.tags;
            Ok (existsb (fun t => bool_decide (t ∈ tags)) tagForbidden)
        | _ => Ok false
        end;
      if (forbiddenTag : bool) then Ok false else
      noUrl ←
        match AdHoc.url query with
        | Some url =>
            citations ← member Note.citations;
            Ok (forallb (fun c => negb (includes url (Citation.url c))) citations)
        | None => Ok false
        end;
      if (noUrl : bool) then Ok false else
      late ←
        match AdHoc.before query with
        | Some before =>
            citations ← member Note.citations;
            Ok (forallb (fun c => forallb (fun w => before <? w)%Z (Citation.when c)) citations)
        | None => Ok false
        end;
      if (late : bool) then Ok false else
      early ←
        match AdHoc.after query with
        | Some after =>
            citations ← member Note.citations;
            Ok (forallb (fun c => forallb (fun w => w <? after)%Z (Citation.when c)) citations)
        | None => Ok false
        end;
      if (early : bool) then Ok false else Ok true
  end.

Fixpoint filterM {A} (f : A -> M bool) (l : list A) : M (list A) :=
  match l with
  | [] => ret []
  | x :: l' =>
      b ← f x; r ← filterM f l';
      ret (if (b : bool) then x :: r else r)
  end.

(** A note of the index is a candidate if it is cached, and is to be looked
    up if not. *)
Definition consider (i : Index) (pk n : Z) (acc : list Match * list jsstring)
  : list Match * list jsstring :=
  let key := noteKey pk n in
  match JsMap.get key (cache i) with
  | Some (Some note) => (fst acc ++ [(Some pk, Some note)], snd acc)
  | _ => (fst acc, snd acc ++ [key])
  end.

Definition find_lookup (phrase : jsstring) (project : option Z)
  : M (Outcome FindResponse) :=
  i ← this;
  let projects := match project with None => allProjects i | Some p => [p] end in
  keys ← foldM (fun keys pk =>
                  r ← reading (projectIndex phrase (ByPk pk));
                  ret (match r with Some n => keys ++ [(pk, n)] | None => keys end))
               projects [];
  match keys with
  | _ :: _ =>
      let continuation (rv : list Match) : Outcome FindResponse :=
        match rv with
        | [m] => Resolved (state_found m)
        | [] => Resolved (state_found (None, None))
        | _ => Resolved (state_ambiguous rv)
        end in
      (* first search the cache *)
      let cached (k : KeyPair) : option nat :=
        match JsMap.get (pairKey k) (cache i) with Some (Some l) => Some l | _ => None end in
      let rv := omap (fun k => (fun l => (Some (fst k), Some l)) <$> cached k) (rev keys) in
      let keys := List.filter (fun k => match cached k with Some _ => false | None => true end) keys in
      match keys with
      | _ :: _ =>
          (* we have to get some out of storage as well *)
          r ← storageGet (List.map pairKey keys);
          callback (
            match r with
            | Failed e => ret (Rejected (LastError e))
            | Done found =>
                rv ← foldM (fun rv k =>
                              note ← match JsMap.get (pairKey k) found with
                                     | Some j => l ← alloc j; ret (Some l)
                                     | None => ret None
                                     end;
                              copy ← deepClone note;
                              _ ← update (fun i => withCache (JsMap.set (pairKey k) copy (cache i)) i);
                              ret (rv ++ [(Some (fst k), note)]))
                           keys rv;
                ret (continuation rv)
            end)
      | [] => ret (continuation rv)
      end
  | [] => ret (Resolved state_none)
  end.

Definition find_adHoc (query : AdHoc.t) : M (Outcome FindResponse) :=
  let requirements := requirementKeys query in
  if truthyArray requirements then
    i ← this;
    let project := match AdHoc.project query with Some p => p | None => allProjects i end in
    let isFuzzy :=
      match AdHoc.strictness query with None | Some fuzzy => true | _ => false end in
    '(normalized, fuzzyMatchers) ←
      match AdHoc.phrase query with
      | Some phrase =>
          nf ← foldM (fun nf pk =>
                        key ← reading (normalize phrase (ByPk pk));
                        ret (JsMap.set pk key (fst nf),
                             if isFuzzy then JsMap.set pk key (snd nf) else snd nf))
                     project ([], []);
          ret (Some (fst nf), if isFuzzy then Some (snd nf) else None)
      | None => ret (None, None)
      end;
    let continuation (candidates : list Match) : M (Outcome FindResponse) :=
      candidates ← filterM (fun m =>
                              match snd m with
                              | Some l => note ← readObj l; reading (fun _ => adHocFilter query note)
                              | None => throw TypeError
                              end)
                           candidates;
      ret (match candidates with
           | [] => Resolved state_none
           | [m] => Resolved (state_found m)
           | _ => Resolved (state_ambiguous candidates)
           end) in
    '(candidates, toLookUp) ←
      match AdHoc.phrase query, AdHoc.strictness query with
      | Some _, Some exact =>
          (* we don't have to iterate over all keys!! *)
          foldM (fun acc pk_key =>
                   idx ← defined (JsMap.get (fst pk_key) (projectIndices i));
                   ret (match JsMap.get (snd pk_key) idx with
                        | Some n => consider i (fst pk_key) n acc
                        | None => acc
                        end))
                (default [] normalized) ([], [])
      | _, _ =>
          ret (fold_left
                 (fun acc pk =>
                    let index := default [] (JsMap.get pk (projectIndices i)) in
                    fold_left
                      (fun acc normed_n =>
                         let normed := fst normed_n in
                         let passes :=
                           match AdHoc.phrase query with
                           | Some (_ :: _) =>
                               match AdHoc.strictness query with
                               | Some substring =>
                                   match normalized ≫= JsMap.get pk with
                                   | Some ((_ :: _) as norm) => includes norm normed
                                   | _ => true
                                   end
                               | _ =>
                                   match fuzzyMatchers ≫= JsMap.get pk with
                                   | Some matcher => fuzzy_test matcher normed
                                   | None => false
                                   end
                               end
                           | _ => true
                           end in
                         if passes then consider i pk (snd normed_n) acc else acc)
                      index acc)
                 project ([], []))
      end;
    match toLookUp with
    | _ :: _ =>
        r ← storageGet toLookUp;
        callback (
          match r with
          | Failed e => ret (Rejected (LastError e))
          | Done found =>
              candidates ←
                foldM (fun candidates key_note =>
                         l ← alloc (snd key_note);
                         let pk := parseInt (beforeColon (fst key_note)) in
                         ret (candidates ++ [(pk, Some l)]))
                      found candidates;
              continuation candidates
          end)
    | [] => continuation candidates
    end
  else
    (* no filters means no results *)
    ret (Resolved state_none).

(** [find(query)] *)
Definition find (query : Query) : World -> Outcome FindResponse * World :=
  promise (
    match query with
    | lookup phrase project => find_lookup phrase project
    | ad_hoc query => find_adHoc query
    end).

(** *** [deleteRelation] *)

(** [`${s}`] for a character of a string that may be missing. *)
Definition template (o : option jsstring) : jsstring :=
  match o with Some s => s | None => str "undefined" end.

(** The pairs of an array but [p]. *)
Definition without (p : KeyPair) (pairs : list KeyPair) : list KeyPair :=
  List.filter (fun q => negb (bool_decide (fst q = fst p) && bool_decide (snd q = snd p))) pairs.

(** [relations[relation] = pairs] if there are pairs,
    [delete relations[relation]] if not. *)
Definition setOrDelete (relation : jsstring) (pairs : list KeyPair)
    (relations : JsMap jsstring (list KeyPair)) : JsMap jsstring (list KeyPair) :=
  match pairs with
  | _ :: _ => JsMap.set relation pairs relations
  | [] => JsMap.delete relation relations
  end.

(** [deleteRelation({ phrase, project, relation, pair })] *)
Definition deleteRelation (phrase : jsstring) (project : ProjectInfo)
    (relation : jsstring) (pair_ : KeyPair) : World -> Outcome unit * World :=
  promise (
    i ← this;
    let '(projectName, found) := findProject (ByInfo project) i in
    key ← reading (normalizeFor phrase found);
    projectInfo ← defined found;
    let projectIndex := JsMap.get (Project.pk projectInfo) (projectIndices i) in
    match projectIndex ≫= JsMap.get key with
    | None =>
        ret (Rejected (Message
          (str "the phrase " ++ phrase ++ str " is not stored in " ++ projectName)))
    | Some pk =>
        (* the phrase in question is necessarily cached *)
        match JsMap.get (noteKey (Project.pk projectInfo) pk) (cache i) with
        | Some (Some data) =>
            let continuation (other : nat) : M (Outcome unit) :=
              (* prepare other end of relation for storage *)
              reversedRelation ← reading (reverseRelation (ByInfo projectInfo) relation);
              match reversedRelation with
              | RevString ((_ :: _) as reversedRelation) =>
                  let storable := [(pairKey pair_, Ref other)] in
                  (* remove other end of relation from other's relations *)
                  o ← noteAt other;
                  let pairs2 := default [] (JsMap.get reversedRelation (Note.relations o)) in
                  let pairs22 := without (Project.pk projectInfo, pk) pairs2 in
                  _ ← writeObj other
                        (JNote (withRelations
                           (setOrDelete reversedRelation pairs22 (Note.relations o)) o));
                  (* remove near end of relation from data's relations *)
                  data2 ← deepClone (Some data);
                  data2 ← defined data2;
                  let storable :=
                    JsMap.set (template (charAt key 0) ++ [58] ++ template (charAt key 1))
                              (Ref data2) storable in
                  d ← noteAt data2;
                  let pairs := default [] (JsMap.get relation (Note.relations d)) in
                  let pairs2 := without pair_ pairs in
                  _ ← writeObj data2
                        (JNote (withRelations (setOrDelete relation pairs2 (Note.relations d)) d));
                  r ← storageSet storable;
                  callback (ret (settle r id))
              | _ =>
                  ret (Rejected (Message
                    (str "could not find the reversed relation for " ++ relation
                     ++ str " in " ++ projectName)))
              end in
            let otherKey := pairKey pair_ in
            match JsMap.get otherKey (cache i) with
            | Some (Some other) => continuation other
            | _ =>
                r ← storageGet [pairKey pair_];
                callback (
                  match r with
                  | Failed e => ret (Rejected (LastError e))
                  | Done found =>
                      (* what is cached and handed on is the whole answer *)
                      other ← alloc (JObject found);
                      _ ← update (fun i => withCache (JsMap.set otherKey (Some other) (cache i)) i);
                      continuation other
                  end)
            end
        | _ =>
            ret (Rejected (Message
              (str "the phrase was not cached; this should be unreachable code")))
        end
    end).

(** *** Projects *)

(** [s.replace(/\s+/, ' ')]: without the flag [g], the first run only. *)
Fixpoint collapseFirst (s : jsstring) : jsstring :=
  match s with
  | [] => []
  | c :: s' => if isSpace c then 32 :: dropWhile isSpace s' else c :: collapseFirst s'
  end.

(** [saveProject({ name, description, normalizer, relations })] *)
Definition saveProject (args : SaveProject.t) : World -> Outcome Z * World :=
  promise (
    let description := default (str "[no description]") (SaveProject.description args) in
    let normalizer := default [] (SaveProject.normalizer args) in
    let relations :=
      default [(str "see also", str "see also")] (SaveProject.relations args) in
    (* whitespace normalization *)
    let name := collapseFirst (trim (SaveProject.name args)) in
    let description := collapseFirst (trim description) in
    i ← this;
    '(pk, storable) ←
      match JsMap.get name (projects i) with
      | Some existing => ret (Project.pk existing, [])
      | None =>
          let pk :=
            fold_left (fun pk kv =>
                         if (pk <=? Project.pk (snd kv))%Z
                         then Double.add (Project.pk (snd kv)) 1 else pk)
                      (projects i) 1%Z in
          _ ← update (fun i => withProjectIndices (JsMap.set pk [] (projectIndices i)) i);
          _ ← update (fun i => withReverseProjectIndex (JsMap.set pk name (reverseProjectIndex i)) i);
          ret (pk, [(toString pk, Plain (JIndex []))])
      end;
    let project : ProjectInfo :=
      {| Project.pk := pk; Project.name := name; Project.description := description;
         Project.normalizer := normalizer; Project.relations := relations |} in
    _ ← update (fun i => withProjects (JsMap.set name project (projects i)) i);
    i ← this;
    let storable := JsMap.set (str "projects") (Plain (JProjects (m2a (projects i)))) storable in
    r ← storageSet storable;
    callback (ret (settle r (fun _ => pk)))).

(** [removeProject(project)] *)
Definition removeProject (project : ProjectIdentifier) : World -> Outcome unit * World :=
  promise (
    i ← this;
    projectInfo ← defined (snd (findProject project i));
    let pk := Project.pk projectInfo in
    idx ← defined (JsMap.get pk (projectIndices i));
    let cached (key : jsstring) : option nat :=
      match JsMap.get key (cache i) with Some (Some l) => Some l | _ => None end in
    let delenda := List.map (noteKey pk) (JsMap.values idx) in
    let notes := omap cached delenda in
    let found := List.filter (fun key => match cached key with Some _ => true | None => false end) delenda in
    let missing := List.filter (fun key => match cached key with Some _ => false | None => true end) delenda in
    (* continuation that takes the adjustables and adjusts them *)
    let continuation2 (adjustables : list (jsstring * nat)) : M (Outcome unit) :=
      memoranda ←
        foldM (fun memoranda key_note =>
                 n ← noteAt (snd key_note);
                 seeAlso ← defined (JsMap.get (str "see also") (Note.relations n));
                 let keepers := List.filter (fun kv => negb (bool_decide (fst kv = pk))) seeAlso in
                 _ ← writeObj (snd key_note)
                       (JNote (withRelations
                          (setOrDelete (str "see also") keepers (Note.relations n)) n));
                 ret (JsMap.set (fst key_note) (Ref (snd key_note)) memoranda))
              adjustables [];
      let delenda := delenda ++ [toString pk] in
      r ← storageRemove delenda;
      callback (
        match r with
        | Failed e => ret (Rejected (LastError e))
        | Done _ =>
            _ ← update (fun i => withProjects (JsMap.delete (Project.name projectInfo) (projects i)) i);
            _ ← update (fun i => withReverseProjectIndex (JsMap.delete pk (reverseProjectIndex i)) i);
            i ← this;
            memoranda ←
              (if bool_decide (currentProject i = pk) then
                 _ ← update (withCurrentProject 0);
                 ret (JsMap.set (str "currentProject") (Plain (JNumber 0)) memoranda)
               else ret memoranda);
            i ← this;
            let memoranda :=
              JsMap.set (str "projects") (Plain (JProjects (m2a (projects i)))) memoranda in
            (* now we need to save the changes *)
            r ← storageSet memoranda;
            callback (
              match r with
              | Failed e =>
                  ret (Rejected (Message
                    (str "all the notes in " ++ Project.name projectInfo
                     ++ str " have been deleted, but some changes could not be saved: " ++ e)))
              | Done _ =>
                  _ ← update (fun i => withCache (fold_left (fun c key => JsMap.delete key c) found (cache i)) i);
                  ret (Resolved tt)
              end)
        end) in
    (* continuation that handles notes in other projects that need adjustment *)
    let continuation1 (notes : list nat) : M (Outcome unit) :=
      '(adjustables, adjustanda) ←
        foldM (fun acc note =>
                 n ← noteAt note;
                 let seeAlso := default [] (JsMap.get (str "see also") (Note.relations n)) in
                 ret (fold_left
                        (fun acc kv =>
                           let key := noteKey (fst kv) (snd kv) in
                           match cached key with
                           | Some adjustable => (fst acc ++ [(key, adjustable)], snd acc)
                           | None => (fst acc, snd acc ++ [key])
                           end)
                        (List.filter (fun kv => negb (bool_decide (fst kv = pk))) seeAlso)
                        acc))
              notes ([], []);
      match adjustanda with
      | _ :: _ =>
          r ← storageGet adjustanda;
          callback (
            match r with
            | Failed e => ret (Rejected (LastError e))
            | Done found =>
                adjustables ←
                  foldM (fun adjustables key_note =>
                           l ← alloc (snd key_note);
                           ret (adjustables ++ [(fst key_note, l)]))
                        found adjustables;
                continuation2 adjustables
            end)
      | [] => continuation2 adjustables
      end in
    match missing with
    | _ :: _ =>
        r ← storageGet missing;
        callback (
          match r with
          | Failed e => ret (Rejected (LastError e))
          | Done found =>
              notes ← foldM (fun notes key_note =>
                               l ← alloc (snd key_note); ret (notes ++ [l]))
                            found notes;
              continuation1 notes
          end)
    | [] => continuation1 notes
    end).

(** [clear()] *)
Definition clear : World -> Outcome unit * World :=
  promise (
    r ← storageClear;
    callback (
      match r with
      | Failed e => ret (Rejected (LastError e))
      | Done _ =>
          (* restore the default project *)
          let project := makeDefaultProject in
          let projects := JsMap.set (Project.name project) project [] in
          _ ← update (fun i =>
                 {| chrome := chrome i; projects := projects;
                    currentProject := currentProject i;
                    projectIndices := JsMap.set (Project.pk project) [] [];
                    tags := []; reverseProjectIndex := []; cache := [] |});
          (* if this fails no harm done *)
          _ ← storageSet [(str "projects", Plain (JProjects (m2a projects)))];
          ret (Resolved tt)
      end)).

End Index.

(** ** [getIndex] *)

(** A property name that is an array index: such names come first, in
    ascending order, when the properties of an object are gone through. *)
Definition arrayIndex (k : jsstring) : option Z :=
  match parseInt k with
  | Some z => if (0 <=? z)%Z && jsstring_eqb (toString z) k then Some z else None
  | None => None
  end.

Fixpoint insertByIndex {A} (x : Z * A) (l : list (Z * A)) : list (Z * A) :=
  match l with
  | [] => [x]
  | y :: l' => if (fst x <? fst y)%Z then x :: l else y :: insertByIndex x l'
  end.

(** [Object.entries(o)] for an object whose properties were made in the order
    of [l]. *)
Definition objectEntries {A} (l : list (jsstring * A)) : list (jsstring * A) :=
  List.map snd
    (fold_right insertByIndex []
       (omap (fun kv => (fun z => (z, kv)) <$> arrayIndex (fst kv)) l))
  ++ List.filter (fun kv => match arrayIndex (fst kv) with Some _ => false | None => true end) l.

(** [getIndex(chrome)].  What is stored under ["projects"],
    ["currentProject"], ["tags"] and the keys of the projects is taken to be
    what the index stores there; with anything else the callback throws. *)
Definition getIndex {U : Unicode} (c : Chrome) : Outcome Index * Chrome :=
  match Storage.get [str "projects"; str "currentProject"; str "tags"] c with
  | (Failed e, c) => (Rejected (LastError e), c)
  | (Done result, c) =>
      let projects :=
        match JsMap.get (str "projects") result with
        | None => Some [] | Some (JProjects l) => Some l | Some _ => None
        end in
      let currentProject :=
        match JsMap.get (str "currentProject") result with
        | None => Some 0%Z | Some (JNumber z) => Some z | Some _ => None
        end in
      let tags :=
        match JsMap.get (str "tags") result with
        | None => Some [] | Some (JTags l) => Some l | Some _ => None
        end in
      match projects, currentProject, tags with
      | Some projects, Some currentProject, Some tags =>
          (* now that we have the project we can fetch the project indices *)
          let indices := List.map (fun kv => toString (Project.pk (snd kv))) projects in
          match Storage.get indices c with
          | (Failed e, c) => (Rejected (LastError e), c)
          | (Done result, c) =>
              let projectIndices :=
                fold_left
                  (fun acc idx_ridx =>
                     match acc, parseInt (fst idx_ridx), snd idx_ridx with
                     | Some m, Some idx, JIndex ridx =>
                         Some (JsMap.set idx (JsMap.of_entries ridx) m)
                     | _, _, _ => None
                     end)
                  (objectEntries result) (Some []) in
              match projectIndices with
              | Some projectIndices =>
                  let index :=
                    constructor c (JsMap.of_entries projects) currentProject
                                projectIndices (fold_left (fun s t => set_add t s) tags []) in
                  (Resolved index, chrome index)
              | None => (Pending, c)
              end
          end
      | _, _, _ => (Pending, c)
      end
  end.

(** ** White space in a normalized phrase *)

Fixpoint noDoubleSpace (s : jsstring) : bool :=
  match s with
  | a :: s' =>
      match s' with
      | b :: _ => negb ((a =? 32) && (b =? 32)) && noDoubleSpace s'
      | [] => true
      end
  | [] => true
  end.

(** No space at either end and no two spaces in a row. *)
Definition wellSpaced (s : jsstring) : bool :=
  negb (match s with c :: _ => c =? 32 | [] => false end)
  && negb (match last s with Some c => c =? 32 | None => false end)
  && noDoubleSpace s.

(** The only white space in [s] is the space. *)
Definition spaceIs32 (s : jsstring) : Prop :=
  Forall (fun c => isSpace c = true -> c = 32) s.

(** ** What the relations of notes do not touch *)

(** The part of the index that says which notes there are and where. *)
Definition registry (i : Index)
  : JsMap jsstring ProjectInfo * JsMap Z jsstring
    * JsMap Z (JsMap jsstring Z) * JsMap jsstring (option nat) :=
  (projects i, reverseProjectIndex i, projectIndices i, cache i).

(** A computation that leaves it as it is, however it ends. *)
Definition keeps {A} (m : M A) : Prop :=
  forall w, registry (index (snd (m w))) = registry (index w).

(** ** What an ad hoc search goes through *)

(** The notes that an ad hoc search without a phrase gathers from the phrase
    indices of [project]: the candidates, and the keys to look up. *)
Definition gather (i : Index) (project : list Z) (acc : list Match * list jsstring)
  : list Match * list jsstring :=
  fold_left
    (fun acc pk =>
       fold_left (fun acc nn => consider i pk (snd nn) acc)
                 (default [] (JsMap.get pk (projectIndices i))) acc)
    project acc.

(** ** The relations of the objects *)

(** What the object at [l] has under [relation]: nothing if it is no note. *)
Definition named (l : nat) (relation : jsstring) (h : list Json)
  : option (option (list KeyPair)) :=
  (fun j => match j with
            | JNote n => JsMap.get relation (Note.relations n)
            | _ => None
            end) <$> h !! l.

(** A computation after which [Q] holds of what it returns, and which leaves
    every relation with a name as it is, in every object. *)
Definition namedPost {A} (Q : A -> Prop) (m : M A) : Prop :=
  forall w,
    (forall l r, r <> [] -> named l r (heap (snd (m w))) = named l r (heap w))
    /\ (forall a, fst (m w) = Ok a -> Q a).

(** The array that [add] goes through: the pairs of the note at [data]
    under [relation]. *)
Definition pairsAt (data : nat) (relation : jsstring) (w : World) : option (list KeyPair) :=
  match heap w !! data with
  | Some (JNote d) => JsMap.get relation (Note.relations d)
  | _ => None
  end.

(** How many steps the loop over that array can still take from the element
    at [n]: one for each element left, one for the pair that may yet be
    appended, and one to find the end. *)
Definition stepsLeft (data : nat) (relation : jsstring) (keyPair : KeyPair) (n : nat)
    (w : World) : nat :=
  match pairsAt data relation w with
  | Some pairs =>
      S ((length pairs - n) + (if bool_decide (keyPair ∈ pairs) then 0 else 1))
  | None => 1
  end.

(** ** Scenarios *)

Module Scenario.
#[local] Existing Instance ucd_latin1.

(** A store with nothing in it, where nothing goes wrong. *)
Definition emptyChrome : Chrome := {| local := ∅; bytesInUse := 0; faults := [] |}.

(** The index over the empty store: what [getIndex] makes of it. *)
Definition fresh : World :=
  {| index := constructor emptyChrome [] 0 [] []; heap := [] |}.

(** The next call of the store fails with [e]. *)
Definition failing (e : jsstring) (w : World) : World :=
  {| index := withChrome {| local := local (chrome (index w));
                            bytesInUse := bytesInUse (chrome (index w));
                            faults := [Some e] |} (index w);
     heap := heap w |}.


(** The program is started again on the store of [w]: a new index, and none
    of the objects of before. *)
Definition reopened (w : World) : World :=
  {| index := match getIndex (chrome (index w)) with
              | (Resolved i, _) => i
              | _ => index w
              end;
     heap := [] |}.

(** The caller makes an object for [note] and adds it. *)
Definition addNote (phrase : jsstring) (project : Z) (note : NoteRecord) (w : World)
  : Outcome unit * World :=
  match alloc (JNote note) w with
  | (Ok data, w') => add phrase project data w'
  | (Throw e, w') => (Rejected e, w')
  end.

Definition cat : NoteRecord :=
  {| Note.starred := false; Note.tags := [str "animal"];
     Note.citations := []; Note.relations := [] |}.

(** "dog" points at "cat", the note [0:0], under "see also". *)
Definition dog : NoteRecord :=
  {| Note.starred := false; Note.tags := [str "animal"];
     Note.citations := []; Note.relations := [(str "see also", [(0, 0)%Z])] |}.

(** The default project with "cat" in it: the object at 0, note [0:0]. *)
Definition withCat : World := snd (addNote (str "cat") 0 cat fresh).

(** Then "dog" as well: the object at 1, note [0:1]. *)
Definition withCatAndDog : World := snd (addNote (str "dog") 0 dog withCat).

(** "dog" with no relation. *)
Definition dogAlone : NoteRecord :=
  {| Note.starred := false; Note.tags := [str "animal"];
     Note.citations := []; Note.relations := [] |}.

(** "cat" and "dog" are stored, unrelated: the objects at 0 and 1, the notes
    [0:0] and [0:1]. *)
Definition unrelated : World := snd (addNote (str "dog") 0 dogAlone withCat).

(** Then "dog" is saved again with "cat" under "see also": the object
    at 2. *)
Definition related : World := snd (addNote (str "dog") 0 dog unrelated).

(** A project "German" with the normalizer "German", and "Über" in it. *)
Definition german : SaveProject.t :=
  {| SaveProject.name := str "German"; SaveProject.description := None;
     SaveProject.normalizer := Some (str "German"); SaveProject.relations := None |}.

(** The record [saveProject] makes of it. *)
Definition germanInfo : ProjectInfo :=
  {| Project.pk := 1; Project.name := str "German";
     Project.description := str "[no description]";
     Project.normalizer := str "German";
     Project.relations := [(str "see also", str "see also")] |}.

(** A project whose normalizer is not in the registry. *)
Definition frenchInfo : ProjectInfo :=
  {| Project.pk := 2; Project.name := str "French";
     Project.description := str "[no description]";
     Project.normalizer := str "French";
     Project.relations := [(str "see also", str "see also")] |}.

Definition Uber : jsstring := 220 :: str "ber".
Definition uber : jsstring := 252 :: str "ber".

Definition withGerman : World := snd (saveProject german fresh).
Definition withUber : World := snd (addNote Uber 1 cat withGerman).

(** An ad hoc query with nothing but its [type]. *)
Definition noRequirements : AdHoc.t :=
  {| AdHoc.phrase := None; AdHoc.strictness := None; AdHoc.project := None;
     AdHoc.starred := None; AdHoc.tagRequired := None; AdHoc.tagForbidden := None;
     AdHoc.url := None; AdHoc.before := None; AdHoc.after := None |}.

(** An ad hoc query for the notes that are exactly [phrase] and not starred. *)
Definition exactly (phrase : jsstring) : AdHoc.t :=
  {| AdHoc.phrase := Some phrase; AdHoc.strictness := Some exact;
     AdHoc.project := None; AdHoc.starred := Some false;
     AdHoc.tagRequired := None; AdHoc.tagForbidden := None;
     AdHoc.url := None; AdHoc.before := None; AdHoc.after := None |}.

(** The relations of the note in the object at [l]. *)
Definition relationsAt (l : nat) (w : World) : option (JsMap jsstring (list KeyPair)) :=
  match heap w !! l with
  | Some (JNote n) => Some (Note.relations n)
  | _ => None
  end.

(** The relations of the note stored under [key]. *)
Definition relationsStored (key : jsstring) (w : World)
  : option (JsMap jsstring (list KeyPair)) :=
  match local (chrome (index w)) !! key with
  | Some (JNote n) => Some (Note.relations n)
  | _ => None
  end.

End Scenario.

(** ** The relations of a project *)

(** [set.add(x)] on a [Set] of values of any kind. *)
Definition setAdd {A} `{EqDecision A} (x : A) (s : list A) : list A :=
  if bool_decide (x ∈ s) then s else s ++ [x].

(** [relationsForProject(project)]: what the loop adds to the set is a
    character of a name that [for (const pair in array)] goes through, or
    [undefined], which is [None]. *)
Definition relationsForProject (project : ProjectIdentifier) (i : Index)
  : Result (list (option jsstring)) :=
  match snd (findProject project i) with
  | None => Throw TypeError
  | Some projectInfo =>
      Ok (fold_left (fun relations pair_ =>
                       setAdd (charAt pair_ 1) (setAdd (charAt pair_ 0) relations))
                    (forIn (Project.relations projectInfo)) [])
  end.

(** ** [missing] *)

(** A [KeyPair] as a member of a [Set]: an array, which the set tells from
    another array by its identity, not by what is in it. *)
Module PairObject.
Record t : Type := { identity : nat; pair : KeyPair }.
End PairObject.

(** [new Set(array)]: the arrays of [array], each identity once. *)
Definition setOfPairs (array : list PairObject.t) : list PairObject.t :=
  fold_left (fun s p =>
               if existsb (fun q => (PairObject.identity q =? PairObject.identity p)%nat) s
               then s else s ++ [p])
            array [].

(** [set.delete(p)] *)
Definition deletePair (p : PairObject.t) (s : list PairObject.t) : list PairObject.t :=
  List.filter (fun q => negb (PairObject.identity q =? PairObject.identity p)%nat) s.

(** [missing(maybeMissing)].  The arrays that [pairs.map] makes are new ones:
    their identities are those from [new] on, which no member of
    [maybeMissing] has. *)
Definition missing (maybeMissing : list PairObject.t)
  : World -> Outcome (list PairObject.t) * World :=
  fun w =>
    (* first get rid of the things in the cache *)
    let pairs :=
      List.filter (fun p => negb (JsMap.has (pairKey (PairObject.pair p)) (cache (index w))))
                  maybeMissing in
    promise (
      match pairs with
      | _ :: _ =>
          let missing := setOfPairs pairs in
          let new := S (fold_right Nat.max 0%nat (List.map PairObject.identity maybeMissing)) in
          let map :=
            JsMap.of_entries
              (imap (fun k p =>
                       (pairKey (PairObject.pair p),
                        {| PairObject.identity := new + k;
                           PairObject.pair := PairObject.pair p |}))
                    pairs) in
          let keys := JsMap.keys map in
          r ← storageGet keys;
          callback (
            match r with
            | Failed e => ret (Rejected (LastError e))
            | Done found =>
                ret (Resolved
                       (fold_left (fun missing key =>
                                     match JsMap.get key map with
                                     | Some p => deletePair p missing
                                     | None => missing
                                     end)
                                  (JsMap.keys found) missing))
            end)
      | [] => ret (Resolved [])
      end) w.

(** ** What a computation leaves as it is, and how it ends *)

(** A computation that leaves a part of the index as it is, however it ends. *)
Definition leaves {X A} (part : Index -> X) (m : M A) : Prop :=
  forall w, part (index (snd (m w))) = part (index w).

(** What the index holds besides its cache, with what is stored. *)
Definition holdings (i : Index)
  : gmap jsstring Json * JsMap jsstring ProjectInfo * Z * JsMap Z (JsMap jsstring Z)
    * list jsstring * JsMap Z jsstring :=
  (local (chrome i), projects i, currentProject i, projectIndices i, tags i,
   reverseProjectIndex i).

(** A computation whose result, when it has one, satisfies [Q]. *)
Definition post {A} (Q : A -> Prop) (m : M A) : Prop :=
  forall w a, fst (m w) = Ok a -> Q a.

(** An answer of [find] that holds no note. *)
Definition noMatch (o : Outcome FindResponse) : Prop :=
  match o with
  | Resolved (state_found _) | Resolved (state_ambiguous _) => False
  | _ => True
  end.

(** A computation that, started where [P] holds, ends with [Q]. *)
Definition under {A} (P : World -> Prop) (Q : Result A -> World -> Prop) (m : M A) : Prop :=
  forall w, P w -> Q (fst (m w)) (snd (m w)).

(** ** The letters of the German normalizer *)

(** The letters that the German normalizer spells out, in either case:
    ß, ä, ö, ü, Ä, Ö and Ü. *)
Definition umlaut (c : N) : bool :=
  (c =? 223) || (c =? 228) || (c =? 246) || (c =? 252)
  || (c =? 196) || (c =? 214) || (c =? 220).

(** ** More scenarios *)

Module Cases.
#[local] Existing Instance ucd_latin1.
Import Scenario.

(** The program is started again after the project "German" was made: the
    store holds the projects and the phrase index of "German", which is
    empty, and no phrase index of the default project. *)
Definition restarted : World := reopened withGerman.

(** The caller has made the object of the note "cat", at 0, once the program
    is started again. *)
Definition restartedCat : World := snd (alloc (JNote cat) restarted).

(** The program is started again after "cat" was added: the note [0:0] is in
    the store and not in the cache. *)
Definition catStored : World := reopened withCat.

(** The caller has made the object of the note "cat", at 0, on a new index. *)
Definition catObject : World := snd (alloc (JNote cat) fresh).

(** The array [[0, 0]], the key pair of the note "cat". *)
Definition catPair : PairObject.t :=
  {| PairObject.identity := 0; PairObject.pair := (0%Z, 0%Z) |}.

(** The argument of [saveProject] for a name made of blanks, with the
    normalizer "German". *)
Definition blank : SaveProject.t :=
  {| SaveProject.name := str "  "; SaveProject.description := None;
     SaveProject.normalizer := Some (str "German"); SaveProject.relations := None |}.

(** An ad hoc query for the notes that are exactly [phrase], which says
    nothing of [starred]. *)
Definition starredOrNot (phrase : jsstring) : AdHoc.t :=
  {| AdHoc.phrase := Some phrase; AdHoc.strictness := Some exact;
     AdHoc.project := None; AdHoc.starred := None;
     AdHoc.tagRequired := None; AdHoc.tagForbidden := None;
     AdHoc.url := None; AdHoc.before := None; AdHoc.after := None |}.

End Cases.

(** * Properties *)

Import Scenario.
Import Cases.

(** ** Running a computation *)

Lemma run_bind {A B} (m : M A) (k : A -> M B) w :
  (m ≫= k) w = match m w with
               | (Ok a, w1) => k a w1
               | (Throw e, w1) => (Throw e, w1)
               end.
Proof. reflexivity. Qed.

Lemma snd_promise {A} (m : M (Outcome A)) w : snd (promise m w) = snd (m w).
Proof. unfold promise. destruct (m w) as [[o|e] w1]; reflexivity. Qed.

(** ** Lists, white space and the characters below U+0100 *)

Lemma below_256 (P : N -> bool) :
  forallb P Latin1.chars = true -> forall c, c < 256 -> P c = true.
Proof.
  intros H c Hc. rewrite forallb_forall in H. apply H.
  unfold Latin1.chars. apply in_map_iff. exists (N.to_nat c).
  split; [lia | apply in_seq; lia].
Qed.

(* sublists *)
Lemma Forall_dropWhile {A} (P : A -> Prop) f l : Forall P l -> Forall P (dropWhile f l).
Proof.
  induction 1 as [|x l Hx Hl IH]; cbn; [constructor|].
  destruct (f x); [exact IH | constructor; assumption].
Qed.

Lemma Forall_dropWhileEnd {A} (P : A -> Prop) f l : Forall P l -> Forall P (dropWhileEnd f l).
Proof.
  induction 1 as [|x l Hx Hl IH]; cbn; [constructor|].
  destruct (dropWhileEnd f l) eqn:E.
  - destruct (f x); repeat constructor; assumption.
  - constructor; assumption.
Qed.

Lemma Forall_trim (P : N -> Prop) s : Forall P s -> Forall P (trim s).
Proof. intros. apply Forall_dropWhileEnd, Forall_dropWhile. assumption. Qed.

Lemma Forall_collapse_from (P : N -> Prop) b s :
  P 32 -> Forall P s -> Forall P (collapse_from b s).
Proof.
  intros H32 H. revert b. induction H as [|x l Hx Hl IH]; intros b; cbn; [constructor|].
  destruct (isSpace x); [destruct b|]; try constructor; auto.
Qed.

Lemma Forall_replaceChar (P : N -> Prop) c r s :
  Forall P r -> Forall P s -> Forall P (replaceChar c r s).
Proof.
  intros Hr H. unfold replaceChar. induction H as [|x l Hx Hl IH]; cbn; [constructor|].
  apply Forall_app. split; [|exact IH]. destruct (x =? c); [assumption | repeat constructor; assumption].
Qed.

(* per-character facts, each checked on the 256 characters *)
Lemma strip_decomp c :
  c < 256 -> List.filter (fun c => negb (isCombiningMark c)) (Latin1.decomp c) = [Latin1.base c].
Proof.
  intros Hc.
  apply (below_256 (fun c => bool_decide
     (List.filter (fun c => negb (isCombiningMark c)) (Latin1.decomp c) = [Latin1.base c]))) in Hc.
  - apply bool_decide_eq_true in Hc. exact Hc.
  - vm_compute. reflexivity.
Qed.

Lemma base_below c : c < 256 -> Latin1.base c < 256.
Proof.
  intros Hc. apply (below_256 (fun c => Latin1.base c <? 256)) in Hc; [apply N.ltb_lt; exact Hc | vm_compute; reflexivity].
Qed.

Lemma lower_below c : c < 256 -> Latin1.lower c < 256.
Proof.
  intros Hc. apply (below_256 (fun c => Latin1.lower c <? 256)) in Hc; [apply N.ltb_lt; exact Hc | vm_compute; reflexivity].
Qed.

Lemma lower_lower c : c < 256 -> Latin1.lower (Latin1.lower c) = Latin1.lower c.
Proof.
  intros Hc. apply (below_256 (fun c => Latin1.lower (Latin1.lower c) =? Latin1.lower c)) in Hc; [apply N.eqb_eq; exact Hc | vm_compute; reflexivity].
Qed.

(* what the default normalizer makes of a character it keeps *)
Lemma settled_lower_base c :
  c < 256 -> Latin1.wordChar (Latin1.base c) = true ->
  Latin1.settled (Latin1.lower (Latin1.base c)) = true.
Proof.
  intros Hc.
  apply (below_256 (fun c => implb (Latin1.wordChar (Latin1.base c))
                                   (Latin1.settled (Latin1.lower (Latin1.base c))))) in Hc.
  - intros H. rewrite H in Hc. exact Hc.
  - vm_compute. reflexivity.
Qed.

(* what the German normalizer makes of a lower-case character it keeps *)
Lemma settledGerman_base c :
  c < 256 -> Latin1.lower c = c ->
  c <> 223 -> c <> 228 -> c <> 246 -> c <> 252 ->
  Latin1.wordChar (Latin1.base c) = true ->
  Latin1.settledGerman (Latin1.base c) = true.
Proof.
  intros Hc.
  apply (below_256 (fun c => implb ((Latin1.lower c =? c)
       && negb ((c =? 223) || (c =? 228) || (c =? 246) || (c =? 252))
       && Latin1.wordChar (Latin1.base c))
       (Latin1.settledGerman (Latin1.base c)))) in Hc.
  - intros H1 H2 H3 H4 H5 H6. rewrite H6 in Hc.
    replace (Latin1.lower c =? c) with true in Hc by (symmetry; apply N.eqb_eq; assumption).
    replace (c =? 223) with false in Hc by (symmetry; apply N.eqb_neq; assumption).
    replace (c =? 228) with false in Hc by (symmetry; apply N.eqb_neq; assumption).
    replace (c =? 246) with false in Hc by (symmetry; apply N.eqb_neq; assumption).
    replace (c =? 252) with false in Hc by (symmetry; apply N.eqb_neq; assumption).
    exact Hc.
  - vm_compute. reflexivity.
Qed.

Lemma settled_spec c :
  Latin1.settled c = true ->
  c < 256 /\ Latin1.wordChar c = true /\ Latin1.lower c = c /\ Latin1.base c = c
  /\ (isSpace c = true -> c = 32).
Proof.
  unfold Latin1.settled. rewrite !andb_true_iff, orb_true_iff, negb_true_iff.
  intros [[[[H1 H2] H3] H4] H5].
  apply N.ltb_lt in H1. apply N.eqb_eq in H3, H4.
  repeat split; try assumption.
  intros Hs. destruct H5 as [H5|H5]; [congruence | apply N.eqb_eq; exact H5].
Qed.

(* white space *)
Lemma space_32 : isSpace 32 = true.
Proof. reflexivity. Qed.

Lemma not_space_not_32 c : isSpace c = false -> c <> 32.
Proof. intros H ->. discriminate. Qed.

Lemma collapse_from_shape b s :
  noDoubleSpace (collapse_from b s) = true
  /\ (b = true -> forall c r, collapse_from b s = c :: r -> c <> 32).
Proof.
  revert b. induction s as [|x s IH]; intros b; cbn.
  - split; [reflexivity | discriminate].
  - destruct (isSpace x) eqn:Hx.
    + destruct b.
      * apply IH.
      * destruct (IH true) as [IH1 IH2]. split; [|discriminate].
        cbn. destruct (collapse_from true s) as [|c r] eqn:E; [reflexivity|].
        rewrite IH1, andb_true_r. cbn. apply negb_true_iff.
        apply N.eqb_neq. exact (IH2 eq_refl c r eq_refl).
    + destruct (IH false) as [IH1 _]. split.
      * cbn. destruct (collapse_from false s) as [|c r] eqn:E; [reflexivity|].
        rewrite IH1, andb_true_r. apply negb_true_iff, andb_false_iff. left.
        apply N.eqb_neq, not_space_not_32, Hx.
      * intros _ c r [= <- _]. apply not_space_not_32, Hx.
Qed.

Lemma last_cons_cons {A} (x y : A) l : last (x :: y :: l) = last (y :: l).
Proof. reflexivity. Qed.

Lemma last_collapse_from b s c :
  last s = Some c -> isSpace c = false -> last (collapse_from b s) = Some c.
Proof.
  revert b. induction s as [|x s IH]; intros b Hl Hc; [discriminate|].
  destruct s as [|y s].
  - cbn in Hl. injection Hl as ->. cbn. rewrite Hc. reflexivity.
  - rewrite last_cons_cons in Hl.
    remember (y :: s) as t eqn:Et.
    assert (Hne : forall b', collapse_from b' t <> []).
    { intros b' E. specialize (IH b' Hl Hc). rewrite E in IH. discriminate. }
    cbn [collapse_from]. destruct (isSpace x); [destruct b|].
    + apply IH; assumption.
    + specialize (IH true Hl Hc). specialize (Hne true).
      destruct (collapse_from true t); [congruence | exact IH].
    + specialize (IH false Hl Hc). specialize (Hne false).
      destruct (collapse_from false t); [congruence | exact IH].
Qed.

Lemma dropWhile_head {A} (f : A -> bool) l c r : dropWhile f l = c :: r -> f c = false.
Proof.
  induction l as [|x l IH]; cbn; [discriminate|].
  destruct (f x) eqn:E; [exact IH | intros [= <- _]; exact E].
Qed.

Lemma dropWhileEnd_head {A} (f : A -> bool) l c r c' r' :
  l = c :: r -> dropWhileEnd f l = c' :: r' -> c' = c.
Proof.
  intros -> . cbn. destruct (dropWhileEnd f r); [destruct (f c)|]; congruence.
Qed.

Lemma dropWhileEnd_last {A} (f : A -> bool) l c :
  last (dropWhileEnd f l) = Some c -> f c = false.
Proof.
  induction l as [|x l IH]; cbn; [discriminate|].
  destruct (dropWhileEnd f l) as [|y r] eqn:E.
  - destruct (f x) eqn:Hx; cbn; [discriminate | intros [= <-]; exact Hx].
  - intros H. apply IH. exact H.
Qed.

Lemma dropWhileEnd_id {A} (f : A -> bool) l :
  (forall c, last l = Some c -> f c = false) -> dropWhileEnd f l = l.
Proof.
  induction l as [|x l IH]; intros H; cbn; [reflexivity|].
  destruct l as [|y l].
  - cbn. rewrite (H x eq_refl). reflexivity.
  - rewrite IH by (intros c Hc; apply H; exact Hc). reflexivity.
Qed.

Lemma wellSpaced_collapse_trim s : wellSpaced (collapse (trim s)) = true.
Proof.
  unfold wellSpaced, collapse. rewrite !andb_true_iff, !negb_true_iff. repeat split.
  - unfold trim. destruct (dropWhileEnd isSpace (dropWhile isSpace s)) as [|c r] eqn:E; [reflexivity|].
    destruct (dropWhile isSpace s) as [|c0 r0] eqn:E0; [discriminate|].
    pose proof (dropWhileEnd_head _ _ _ _ _ _ eq_refl E) as ->.
    apply dropWhile_head in E0. cbn. rewrite E0. apply N.eqb_neq, not_space_not_32, E0.
  - destruct (last (collapse_from false (trim s))) as [c|] eqn:E; [|reflexivity].
    destruct (last (trim s)) as [c'|] eqn:E'.
    + pose proof (dropWhileEnd_last _ _ _ E') as Hc'.
      rewrite (last_collapse_from false _ _ E' Hc') in E. injection E as <-.
      apply N.eqb_neq, not_space_not_32, Hc'.
    + apply last_None in E'. rewrite E' in E. discriminate.
  - apply collapse_from_shape.
Qed.

Lemma collapse_from_id b s :
  spaceIs32 s -> noDoubleSpace s = true ->
  (b = true -> forall c r, s = c :: r -> c <> 32) ->
  collapse_from b s = s.
Proof.
  intros HS. revert b. induction HS as [|x s Hx HS IH]; intros b Hd Hb; [reflexivity|].
  cbn [collapse_from]. 
  assert (Hd' : noDoubleSpace s = true).
  { cbn in Hd. destruct s; [reflexivity|]. apply andb_true_iff in Hd. apply Hd. }
  destruct (isSpace x) eqn:E.
  - pose proof (Hx eq_refl) as ->. destruct b; [exfalso; exact (Hb eq_refl _ _ eq_refl eq_refl)|].
    f_equal. apply IH; [exact Hd'|]. intros _ c r ->.
    cbn in Hd. apply andb_true_iff in Hd. destruct Hd as [Hd _].
    apply negb_true_iff in Hd. cbn in Hd. apply N.eqb_neq. exact Hd.
  - f_equal. apply IH; [exact Hd' | discriminate].
Qed.

Lemma collapse_trim_id s :
  spaceIs32 s -> wellSpaced s = true -> collapse (trim s) = s.
Proof.
  intros HS Hw. unfold wellSpaced in Hw.
  rewrite !andb_true_iff, !negb_true_iff in Hw. destruct Hw as [[Hh Hl] Hd].
  assert (Ht : trim s = s).
  { unfold trim.
    assert (E : dropWhile isSpace s = s).
    { destruct s as [|c r]; [reflexivity|]. cbn.
      destruct (isSpace c) eqn:Ec; [|reflexivity].
      inversion HS as [|? ? Hc _]; subst. rewrite (Hc Ec) in Hh. discriminate. }
    rewrite E. apply dropWhileEnd_id. intros c Hc. rewrite Hc in Hl.
    destruct (isSpace c) eqn:Ec; [|reflexivity].
    assert (Hin : c ∈ s) by (apply last_Some_elem_of; exact Hc).
    unfold spaceIs32 in HS. rewrite Forall_forall in HS.
    rewrite (HS c Hin Ec) in Hl. discriminate. }
  rewrite Ht. apply collapse_from_id; [exact HS | exact Hd | discriminate].
Qed.

(* lists *)
Lemma filter_all {A} (f : A -> bool) l :
  Forall (fun c => f c = true) l -> List.filter f l = l.
Proof. induction 1 as [|x l Hx _ IH]; cbn; [reflexivity|]. rewrite Hx, IH. reflexivity. Qed.

Lemma map_fixed {A} (f : A -> A) l :
  Forall (fun c => f c = c) l -> List.map f l = l.
Proof. induction 1 as [|x l Hx _ IH]; cbn; [reflexivity|]. rewrite Hx, IH. reflexivity. Qed.

Lemma filter_agree {A} (P : A -> Prop) (f g : A -> bool) l :
  (forall c, P c -> f c = g c) -> Forall P l -> List.filter f l = List.filter g l.
Proof.
  intros H. induction 1 as [|x l Hx _ IH]; cbn; [reflexivity|].
  rewrite (H x Hx), IH. reflexivity.
Qed.

Lemma replaceChar_absent c r s :
  Forall (fun x => x <> c) s -> replaceChar c r s = s.
Proof.
  unfold replaceChar. induction 1 as [|x l Hx _ IH]; cbn; [reflexivity|].
  apply N.eqb_neq in Hx. rewrite Hx, IH. reflexivity.
Qed.

Lemma strip_flat_map_decomp s :
  Latin1.inRange s ->
  List.filter (fun c => negb (isCombiningMark c)) (flat_map Latin1.decomp s)
  = List.map Latin1.base s.
Proof.
  induction 1 as [|x l Hx _ IH]; cbn; [reflexivity|].
  rewrite List.filter_app, IH, (strip_decomp x Hx). reflexivity.
Qed.

Section Host.
Context {U : Unicode} (host : Latin1Host U).

Lemma stripDiacrics_latin1 s :
  Latin1.inRange s -> stripDiacrics s = List.map Latin1.base s.
Proof.
  intros H. unfold stripDiacrics. rewrite (nfd_latin1 U host s H).
  apply strip_flat_map_decomp, H.
Qed.

Lemma stripNonWord_latin1 s :
  Latin1.inRange s -> stripNonWord s = List.filter Latin1.wordChar s.
Proof.
  intros H. unfold stripNonWord. apply (filter_agree (fun c => c < 256)); [|exact H].
  intros c Hc. unfold isWordChar, Latin1.wordChar.
  rewrite (letter_latin1 U host c Hc), (number_latin1 U host c Hc). reflexivity.
Qed.

Lemma inRange_map_base s : Latin1.inRange s -> Latin1.inRange (List.map Latin1.base s).
Proof. intros H. apply Forall_map. eapply Forall_impl; [exact H|]. intros c. apply base_below. Qed.

Lemma inRange_map_lower s : Latin1.inRange s -> Latin1.inRange (List.map Latin1.lower s).
Proof. intros H. apply Forall_map. eapply Forall_impl; [exact H|]. intros c. apply lower_below. Qed.

Lemma inRange_filter f s : Latin1.inRange s -> Latin1.inRange (List.filter f s).
Proof.
  induction 1 as [|x l Hx _ IH]; cbn; [constructor|].
  destruct (f x); [constructor|]; assumption.
Qed.

Lemma inRange_collapse_trim s : Latin1.inRange s -> Latin1.inRange (collapse (trim s)).
Proof.
  intros H. apply Forall_collapse_from; [reflexivity|]. apply Forall_trim, H.
Qed.

(* the default normalizer on a phrase below U+0100 *)
Lemma default_latin1 p :
  Latin1.inRange p ->
  Normalizer.code normalizer_default p = Latin1.normalizeDefault p.
Proof.
  intros H. unfold Latin1.normalizeDefault. cbn [Normalizer.code normalizer_default].
  pose proof (inRange_collapse_trim p H) as H1.
  rewrite (stripDiacrics_latin1 _ H1).
  rewrite (stripNonWord_latin1 _ (inRange_map_base _ H1)).
  apply (lower_latin1 U host), inRange_filter, inRange_map_base, H1.
Qed.

Lemma Forall_germanLetters (P : N -> Prop) s :
  P 115 -> P 97 -> P 101 -> P 111 -> P 117 -> Forall P s -> Forall P (germanLetters s).
Proof.
  intros. unfold germanLetters.
  repeat (apply Forall_replaceChar; [repeat constructor; assumption|]). assumption.
Qed.

(* the German normalizer on a phrase below U+0100 *)
Lemma German_latin1 p :
  Latin1.inRange p ->
  Normalizer.code normalizer_German p = Latin1.normalizeGerman p.
Proof.
  intros H. unfold Latin1.normalizeGerman. cbn [Normalizer.code normalizer_German].
  pose proof (inRange_collapse_trim p H) as H1.
  rewrite (locale_lower_latin1 U host _ H1).
  fold (germanLetters (List.map Latin1.lower (collapse (trim p)))).
  assert (H2 : Latin1.inRange (germanLetters (List.map Latin1.lower (collapse (trim p))))).
  { apply Forall_germanLetters; try reflexivity. apply inRange_map_lower, H1. }
  rewrite (stripDiacrics_latin1 _ H2).
  apply stripNonWord_latin1, inRange_map_base, H2.
Qed.

End Host.

Lemma Forall_filter_map {A B} (P : A -> Prop) (Q : B -> Prop) (g : A -> B) (f : B -> bool) l :
  (forall x, P x -> f (g x) = true -> Q (g x)) ->
  Forall P l -> Forall Q (List.filter f (List.map g l)).
Proof.
  intros H. induction 1 as [|x l Hx _ IH]; cbn; [constructor|].
  destruct (f (g x)) eqn:E; [constructor; auto | exact IH].
Qed.

Lemma settled_32 : Latin1.settled 32 = true.
Proof. reflexivity. Qed.

Lemma settledGerman_32 : Latin1.settledGerman 32 = true.
Proof. reflexivity. Qed.

Lemma settledGerman_spec c :
  Latin1.settledGerman c = true ->
  Latin1.settled c = true /\ c <> 223 /\ c <> 228 /\ c <> 246 /\ c <> 252.
Proof.
  unfold Latin1.settledGerman. rewrite andb_true_iff, negb_true_iff, !orb_false_iff.
  intros [H [[[H1 H2] H3] H4]]. apply N.eqb_neq in H1, H2, H3, H4. auto.
Qed.

Lemma settled_spaceIs32 q :
  Forall (fun c => Latin1.settled c = true) q -> spaceIs32 q.
Proof. intros H. eapply Forall_impl; [exact H|]. intros c Hc. apply settled_spec, Hc. Qed.

Lemma settled_inRange q :
  Forall (fun c => Latin1.settled c = true) q -> Latin1.inRange q.
Proof. intros H. eapply Forall_impl; [exact H|]. intros c Hc. apply settled_spec, Hc. Qed.

Lemma normalizeDefault_settled p :
  Latin1.inRange p -> Forall (fun c => Latin1.settled c = true) (Latin1.normalizeDefault p).
Proof.
  intros H. unfold Latin1.normalizeDefault. apply Forall_map.
  apply (Forall_filter_map (fun c => c < 256)).
  - intros x Hx Hw. apply settled_lower_base; assumption.
  - apply inRange_collapse_trim, H.
Qed.

Lemma normalizeDefault_of_settled q :
  Forall (fun c => Latin1.settled c = true) q -> Latin1.normalizeDefault q = collapse (trim q).
Proof.
  intros H. unfold Latin1.normalizeDefault.
  assert (H1 : Forall (fun c => Latin1.settled c = true) (collapse (trim q))).
  { apply Forall_collapse_from; [reflexivity | apply Forall_trim, H]. }
  rewrite (map_fixed Latin1.base), (filter_all Latin1.wordChar), (map_fixed Latin1.lower);
    [reflexivity | ..]; (eapply Forall_impl; [exact H1|]); intros c Hc; apply settled_spec, Hc.
Qed.

Lemma Forall_replaceChar_gone (P : N -> Prop) c r s :
  Forall (fun y => P y /\ y <> c) r -> Forall P s ->
  Forall (fun y => P y /\ y <> c) (replaceChar c r s).
Proof.
  intros Hr H. unfold replaceChar. induction H as [|x l Hx _ IH]; cbn; [constructor|].
  apply Forall_app. split; [|exact IH]. destruct (x =? c) eqn:E; [exact Hr|].
  apply N.eqb_neq in E. repeat constructor; assumption.
Qed.

Lemma germanLetters_lower s :
  Latin1.inRange s ->
  Forall (fun y => y < 256 /\ Latin1.lower y = y
                   /\ y <> 223 /\ y <> 228 /\ y <> 246 /\ y <> 252)
         (germanLetters (List.map Latin1.lower s)).
Proof.
  intros H. unfold germanLetters.
  eapply Forall_impl.
  - apply (Forall_replaceChar_gone
             (fun y => ((((y < 256 /\ Latin1.lower y = y) /\ y <> 223) /\ y <> 228) /\ y <> 246))).
    { repeat constructor; cbn; lia. }
    apply (Forall_replaceChar_gone
             (fun y => (((y < 256 /\ Latin1.lower y = y) /\ y <> 223) /\ y <> 228))).
    { repeat constructor; cbn; lia. }
    apply (Forall_replaceChar_gone
             (fun y => ((y < 256 /\ Latin1.lower y = y) /\ y <> 223))).
    { repeat constructor; cbn; lia. }
    apply (Forall_replaceChar_gone (fun y => (y < 256 /\ Latin1.lower y = y))).
    { repeat constructor; cbn; lia. }
    apply Forall_map. eapply Forall_impl; [exact H|].
    intros c Hc. split; [apply lower_below, Hc | apply lower_lower, Hc].
  - cbn. intros y. tauto.
Qed.

Lemma normalizeGerman_settled p :
  Latin1.inRange p -> Forall (fun c => Latin1.settledGerman c = true) (Latin1.normalizeGerman p).
Proof.
  intros H. unfold Latin1.normalizeGerman.
  eapply Forall_filter_map; [|apply germanLetters_lower, inRange_collapse_trim, H].
  cbn. intros y (H1 & H2 & H3 & H4 & H5 & H6) Hw. apply settledGerman_base; assumption.
Qed.

Lemma normalizeGerman_of_settled q :
  Forall (fun c => Latin1.settledGerman c = true) q -> Latin1.normalizeGerman q = collapse (trim q).
Proof.
  intros H. unfold Latin1.normalizeGerman.
  assert (H1 : Forall (fun c => Latin1.settledGerman c = true) (collapse (trim q))).
  { apply Forall_collapse_from; [reflexivity | apply Forall_trim, H]. }
  assert (H2 : Forall (fun c => Latin1.settled c = true) (collapse (trim q))).
  { eapply Forall_impl; [exact H1|]. intros c Hc. apply settledGerman_spec, Hc. }
  rewrite (map_fixed Latin1.lower)
    by (eapply Forall_impl; [exact H2|]; intros c Hc; apply settled_spec, Hc).
  unfold germanLetters.
  rewrite (replaceChar_absent 223), (replaceChar_absent 228),
          (replaceChar_absent 246), (replaceChar_absent 252);
    try (eapply Forall_impl; [exact H1|]; intros c Hc; apply settledGerman_spec, Hc).
  rewrite (map_fixed Latin1.base), (filter_all Latin1.wordChar);
    [reflexivity | ..]; (eapply Forall_impl; [exact H2|]); intros c Hc; apply settled_spec, Hc.
Qed.

(* A result of normalizing is normalized again by trimming and collapsing. *)
Lemma fixed_iff_wellSpaced q :
  spaceIs32 q -> (collapse (trim q) = q <-> wellSpaced q = true).
Proof.
  intros HS. split.
  - intros <-. apply wellSpaced_collapse_trim.
  - apply collapse_trim_id, HS.
Qed.

Lemma ucd_latin1_host : Latin1Host ucd_latin1.
Proof.
  split; try reflexivity; intros c Hc; cbn; apply N.ltb_lt in Hc; rewrite Hc;
    reflexivity.
Qed.

Lemma inRange_Uber : Latin1.inRange Uber.
Proof. repeat constructor. Qed.

Lemma inRange_uber : Latin1.inRange uber.
Proof. repeat constructor. Qed.

(** ** [normalize] and the registry *)

(** [normalize] applies what the registry has under the normalizer of the
    project. *)
Lemma normalize_by_registry {U : Unicode} (phrase : jsstring)
    (project : ProjectIdentifier) (info : ProjectInfo) (i : Index) :
  match project with
  | ByInfo r => r = info
  | _ => snd (findProject project i) = Some info
  end ->
  normalize phrase project i
  = match normalizers (Project.normalizer info) with
    | Some n => Ok (Normalizer.code n phrase)
    | None => Throw TypeError
    end.
Proof.
  intros Hinfo. unfold normalize.
  destruct project; [rewrite Hinfo .. | subst]; reflexivity.
Qed.

(** C10. [normalize] returns a string for a project whose normalizer is ""
    or "German", and throws a [TypeError] for a project with any other
    normalizer: it does not fall back to the default one.  The project is
    [info], given as it is or found by its name or its primary key. *)
Theorem normalize_only_for_registered_normalizers {U : Unicode}
    (phrase : jsstring) (project : ProjectIdentifier) (info : ProjectInfo)
    (i : Index) :
  match project with
  | ByInfo r => r = info
  | _ => snd (findProject project i) = Some info
  end ->
  (Project.normalizer info = [] \/ Project.normalizer info = str "German" ->
   exists s, normalize phrase project i = Ok s)
  /\ (Project.normalizer info <> [] ->
      Project.normalizer info <> str "German" ->
      normalize phrase project i = Throw TypeError).
Proof.
  intros Hinfo. rewrite (normalize_by_registry phrase project info i Hinfo).
  unfold normalizers, jsstring_eqb. split.
  - intros [-> | ->]; eexists; reflexivity.
  - intros H1 H2. rewrite !bool_decide_eq_false_2 by assumption. reflexivity.
Qed.

(** C10, for "Über" in the project "German" and in a project whose
    normalizer is "French". *)
Lemma normalize_only_for_registered_normalizers_witness :
  (exists s, normalize Uber (ByPk 1) (index withGerman) = Ok s)
  /\ normalize Uber (ByInfo frenchInfo) (index fresh) = Throw TypeError.
Proof.
  split.
  - apply (normalize_only_for_registered_normalizers Uber (ByPk 1) germanInfo
             (index withGerman)); [reflexivity | right; reflexivity].
  - apply (normalize_only_for_registered_normalizers Uber (ByInfo frenchInfo)
             frenchInfo (index fresh)); [reflexivity | discriminate | discriminate].
Defined.

(** ** Normalizing twice *)

Section Idempotence.
Context {U : Unicode} (host : Latin1Host U).

Lemma settledGerman_settled q :
  Forall (fun c => Latin1.settledGerman c = true) q ->
  Forall (fun c => Latin1.settled c = true) q.
Proof. intros H. eapply Forall_impl; [exact H|]. intros c Hc. apply settledGerman_spec, Hc. Qed.

(** A phrase that the default normalizer has made is normalized by trimming
    and collapsing it. *)
Lemma default_again p :
  Latin1.inRange p ->
  spaceIs32 (Normalizer.code normalizer_default p)
  /\ Normalizer.code normalizer_default (Normalizer.code normalizer_default p)
     = collapse (trim (Normalizer.code normalizer_default p)).
Proof.
  intros H. rewrite (default_latin1 host p H).
  pose proof (normalizeDefault_settled p H) as Hs.
  split; [apply settled_spaceIs32, Hs|].
  rewrite (default_latin1 host _ (settled_inRange _ Hs)).
  apply normalizeDefault_of_settled, Hs.
Qed.

(** The same for the German normalizer. *)
Lemma German_again p :
  Latin1.inRange p ->
  spaceIs32 (Normalizer.code normalizer_German p)
  /\ Normalizer.code normalizer_German (Normalizer.code normalizer_German p)
     = collapse (trim (Normalizer.code normalizer_German p)).
Proof.
  intros H. rewrite (German_latin1 host p H).
  pose proof (normalizeGerman_settled p H) as Hs.
  pose proof (settledGerman_settled _ Hs) as Hs'.
  split; [apply settled_spaceIs32, Hs'|].
  rewrite (German_latin1 host _ (settled_inRange _ Hs')).
  apply normalizeGerman_of_settled, Hs.
Qed.

(** C8, as amended.  For a phrase [p] of characters below U+0100 and a
    project with the default or the German normalizer, normalizing
    [normalize(p)] again gives [normalize(p)] exactly when [normalize(p)]
    has no space at either end and no two spaces in a row. *)
Theorem normalize_idempotent_iff_wellSpaced
    (p q : jsstring) (project : ProjectIdentifier) (info : ProjectInfo) (i : Index) :
  match project with
  | ByInfo r => r = info
  | _ => snd (findProject project i) = Some info
  end ->
  Project.normalizer info = [] \/ Project.normalizer info = str "German" ->
  Latin1.inRange p ->
  normalize p project i = Ok q ->
  (normalize q project i = Ok q <-> wellSpaced q = true).
Proof.
  intros Hinfo Hreg Hp Hq.
  rewrite (normalize_by_registry p project info i Hinfo) in Hq.
  rewrite (normalize_by_registry q project info i Hinfo).
  destruct Hreg as [E|E]; rewrite E in Hq |- *.
  - change (normalizers []) with (Some normalizer_default) in Hq |- *.
    cbv beta iota in Hq |- *.
    assert (Hq' : Normalizer.code normalizer_default p = q)
      by (injection Hq; intros H; exact H).
    clear Hq. subst q. destruct (default_again p Hp) as [HS Hc]. rewrite Hc.
    rewrite <- (fixed_iff_wellSpaced _ HS). split; [intros [= H]; exact H | intros ->; reflexivity].
  - change (normalizers (str "German")) with (Some normalizer_German) in Hq |- *.
    cbv beta iota in Hq |- *.
    assert (Hq' : Normalizer.code normalizer_German p = q)
      by (injection Hq; intros H; exact H).
    clear Hq. subst q. destruct (German_again p Hp) as [HS Hc]. rewrite Hc.
    rewrite <- (fixed_iff_wellSpaced _ HS). split; [intros [= H]; exact H | intros ->; reflexivity].
Qed.

End Idempotence.

(** C8, for "Über" in the project "German": "ueber" is well spaced, and
    normalizing it gives "ueber". *)
Lemma normalize_idempotent_iff_wellSpaced_witness :
  normalize (str "ueber") (ByPk 1) (index withGerman) = Ok (str "ueber")
  <-> wellSpaced (str "ueber") = true.
Proof.
  apply (normalize_idempotent_iff_wellSpaced ucd_latin1_host Uber (str "ueber")
           (ByPk 1) germanInfo (index withGerman));
    [reflexivity | right; reflexivity | exact inRange_Uber | reflexivity].
Defined.

(** C8, as it is stated, fails: in the default project "a ! b" is normalized
    to "a  b", with two spaces, and "a  b" to "a b". *)
Lemma normalize_twice_differs :
  exists q,
    normalize (str "a ! b") (ByInfo makeDefaultProject) (index fresh) = Ok q
    /\ normalize q (ByInfo makeDefaultProject) (index fresh) <> Ok q.
Proof. exists (str "a  b"). split; [reflexivity | discriminate]. Qed.

(** ** Numbers *)

Section Doubles.
Local Open Scope Z_scope.

Lemma ulp_pos z : 0 < Double.ulp z.
Proof. unfold Double.ulp. apply Z.pow_pos_nonneg; lia. Qed.


(** The integers that are doubles are the multiples of the distance between
    the doubles of their size. *)
Lemma round_fixed z : Double.round z = z <-> (Double.ulp z | z).
Proof.
  pose proof (ulp_pos z) as Hu.
  rewrite <- Z.mod_divide by lia.
  unfold Double.round. cbv zeta.
  pose proof (Z.div_mod z (Double.ulp z) ltac:(lia)) as Hz.
  pose proof (Z.mod_pos_bound z (Double.ulp z) Hu) as Hr.
  set (u := Double.ulp z) in *. set (q := z / u) in *. set (r := z mod u) in *.
  split.
  - destruct (2 * r <? u); [nia|]. destruct (u <? 2 * r); [nia|].
    destruct (Z.even q); nia.
  - intros E. rewrite E in *. destruct (Z.ltb_spec (2 * 0) u); lia.
Qed.

Lemma ulp_small z : Z.abs z < 2 ^ 53 -> Double.ulp z = 1.
Proof.
  intros H. unfold Double.ulp.
  assert (Z.log2 (Z.abs z) < 53).
  { destruct (Z.eq_dec (Z.abs z) 0) as [->|Hne]; [reflexivity|].
    apply Z.log2_lt_pow2; lia. }
  rewrite Z.max_l by lia. reflexivity.
Qed.


(** Up to 2^53 every integer is a double. *)
Lemma round_exact z : Z.abs z <= 2 ^ 53 -> Double.round z = z.
Proof.
  intros H. apply round_fixed.
  destruct (Z.eq_dec (Z.abs z) (2 ^ 53)) as [E|Hne].
  - unfold Double.ulp. rewrite E. change (2 ^ Z.max 0 (Z.log2 (2 ^ 53) - 52)) with 2.
    exists (z / 2). destruct z as [|p|p]; cbn in E; [discriminate| |];
      injection E as ->; reflexivity.
  - rewrite ulp_small by lia. apply Z.divide_1_l.
Qed.


End Doubles.

(** ** [memfree] *)




(** ** [reverseRelation] *)

Lemma uint_digits_digit d : Forall Latin1.digit (uint_digits d).
Proof. induction d; cbn; constructor; try assumption; unfold Latin1.digit; lia. Qed.

Lemma toString_digit k : Forall Latin1.digit (toString (Z.of_nat k)).
Proof.
  destruct (Z.of_nat k) eqn:E; cbn.
  - repeat constructor; unfold Latin1.digit; lia.
  - apply uint_digits_digit.
  - lia.
Qed.

Lemma toString_small k : (k < 10)%nat -> toString (Z.of_nat k) = [48 + N.of_nat k].
Proof.
  intros H. do 10 (destruct k as [|k]; [reflexivity|]). lia.
Qed.

Lemma loop_single relation names rest :
  Forall (fun s : jsstring => exists c, s = [c]) names ->
  reverseRelation_loop relation (names ++ rest) = RevUndefined
  \/ (reverseRelation_loop relation (names ++ rest) = reverseRelation_loop relation rest
      /\ Forall (fun s => s <> relation) names).
Proof.
  induction 1 as [|s names [c ->] _ IH]; cbn [app reverseRelation_loop].
  - right. split; [reflexivity | constructor].
  - unfold charAt. cbn. case_bool_decide as E; [left; reflexivity|].
    rewrite bool_decide_eq_false_2 by discriminate.
    destruct IH as [IH|[IH1 IH2]]; [left; exact IH | right].
    split; [exact IH1|]. constructor; [|exact IH2]. intros Heq. apply E. rewrite Heq. reflexivity.
Qed.

Lemma loop_digits relation names :
  (forall c, relation = [c] -> ~ Latin1.digit c) ->
  Forall (Forall Latin1.digit) names ->
  reverseRelation_loop relation names = RevNull.
Proof.
  intros Hr. induction 1 as [|s names Hs _ IH]; cbn [reverseRelation_loop]; [reflexivity|].
  rewrite !bool_decide_eq_false_2; [exact IH | |].
  - unfold charAt. destruct s as [|a [|b s]]; cbn; try discriminate.
    intros [= <-]. inversion Hs as [|? ? _ Hs']; subst. inversion Hs' as [|? ? Hb _]; subst.
    exact (Hr b eq_refl Hb).
  - unfold charAt. destruct s as [|a s]; cbn; try discriminate.
    intros [= <-]. inversion Hs as [|? ? Ha _]; subst. exact (Hr a eq_refl Ha).
Qed.

Lemma loop_forIn {A} relation (array : list A) s :
  reverseRelation_loop relation (forIn array) <> RevString s.
Proof.
  unfold forIn. set (f := fun n => toString (Z.of_nat n)). 
  set (n := length array).
  assert (Hsplit : seq 0 n = seq 0 (Nat.min n 10) ++ seq (Nat.min n 10) (n - Nat.min n 10)).
  { rewrite <- seq_app. f_equal. lia. }
  rewrite Hsplit, map_app.
  destruct (loop_single relation (List.map f (seq 0 (Nat.min n 10)))
                        (List.map f (seq (Nat.min n 10) (n - Nat.min n 10)))) as [E|[E Hne]].
  - apply Forall_map, Forall_forall. intros k Hk. apply list_elem_of_In, in_seq in Hk.
    exists (48 + N.of_nat k). apply toString_small. lia.
  - rewrite E. discriminate.
  - rewrite E. destruct (Nat.le_gt_cases n 10) as [Hn|Hn].
    + replace (n - Nat.min n 10)%nat with 0%nat by lia. discriminate.
    + rewrite loop_digits; [discriminate | |].
      * intros c -> [Hc1 Hc2].
        rewrite Forall_forall in Hne.
        apply (Hne [c]); [|reflexivity].
        apply list_elem_of_In, in_map_iff. exists (N.to_nat (c - 48)). split.
        -- unfold f. rewrite toString_small by lia. f_equal. lia.
        -- apply in_seq. lia.
      * apply Forall_map, Forall_forall. intros k _. apply toString_digit.
Qed.

(** Whatever the project and the relation, [reverseRelation] does not answer
    with a relation: the characters it compares the relation with and hands
    back are those of the indices of the array of pairs, and an index of
    two digits comes after the indices that are its digits. *)
Theorem reverseRelation_never_a_relation {U : Unicode} project relation i s :
  reverseRelation project relation i <> Ok (RevString s).
Proof.
  unfold reverseRelation. destruct (snd (findProject project i)); [|discriminate].
  intros [= H]. exact (loop_forIn _ _ _ H).
Qed.

(** C2, as the code has it: for the default project, whose one pair of
    relations is ("see also", "see also"), [reverseRelation] answers [null]
    to "see also".  The loop goes through the indices of the array of pairs
    ("0", "1", ...), not through the pairs. *)
Theorem reverseRelation_of_see_also_is_null :
  In (str "see also", str "see also") (Project.relations makeDefaultProject)
  /\ reverseRelation (ByInfo makeDefaultProject) (str "see also") (index fresh)
     = Ok RevNull.
Proof. split; [left; reflexivity | reflexivity]. Qed.

(** ** What a computation leaves as it is *)

Lemma keeps_ret {A} (a : A) : keeps (ret a).
Proof. intros w. reflexivity. Qed.

Lemma keeps_mret {A} (a : A) : keeps (mret a : M A).
Proof. intros w. reflexivity. Qed.

Lemma keeps_throw {A} e : keeps (throw e : M A).
Proof. intros w. reflexivity. Qed.

Lemma keeps_bind {A B} (m : M A) (k : A -> M B) :
  keeps m -> (forall a, keeps (k a)) -> keeps (m ≫= k).
Proof.
  intros Hm Hk w. unfold mbind, M_bind, bind.
  specialize (Hm w). destruct (m w) as [[a|e] w1]; cbn in *.
  - rewrite (Hk a w1). exact Hm.
  - exact Hm.
Qed.

Lemma keeps_this : keeps this.
Proof. intros w. reflexivity. Qed.

Lemma keeps_reading {A} (f : Index -> Result A) : keeps (reading f).
Proof. intros w. reflexivity. Qed.

Lemma keeps_defined {A} (o : option A) : keeps (defined o).
Proof. destruct o; intros w; reflexivity. Qed.

Lemma keeps_readObj l : keeps (readObj l).
Proof. intros w. unfold readObj. destruct (heap w !! l); reflexivity. Qed.

Lemma keeps_writeObj l j : keeps (writeObj l j).
Proof. intros w. reflexivity. Qed.

Lemma keeps_alloc j : keeps (alloc j).
Proof. intros w. reflexivity. Qed.

Lemma keeps_noteAt l : keeps (noteAt l).
Proof. apply keeps_bind; [apply keeps_readObj | intros; apply keeps_defined]. Qed.

Lemma keeps_withTags f : keeps (update (fun i => withTags (f i) i)).
Proof. intros w. reflexivity. Qed.

Lemma keeps_calling {A} (op : Chrome -> Reply A * Chrome) : keeps (calling op).
Proof. intros w. unfold calling. destruct (op _). reflexivity. Qed.

Lemma keeps_storageSet s : keeps (storageSet s).
Proof. intros w. unfold storageSet. apply keeps_calling. Qed.

Lemma keeps_callback {A} (m : M (Outcome A)) : keeps m -> keeps (callback m).
Proof.
  intros H w. unfold callback. specialize (H w). destruct (m w) as [[o|e] w1]; exact H.
Qed.

Lemma keeps_foldM {A B} (f : B -> A -> M B) l b :
  (forall b a, keeps (f b a)) -> keeps (foldM f l b).
Proof.
  intros H. revert b. induction l as [|x l IH]; intros b; cbn.
  - apply keeps_ret.
  - apply keeps_bind; [apply H | intros; apply IH].
Qed.

Section Keeps.
Context {U : Unicode}.
Lemma keeps_add_mirror info relation keyPair p acc :
  keeps (add_mirror info relation keyPair p acc).
Proof.
  unfold add_mirror. destruct acc as [rev storable].
  apply keeps_bind; [apply keeps_this|]. intros i.
  destruct (JsMap.get (pairKey p) (cache i)) as [[other|]|]; try apply keeps_ret.
  apply keeps_bind.
  { destruct (truthy rev); [apply keeps_ret|].
    apply keeps_bind; [apply keeps_reading | intros; apply keeps_ret]. }
  intros rev'. apply keeps_bind; [apply keeps_noteAt|]. intros o.
  destruct (JsMap.get rev' (Note.relations o)); [|apply keeps_ret].
  destruct (bool_decide _); [apply keeps_ret|].
  apply keeps_bind; [apply keeps_writeObj | intros; apply keeps_ret].
Qed.

Lemma keeps_add_pairs fuel n data info relation keyPair acc :
  keeps (add_pairs fuel n data info relation keyPair acc).
Proof.
  revert n acc. induction fuel as [|fuel IH]; intros n acc; cbn; [apply keeps_ret|].
  apply keeps_bind; [apply keeps_noteAt|]. intros d.
  destruct (_ ≫= _); [|apply keeps_ret].
  apply keeps_bind; [apply keeps_add_mirror | intros; apply IH].
Qed.
End Keeps.


Ltac keeps_step :=
  first
    [ apply keeps_ret | apply keeps_mret | apply keeps_this | apply keeps_noteAt
    | apply keeps_withTags | apply keeps_storageSet | apply keeps_add_pairs
    | apply keeps_callback
    | apply keeps_foldM; intros
    | apply keeps_bind; [|intros] ].

Lemma keeps_filterM {A} (f : A -> M bool) l :
  (forall a, keeps (f a)) -> keeps (filterM f l).
Proof.
  intros H. induction l as [|x l IH]; cbn.
  - apply keeps_ret.
  - apply keeps_bind; [apply H|]. intros b.
    apply keeps_bind; [apply IH | intros; apply keeps_ret].
Qed.

Lemma keeps_storageGet keys : keeps (storageGet keys).
Proof. apply keeps_calling. Qed.

Ltac keeps_tac :=
  repeat first
    [ keeps_step
    | apply keeps_reading | apply keeps_storageGet | apply keeps_alloc
    | apply keeps_readObj | apply keeps_throw | apply keeps_defined
    | apply keeps_filterM; intros
    | match goal with
      | |- keeps (match ?x with _ => _ end) => destruct x
      | |- keeps (if ?b then _ else _) => destruct b
      end ].

Lemma namedPost_weaken {A} (Q R : A -> Prop) m :
  (forall a, Q a -> R a) -> namedPost Q m -> namedPost R m.
Proof. intros H Hm w. destruct (Hm w) as [H1 H2]. split; [exact H1 | intros a Ha; auto]. Qed.

Lemma namedPost_ret {A} (Q : A -> Prop) a : Q a -> namedPost Q (ret a).
Proof. intros H w. split; [reflexivity | intros a' [= <-]; exact H]. Qed.

Lemma namedPost_mret {A} (Q : A -> Prop) a : Q a -> namedPost Q (mret a : M A).
Proof. apply namedPost_ret. Qed.

Lemma namedPost_bind {A B} (Q : A -> Prop) (R : B -> Prop) (m : M A) (k : A -> M B) :
  namedPost Q m -> (forall a, Q a -> namedPost R (k a)) -> namedPost R (m ≫= k).
Proof.
  intros Hm Hk w. unfold mbind, M_bind, bind.
  destruct (Hm w) as [H1 H2]. destruct (m w) as [[a|e] w1]; cbn in *.
  - destruct (Hk a (H2 a eq_refl) w1) as [H3 H4]. split.
    + intros l r Hr. rewrite (H3 l r Hr). apply H1, Hr.
    + exact H4.
  - split; [exact H1 | discriminate].
Qed.

(** A computation that does not touch the heap. *)
Lemma namedPost_heap {A} (m : M A) :
  (forall w, heap (snd (m w)) = heap w) -> namedPost (fun _ => True) m.
Proof. intros H w. split; [intros; rewrite H; reflexivity | trivial]. Qed.

Lemma namedPost_this : namedPost (fun _ => True) this.
Proof. apply namedPost_heap. reflexivity. Qed.

Lemma namedPost_reading {A} (f : Index -> Result A) : namedPost (fun _ => True) (reading f).
Proof. apply namedPost_heap. reflexivity. Qed.

Lemma namedPost_defined {A} (o : option A) : namedPost (fun _ => True) (defined o).
Proof. apply namedPost_heap. destruct o; reflexivity. Qed.

Lemma namedPost_update f : namedPost (fun _ => True) (update f).
Proof. apply namedPost_heap. reflexivity. Qed.

Lemma namedPost_storageSet s : namedPost (fun _ => True) (storageSet s).
Proof.
  apply namedPost_heap. intros w. unfold storageSet, calling.
  destruct (Storage.set _ _). reflexivity.
Qed.

Lemma namedPost_callback {A} (m : M (Outcome A)) :
  namedPost (fun _ => True) m -> namedPost (fun _ => True) (callback m).
Proof.
  intros H w. destruct (H w) as [H1 _]. unfold callback.
  destruct (m w) as [[o|e] w1]; split; trivial.
Qed.

(** The note read from an object is the one the object holds. *)
Lemma noteAt_reads l w n w' :
  noteAt l w = (Ok n, w') -> w' = w /\ heap w !! l = Some (JNote n).
Proof.
  unfold noteAt, readObj. rewrite run_bind.
  destruct (heap w !! l) as [j|]; [|discriminate].
  destruct j; cbn; try discriminate. intros [= <- <-]. auto.
Qed.

Lemma namedPost_noteAt l : namedPost (fun _ => True) (noteAt l).
Proof.
  apply namedPost_heap. intros w. destruct (noteAt l w) as [[n|e] w'] eqn:E.
  - apply noteAt_reads in E. destruct E as [-> _]. reflexivity.
  - unfold noteAt, readObj in E. rewrite run_bind in E.
    destruct (heap w !! l) as [j|]; [|injection E as _ <-; reflexivity].
    destruct j; cbn in E; injection E as _ <-; reflexivity.
Qed.

Lemma namedPost_foldM {A B} (Q : B -> Prop) (f : B -> A -> M B) l b :
  (forall b a, Q b -> namedPost Q (f b a)) -> Q b -> namedPost Q (foldM f l b).
Proof.
  intros H. revert b. induction l as [|x l IH]; intros b Hb; cbn.
  - apply namedPost_ret, Hb.
  - eapply namedPost_bind; [apply H, Hb | intros; apply IH; assumption].
Qed.

Lemma jsmap_get_set {K V} `{EqDecision K} (k : K) (v : V) m :
  JsMap.get k (JsMap.set k v m) = Some v.
Proof.
  induction m as [|[k' v'] m IH]; cbn.
  - rewrite decide_True by reflexivity. reflexivity.
  - destruct (decide (k = k')) as [->|Hne]; cbn.
    + rewrite decide_True by reflexivity. reflexivity.
    + rewrite decide_False by assumption. exact IH.
Qed.

Lemma jsmap_get_set_ne {K V} `{EqDecision K} (k k' : K) (v : V) m :
  k <> k' -> JsMap.get k (JsMap.set k' v m) = JsMap.get k m.
Proof.
  intros Hne. induction m as [|[k0 v0] m IH]; cbn.
  - rewrite decide_False by assumption. reflexivity.
  - destruct (decide (k' = k0)) as [->|Hne']; cbn.
    + rewrite !decide_False by assumption. reflexivity.
    + destruct (decide (k = k0)); [reflexivity | exact IH].
Qed.

(** Appending to the list without a name leaves the lists with a name. *)
Lemma named_write other o pairs h l r :
  h !! other = Some (JNote o) -> r <> [] ->
  named l r (<[other := JNote (withRelations (JsMap.set [] pairs (Note.relations o)) o)]> h)
  = named l r h.
Proof.
  intros Ho Hr. unfold named. destruct (decide (l = other)) as [->|Hne].
  - rewrite list_lookup_insert_eq by (eapply lookup_lt_Some; exact Ho).
    rewrite Ho. cbn. rewrite jsmap_get_set_ne by assumption. reflexivity.
  - rewrite list_lookup_insert_ne by congruence. reflexivity.
Qed.

Lemma namedPost_reading_post {A} (Q : A -> Prop) (f : Index -> Result A) :
  (forall i a, f i = Ok a -> Q a) -> namedPost Q (reading f).
Proof. intros H w. split; [reflexivity | intros a Ha; exact (H _ _ Ha)]. Qed.

(** ** Relations *)

Section AddMirror.
Context {U : Unicode}.

Lemma namedPost_add_mirror info relation keyPair p storable :
  namedPost (fun acc => fst acc = []) (add_mirror info relation keyPair p ([], storable)).
Proof.
  unfold add_mirror.
  eapply namedPost_bind; [apply namedPost_this|]. intros i _.
  destruct (JsMap.get (pairKey p) (cache i)) as [[other|]|];
    try (apply namedPost_ret; reflexivity).
  cbn [truthy].
  eapply (namedPost_bind (fun rev => rev = [])).
  { eapply (namedPost_bind (fun r => forall s, r <> RevString s)).
    - apply namedPost_reading_post. intros i' r Hr s ->.
      exact (reverseRelation_never_a_relation _ _ _ _ Hr).
    - intros r Hr. apply namedPost_ret. destruct r as [s| |]; [|reflexivity..].
      exfalso. exact (Hr s eq_refl). }
  intros rev ->. intros w.
  rewrite run_bind. destruct (noteAt other w) as [[o|e] w1] eqn:E.
  - apply noteAt_reads in E. destruct E as [-> Ho].
    match goal with
    | |- context [ match ?x with Some _ => _ | None => _ end ] =>
        destruct x as [pairs2|]
    end.
    + destruct (bool_decide (keyPair ∈ pairs2)).
      * split; [reflexivity | intros a [= <-]; reflexivity].
      * rewrite run_bind. cbn [writeObj ret snd fst heap]. split.
        -- intros l r Hr. apply named_write; assumption.
        -- intros a [= <-]. reflexivity.
    + split; [reflexivity | intros a [= <-]; reflexivity].
  - destruct (namedPost_noteAt other w) as [H _]. rewrite E in H. split; [exact H | discriminate].
Qed.

Lemma namedPost_add_pairs fuel n data info relation keyPair storable :
  namedPost (fun _ => True)
            (add_pairs fuel n data info relation keyPair ([], storable)).
Proof.
  revert n storable. induction fuel as [|fuel IH]; intros n storable; cbn [add_pairs].
  - apply namedPost_ret. trivial.
  - eapply namedPost_bind; [apply namedPost_noteAt|]. intros d _.
    destruct (_ ≫= _) as [p|]; [|apply namedPost_ret; trivial].
    eapply namedPost_bind; [apply namedPost_add_mirror|].
    intros [rev st] Hrev. cbn in Hrev. subst rev. apply IH.
Qed.

Ltac named_tac :=
  repeat first
    [ apply namedPost_ret; exact I | apply namedPost_mret; exact I
    | apply namedPost_this | apply namedPost_noteAt
    | apply namedPost_reading | apply namedPost_defined | apply namedPost_update
    | apply namedPost_storageSet | apply namedPost_add_pairs
    | apply namedPost_callback
    | apply (namedPost_foldM (fun _ => True)); [intros; cbv beta | trivial]
    | eapply (namedPost_bind (fun _ => True)); [|intros; cbv beta]
    | match goal with
      | |- namedPost _ (match ?x with _ => _ end) => destruct x
      | |- namedPost _ (if ?b then _ else _) => destruct b
      end ].

(** X16. [add] leaves every relation with a name as it is, in every object:
    the only list it appends to is one without a name. *)
Theorem add_touches_no_named_relation phrase project data w l r :
  r <> [] ->
  named l r (heap (snd (add phrase project data w))) = named l r (heap w).
Proof.
  intros Hr. unfold add. rewrite snd_promise.
  match goal with
  | |- context [ (?m w).2 ] =>
      assert (H : namedPost (fun _ => True) m); [|exact (proj1 (H w) l r Hr)]
  end.
  named_tac.
Qed.
End AddMirror.

Section Fuel.
Context {U : Unicode}.

(** One step of the loop appends to the array at most the pair of the note
    that is added, and only when the array does not have it. *)
Lemma add_mirror_pairsAt info relation' keyPair p acc data relation w :
  let w' := snd (add_mirror info relation' keyPair p acc w) in
  (pairsAt data relation w' = pairsAt data relation w
   \/ exists pairs, pairsAt data relation w = Some pairs
                    /\ (keyPair ∉ pairs)
                    /\ pairsAt data relation w' = Some (pairs ++ [keyPair])).
Proof.
  unfold add_mirror. destruct acc as [rev storable].
  rewrite run_bind. cbn [this].
  destruct (JsMap.get (pairKey p) (cache (index w))) as [[other|]|];
    try (left; reflexivity).
  rewrite run_bind.
  assert (Hrev : exists rev', (if truthy rev then ret rev
            else (reading (reverseRelation (ByInfo info) relation')
                  ≫= (λ r, ret match r with RevString s => s | _ => [] end))) w
           = (Ok rev', w)
            \/ exists e, (if truthy rev then ret rev
            else (reading (reverseRelation (ByInfo info) relation')
                  ≫= (λ r, ret match r with RevString s => s | _ => [] end))) w
           = (Throw e, w)).
  { destruct (truthy rev); [exists rev; left; reflexivity|].
    rewrite run_bind. unfold reading.
    destruct (reverseRelation (ByInfo info) relation' (index w)) as [r|e].
    - eexists. left. reflexivity.
    - exists []. right. exists e. reflexivity. }
  destruct Hrev as [rev' [Hrev|[e Hrev]]]; rewrite Hrev; [|left; reflexivity].
  rewrite run_bind. destruct (noteAt other w) as [[o|e] w1] eqn:E.
  - apply noteAt_reads in E. destruct E as [-> Ho].
    match goal with
    | |- context [ match ?x with Some _ => _ | None => _ end ] =>
        destruct x as [pairs2|] eqn:Hp
    end; [|left; reflexivity].
    case_bool_decide as Hin; [left; reflexivity|].
    rewrite run_bind. cbn [writeObj ret snd]. unfold pairsAt. cbn [heap].
    destruct (decide (data = other)) as [->|Hne].
    + rewrite list_lookup_insert_eq by (eapply lookup_lt_Some; exact Ho).
      rewrite Ho. cbn [withRelations Note.relations].
      destruct (decide (relation = rev')) as [->|Hne].
      * right. exists pairs2. rewrite jsmap_get_set. auto.
      * left. apply jsmap_get_set_ne, Hne.
    + left. rewrite list_lookup_insert_ne by congruence. reflexivity.
  - left. destruct (namedPost_noteAt other w) as [_ _].
    assert (Hw : w1 = w).
    { unfold noteAt, readObj in E. rewrite run_bind in E.
      destruct (heap w !! other) as [j|]; [|injection E as _ <-; reflexivity].
      destruct j; cbn in E; injection E as _ <-; reflexivity. }
    subst w1. reflexivity.
Qed.

Lemma stepsLeft_next info relation' keyPair p acc data relation n w pairs :
  pairsAt data relation w = Some pairs -> (n < length pairs)%nat ->
  (S (stepsLeft data relation keyPair (S n)
        (snd (add_mirror info relation' keyPair p acc w)))
   <= stepsLeft data relation keyPair n w)%nat.
Proof.
  intros Hp Hn. unfold stepsLeft.
  destruct (add_mirror_pairsAt info relation' keyPair p acc data relation w)
    as [E|(pairs' & E1 & E2 & E3)].
  - cbv zeta in E. rewrite E, Hp. lia.
  - cbv zeta in E3. rewrite E3, E1. rewrite Hp in E1. injection E1 as <-.
    rewrite length_app. cbn [length].
    rewrite (bool_decide_eq_false_2 _ E2).
    rewrite bool_decide_eq_true_2 by (apply elem_of_app; right; apply list_elem_of_singleton; reflexivity).
    lia.
Qed.

(** With the steps that are left for fuel, more fuel makes no difference. *)
Lemma add_pairs_fuel fuel extra n data info relation keyPair acc w :
  (stepsLeft data relation keyPair n w <= fuel)%nat ->
  add_pairs (fuel + extra) n data info relation keyPair acc w
  = add_pairs fuel n data info relation keyPair acc w.
Proof.
  revert n acc w. induction fuel as [|fuel IH]; intros n acc w Hf.
  - unfold stepsLeft in Hf. destruct (pairsAt data relation w); lia.
  - cbn [Nat.add add_pairs]. rewrite !run_bind.
    destruct (noteAt data w) as [[d|e] w1] eqn:E; [|reflexivity].
    apply noteAt_reads in E. destruct E as [-> Hd].
    assert (Hp : pairsAt data relation w = JsMap.get relation (Note.relations d)).
    { unfold pairsAt. rewrite Hd. reflexivity. }
    destruct (JsMap.get relation (Note.relations d)) as [pairs|] eqn:Hg; [|reflexivity].
    cbn [mbind option_bind]. destruct (pairs !! n) as [p|] eqn:Hn; [|reflexivity].
    rewrite !run_bind.
    pose proof (stepsLeft_next info relation keyPair p acc data relation n w pairs Hp
                  (lookup_lt_Some _ _ _ Hn)) as Hs.
    destruct (add_mirror info relation keyPair p acc w) as [[acc'|e] w'] eqn:Em;
      [|reflexivity].
    cbn [snd] in Hs. apply IH. lia.
Qed.
(** The fuel that [add] gives the loop is enough: with more of it the loop
    does the same. *)
Theorem add_pairs_enough extra data info relation keyPair acc w d :
  heap w !! data = Some (JNote d) ->
  add_pairs (length (default [] (JsMap.get relation (Note.relations d))) + 2 + extra)
            0 data info relation keyPair acc w
  = add_pairs (length (default [] (JsMap.get relation (Note.relations d))) + 2)
              0 data info relation keyPair acc w.
Proof.
  intros Hd. apply add_pairs_fuel. unfold stepsLeft, pairsAt. rewrite Hd.
  destruct (JsMap.get relation (Note.relations d)) as [pairs|]; cbn; [|lia].
  case_bool_decide; lia.
Qed.

End Fuel.

(** C1, as the code has it: "cat" is cached as the note [0:0]; "dog" is
    added with "cat" under "see also", whose reverse the default project
    declares to be "see also".  The promise resolves and "cat" has no
    relation, neither in its object nor in the store. *)
Theorem add_gives_the_target_no_mirror :
  JsMap.get (str "0:0") (cache (index withCat)) = Some (Some 0%nat)
  /\ fst (addNote (str "dog") 0 dog withCat) = Resolved tt
  /\ JsMap.get (str "0:1") (cache (index withCatAndDog)) = Some (Some 1%nat)
  /\ relationsAt 1 withCatAndDog = Some [(str "see also", [(0, 0)%Z])]
  /\ relationsAt 0 withCatAndDog = Some []
  /\ relationsStored (str "0:0") withCatAndDog = Some [].
Proof. repeat split; vm_compute; reflexivity. Qed.

Section DeleteRelation.
Context {U : Unicode}.

(** X17. So [deleteRelation] does not resolve, whatever it is asked. *)
Theorem deleteRelation_never_resolves phrase project relation p w :
  fst (deleteRelation phrase project relation p w) <> Resolved tt.
Proof.
  unfold deleteRelation, promise.
  rewrite run_bind. cbn [this].
  destruct (findProject (ByInfo project) (index w)) as [projectName found].
  rewrite run_bind. unfold reading at 1.
  destruct (normalizeFor phrase found (index w)) as [key|e]; [|discriminate].
  rewrite run_bind. destruct found as [projectInfo|]; [|discriminate]. cbn [defined ret].
  destruct (_ ≫= JsMap.get key) as [pk|]; [|discriminate].
  destruct (JsMap.get (noteKey (Project.pk projectInfo) pk) (cache (index w))) as [[data|]|];
    try discriminate.
  destruct (JsMap.get (pairKey p) (cache (index w))) as [[other|]|].
  - rewrite run_bind. unfold reading at 1.
    destruct (reverseRelation (ByInfo projectInfo) relation (index w)) as [[s| |]|e] eqn:E;
      try discriminate.
    exfalso. exact (reverseRelation_never_a_relation _ _ _ _ E).
  - rewrite run_bind. unfold storageGet, calling.
    destruct (Storage.get [pairKey p] (chrome (index w))) as [[found|e] c]; [|discriminate].
    unfold callback. rewrite run_bind. cbn [alloc]. rewrite run_bind. cbn [update].
    rewrite run_bind. unfold reading at 1.
    match goal with
    | |- context [ reverseRelation ?a ?b ?i ] =>
        destruct (reverseRelation a b i) as [[s| |]|e] eqn:E
    end; try discriminate.
    exfalso. exact (reverseRelation_never_a_relation _ _ _ _ E).
  - rewrite run_bind. unfold storageGet, calling.
    destruct (Storage.get [pairKey p] (chrome (index w))) as [[found|e] c]; [|discriminate].
    unfold callback. rewrite run_bind. cbn [alloc]. rewrite run_bind. cbn [update].
    rewrite run_bind. unfold reading at 1.
    match goal with
    | |- context [ reverseRelation ?a ?b ?i ] =>
        destruct (reverseRelation a b i) as [[s| |]|e] eqn:E
    end; try discriminate.
    exfalso. exact (reverseRelation_never_a_relation _ _ _ _ E).
Qed.
End DeleteRelation.

(** C3, as the code has it: "cat" and "dog" are stored and unrelated; "dog"
    is saved with "cat" under "see also"; [deleteRelation] of that relation
    is rejected for want of a reversed relation, and "dog" keeps "cat" under
    "see also", in its object and in the store, as before the call. *)
Theorem deleteRelation_is_rejected_and_deletes_nothing :
  let r := deleteRelation (str "dog") makeDefaultProject (str "see also") (0, 0)%Z
                          related in
  relationsStored (str "0:1") unrelated = Some []
  /\ JsMap.get (str "0:1") (cache (index related)) = Some (Some 2%nat)
  /\ relationsAt 2 related = Some [(str "see also", [(0, 0)%Z])]
  /\ relationsStored (str "0:1") related = Some [(str "see also", [(0, 0)%Z])]
  /\ fst r = Rejected (Message (str "could not find the reversed relation for see also in "))
  /\ JsMap.get (str "0:1") (cache (index (snd r))) = Some (Some 2%nat)
  /\ relationsAt 2 (snd r) = Some [(str "see also", [(0, 0)%Z])]
  /\ relationsStored (str "0:1") (snd r) = Some [(str "see also", [(0, 0)%Z])].
Proof. repeat split; vm_compute; reflexivity. Qed.

(** ** The default project *)

(** C4, as the code has it: [removeProject] of the project 0 resolves, and
    leaves the registry without any project.  An identifier that stands for
    no project does the same, since it is taken for the default project. *)
Theorem removeProject_deletes_the_default_project :
  JsMap.get [] (projects (index fresh)) = Some makeDefaultProject
  /\ fst (removeProject (ByPk 0) fresh) = Resolved tt
  /\ projects (index (snd (removeProject (ByPk 0) fresh))) = []
  /\ projects (index (snd (removeProject (ByName (str "no such project")) fresh))) = [].
Proof. repeat split; vm_compute; reflexivity. Qed.

(** ** [find] and the cache *)

Section AdHocCache.
Context {U : Unicode}.

Lemma keeps_find_adHoc query : keeps (find_adHoc query).
Proof. unfold find_adHoc. keeps_tac. Qed.

(** An ad hoc [find] leaves the cache as it is, whatever the query and
    whatever it reads from the store. *)
Theorem adHoc_find_keeps_the_cache query w :
  cache (index (snd (find (ad_hoc query) w))) = cache (index w).
Proof.
  unfold find. rewrite snd_promise.
  pose proof (keeps_find_adHoc query w) as H. unfold registry in H.
  injection H as _ _ _ H. exact H.
Qed.
End AdHocCache.

(** C5, as the code has it: the note [0:0] is in the store and not in the
    cache.  An ad hoc query finds it in the store and leaves the cache
    empty; a lookup of the same note caches a copy, at another address than
    the one it returns. *)
Theorem adHoc_find_does_not_cache :
  cache (index (reopened withCat)) = []
  /\ fst (find (ad_hoc (exactly (str "cat"))) (reopened withCat))
     = Resolved (state_found (Some 0%Z, Some 0%nat))
  /\ cache (index (snd (find (ad_hoc (exactly (str "cat"))) (reopened withCat)))) = []
  /\ fst (find (lookup (str "cat") None) (reopened withCat))
     = Resolved (state_found (Some 0%Z, Some 0%nat))
  /\ cache (index (snd (find (lookup (str "cat") None) (reopened withCat))))
     = [(str "0:0", Some 1%nat)].
Proof. repeat split; vm_compute; reflexivity. Qed.

(** ** [find] without requirements *)

Lemma consider_grows i pk n acc :
  (length (snd acc) <= length (snd (consider i pk n acc)))%nat.
Proof.
  unfold consider. destruct (JsMap.get _ _) as [[l|]|]; cbn; rewrite ?length_app; cbn; lia.
Qed.

Lemma consider_uncached i pk n acc :
  (forall l, JsMap.get (noteKey pk n) (cache i) <> Some (Some l)) ->
  (length (snd acc) < length (snd (consider i pk n acc)))%nat.
Proof.
  intros H. unfold consider. destruct (JsMap.get _ _) as [[l|]|]; cbn.
  - exfalso. exact (H l eq_refl).
  - rewrite length_app. cbn. lia.
  - rewrite length_app. cbn. lia.
Qed.

(* the notes of one phrase index *)
Lemma consider_all_grows i pk (idx : list (jsstring * Z)) acc :
  (length (snd acc)
   <= length (snd (fold_left (fun acc nn => consider i pk (snd nn) acc) idx acc)))%nat.
Proof.
  revert acc. induction idx as [|nn idx IH]; intros acc; cbn; [lia|].
  etransitivity; [apply (consider_grows i pk (snd nn))|]. apply IH.
Qed.

Lemma consider_all_uncached i pk (idx : list (jsstring * Z)) normed n acc :
  In (normed, n) idx ->
  (forall l, JsMap.get (noteKey pk n) (cache i) <> Some (Some l)) ->
  (length (snd acc)
   < length (snd (fold_left (fun acc nn => consider i pk (snd nn) acc) idx acc)))%nat.
Proof.
  intros Hin Hc. revert acc. induction idx as [|nn idx IH]; intros acc; [destruct Hin|].
  cbn [fold_left]. destruct Hin as [->|Hin].
  - eapply Nat.lt_le_trans; [apply (consider_uncached i pk n acc Hc)|].
    apply consider_all_grows.
  - eapply Nat.le_lt_trans; [apply (consider_grows i pk (snd nn))|]. apply IH, Hin.
Qed.

Lemma gather_grows i project acc :
  (length (snd acc) <= length (snd (gather i project acc)))%nat.
Proof.
  unfold gather. revert acc. induction project as [|pk project IH]; intros acc; cbn; [lia|].
  etransitivity; [|apply IH]. apply consider_all_grows.
Qed.

Lemma gather_uncached i project pk idx normed n acc :
  In pk project ->
  JsMap.get pk (projectIndices i) = Some idx ->
  In (normed, n) idx ->
  (forall l, JsMap.get (noteKey pk n) (cache i) <> Some (Some l)) ->
  (length (snd acc) < length (snd (gather i project acc)))%nat.
Proof.
  intros Hin Hidx Hn Hc. unfold gather. revert acc.
  induction project as [|pk' project IH]; intros acc; [destruct Hin|].
  cbn [fold_left]. destruct Hin as [->|Hin].
  - rewrite Hidx. cbn [default from_option id].
    eapply Nat.lt_le_trans; [apply (consider_all_uncached i pk idx normed n acc Hn Hc)|].
    apply gather_grows.
  - eapply Nat.le_lt_trans; [apply consider_all_grows|]. apply IH, Hin.
Qed.

Lemma jsmap_get_keys {K V} `{EqDecision K} (k : K) (v : V) m :
  JsMap.get k m = Some v -> In k (JsMap.keys m).
Proof.
  induction m as [|[k' v'] m IH]; cbn; [discriminate|].
  destruct (decide (k = k')) as [->|Hne]; [left; reflexivity | right; auto].
Qed.

Section AdHocStore.
Context {U : Unicode}.

(** An ad hoc query with nothing but its type asks the store as soon as a
    note of some phrase index is not cached: when the store fails, so does
    the query. *)
Theorem adHoc_find_without_requirements_needs_the_store
    (w : World) (pk n : Z) (idx : list (jsstring * Z)) (normed e : jsstring)
    (rest : list (option jsstring)) :
  JsMap.get pk (projectIndices (index w)) = Some idx ->
  In (normed, n) idx ->
  (forall l, JsMap.get (noteKey pk n) (cache (index w)) <> Some (Some l)) ->
  faults (chrome (index w)) = Some e :: rest ->
  fst (find (ad_hoc noRequirements) w) = Rejected (LastError e).
Proof.
  intros Hidx Hn Hc Hf.
  pose proof (gather_uncached (index w) (allProjects (index w)) pk idx normed n ([], [])
                (jsmap_get_keys _ _ _ Hidx) Hidx Hn Hc) as Hlen.
  unfold find, promise, find_adHoc. cbn [truthyArray noRequirements AdHoc.phrase AdHoc.project AdHoc.strictness].
  rewrite run_bind. cbn [this]. rewrite run_bind. cbn [ret]. rewrite run_bind. cbn [ret].
  fold (gather (index w) (allProjects (index w)) ([], [])).
  destruct (gather (index w) (allProjects (index w)) ([], [])) as [candidates [|k toLookUp]];
    [cbn in Hlen; lia|].
  rewrite run_bind. unfold storageGet, calling, Storage.get, Storage.next. rewrite Hf.
  reflexivity.
Qed.
End AdHocStore.

(** C6, as the code has it: an ad hoc query with nothing but its type goes
    through the indices and asks the store for the notes that are not
    cached; when the store fails, the promise is rejected. *)
Theorem adHoc_find_without_requirements_asks_the_store :
  requirementKeys noRequirements = []
  /\ fst (find (ad_hoc noRequirements) (failing (str "no answer") (reopened withCat)))
     = Rejected (LastError (str "no answer"))
  /\ faults (chrome (index (snd (find (ad_hoc noRequirements)
                                      (failing (str "no answer") (reopened withCat))))))
     = [].
Proof. repeat split; vm_compute; reflexivity. Qed.

(** ** What [add] leaves in the index *)

Lemma findProject_registry p i i' :
  projects i = projects i' -> reverseProjectIndex i = reverseProjectIndex i' ->
  findProject p i = findProject p i'.
Proof. intros H1 H2. unfold findProject, defaultProject. rewrite H1, H2. reflexivity. Qed.

Section Registers.
Context {U : Unicode}.

Lemma normalize_ByInfo phrase info i i' :
  normalize phrase (ByInfo info) i = normalize phrase (ByInfo info) i'.
Proof. reflexivity. Qed.

(** What [add] leaves in the index, however it ends. *)
Lemma add_registers phrase w pk name info data key idx :
  findProject (ByPk pk) (index w) = (name, Some info) ->
  normalize phrase (ByInfo info) (index w) = Ok key ->
  JsMap.get (Project.pk info) (projectIndices (index w)) = Some idx ->
  exists (n : Z) indices,
    registry (index (snd (add phrase pk data w)))
    = (projects (index w), reverseProjectIndex (index w), indices,
       JsMap.set (noteKey (Project.pk info) n) (Some data) (cache (index w)))
    /\ (JsMap.get (Project.pk info) indices ≫= JsMap.get key) = Some n.
Proof.
  intros Hf Hn Hi. unfold add. rewrite snd_promise.
  rewrite run_bind. cbn [this]. rewrite Hf. cbn [snd].
  rewrite run_bind. unfold reading at 1. cbn [normalizeFor]. rewrite Hn.
  rewrite run_bind. cbn [defined ret]. rewrite Hi.
  unfold default, from_option, id.
  destruct (JsMap.get key idx) as [n|] eqn:Hk.
  - rewrite run_bind. cbn [ret]. rewrite run_bind. cbn [update].
    match goal with
    | |- context [ (?tail ?w1).2 ] =>
        let H := fresh in
        assert (H : keeps tail) by (repeat keeps_step);
        rewrite (H w1); clear H
    end.
    exists n, (projectIndices (index w)). split; [reflexivity|].
    rewrite Hi. exact Hk.
  - rewrite run_bind. rewrite run_bind. cbn [update ret]. rewrite run_bind. cbn [update].
    match goal with
    | |- context [ (?tail ?w1).2 ] =>
        let H := fresh in
        assert (H : keeps tail) by (repeat keeps_step);
        rewrite (H w1); clear H
    end.
    eexists (nextPk idx), _. split; [reflexivity|].
    cbn [index projectIndices withProjectIndices withCache].
    rewrite jsmap_get_set. cbn. apply jsmap_get_set.
Qed.

(** A lookup of a phrase whose note is cached. *)
Lemma lookup_of_cached phrase w pk name info key n l :
  findProject (ByPk pk) (index w) = (name, Some info) ->
  normalize phrase (ByInfo info) (index w) = Ok key ->
  (JsMap.get (Project.pk info) (projectIndices (index w)) ≫= JsMap.get key) = Some n ->
  JsMap.get (noteKey pk n) (cache (index w)) = Some (Some l) ->
  fst (find (lookup phrase (Some pk)) w) = Resolved (state_found (Some pk, Some l)).
Proof.
  intros Hf Hn Hi Hc.
  assert (Hpi : projectIndex phrase (ByPk pk) (index w) = Ok (Some n)).
  { unfold projectIndex. rewrite Hf. cbn [snd].
    destruct (JsMap.get (Project.pk info) (projectIndices (index w))) as [idx|];
      [|discriminate].
    cbn in Hi. rewrite Hn. cbn. rewrite Hi. reflexivity. }
  unfold find, promise, find_lookup.
  rewrite run_bind. cbn [this]. cbn [foldM]. rewrite !run_bind.
  unfold reading at 1. rewrite Hpi.
  unfold pairKey. cbn -[noteKey JsMap.get]. rewrite !Hc.
  reflexivity.
Qed.

End Registers.

(** ** "Über" in a German project *)

(** C7, as it is stated, fails: in the project "German", "Über" is added
    and the phrase index has it under "ueber"; there is nothing under
    "uber". *)
Lemma Uber_is_not_stored_under_uber :
  fst (addNote Uber 1 cat withGerman) = Resolved tt
  /\ JsMap.get 1%Z (projectIndices (index withUber)) = Some [(str "ueber", 0%Z)]
  /\ JsMap.get (str "uber") [(str "ueber", 0%Z)] = None.
Proof. repeat split; vm_compute; reflexivity. Qed.

Section German.
Context {U : Unicode} (host : Latin1Host U).

Lemma German_Uber : Normalizer.code normalizer_German Uber = str "ueber".
Proof. rewrite (German_latin1 host _ inRange_Uber). reflexivity. Qed.

Lemma German_uber : Normalizer.code normalizer_German uber = str "ueber".
Proof. rewrite (German_latin1 host _ inRange_uber). reflexivity. Qed.

(** C7, as amended.  In a project with the normalizer "German" that is
    found under its own key [pk] and has a phrase index, on a host with the
    standard tables below U+0100, [add] of "Über" with the note object
    [data] leaves the phrase under the key "ueber" in the phrase index of
    the project, and a lookup of "über" in the project resolves to that note
    object. *)
Theorem Uber_is_stored_under_ueber
    (w : World) (pk : Z) (name : jsstring) (info : ProjectInfo) (data : nat) :
  findProject (ByPk pk) (index w) = (name, Some info) ->
  Project.pk info = pk ->
  Project.normalizer info = str "German" ->
  is_Some (JsMap.get pk (projectIndices (index w))) ->
  exists n,
    (JsMap.get pk (projectIndices (index (snd (add Uber pk data w))))
       ≫= JsMap.get (str "ueber")) = Some n
    /\ fst (find (lookup uber (Some pk)) (snd (add Uber pk data w)))
       = Resolved (state_found (Some pk, Some data)).
Proof.
  intros Hf Hpk Hnorm [idx Hidx]. subst pk.
  assert (HG : forall x i, normalize x (ByInfo info) i
                           = Ok (Normalizer.code normalizer_German x)).
  { intros x i. unfold normalize. rewrite Hnorm. reflexivity. }
  pose proof (HG Uber (index w)) as HU. rewrite German_Uber in HU.
  destruct (add_registers Uber w _ name info data _ idx Hf HU Hidx)
    as (n & indices & Hreg & Hget).
  set (w' := snd (add Uber (Project.pk info) data w)) in *.
  unfold registry in Hreg. injection Hreg as H1 H2 H3 H4.
  exists n. split; [rewrite H3; exact Hget|].
  apply (lookup_of_cached uber w' _ name info (str "ueber") n data).
  - rewrite <- Hf. apply findProject_registry; assumption.
  - rewrite HG, German_uber. reflexivity.
  - rewrite H3. exact Hget.
  - rewrite H4. apply jsmap_get_set.
Qed.

End German.

(** C7, for the project "German" made by [saveProject] on a new index, and
    the note object at 0. *)
Lemma Uber_is_stored_under_ueber_witness :
  exists n,
    (JsMap.get 1%Z (projectIndices (index withUber)) ≫= JsMap.get (str "ueber")) = Some n
    /\ fst (find (lookup uber (Some 1%Z)) withUber)
       = Resolved (state_found (Some 1%Z, Some 0%nat)).
Proof.
  apply (Uber_is_stored_under_ueber ucd_latin1_host
           (snd (alloc (JNote cat) withGerman)) 1 (str "German") germanInfo 0);
    [reflexivity | reflexivity | reflexivity | eexists; reflexivity].
Defined.

(** * Further properties *)

(** ** The keys of notes *)

Lemma digitsValue_acc d acc :
  fold_left (fun acc c => (10 * acc + (Z.of_N c - 48))%Z) (uint_digits d) (Z.pos acc)
  = Z.pos (Pos.of_uint_acc d acc).
Proof.
  revert acc. induction d; intros acc; cbn [uint_digits fold_left Pos.of_uint_acc];
    [reflexivity | rewrite <- IHd; f_equal; lia ..].
Qed.

Lemma digitsValue_uint d : digitsValue (uint_digits d) = Z.of_N (Pos.of_uint d).
Proof.
  unfold digitsValue. induction d; cbn [uint_digits fold_left Pos.of_uint];
    [reflexivity | exact IHd | apply digitsValue_acc ..].
Qed.

Lemma takeWhile_digits d rest :
  takeWhile isDigit (uint_digits d ++ rest) = uint_digits d ++ takeWhile isDigit rest.
Proof. induction d; cbn; [reflexivity | rewrite IHd; reflexivity ..]. Qed.

Lemma takeWhile_stop {A} (f : A -> bool) l x rest :
  Forall (fun y => f y = true) l -> f x = false -> takeWhile f (l ++ x :: rest) = l.
Proof.
  intros Hl Hx. induction Hl as [|y l Hy _ IH]; cbn; [rewrite Hx; reflexivity|].
  rewrite Hy, IH. reflexivity.
Qed.

Lemma uint_digits_nonnil d : d <> Decimal.Nil -> uint_digits d <> [].
Proof. destruct d; cbn; congruence. Qed.

Lemma parseInt_unsigned d rest :
  d <> Decimal.Nil -> takeWhile isDigit rest = [] ->
  parseInt (uint_digits d ++ rest) = Some (digitsValue (uint_digits d)).
Proof.
  intros Hnil Hrest.
  pose proof (takeWhile_digits d rest) as Hs. rewrite Hrest, app_nil_r in Hs.
  unfold parseInt.
  destruct d; [congruence|..]; cbn [uint_digits app dropWhile isSpace] in *.
  all: cbn -[takeWhile digitsValue uint_digits]; rewrite Hs; reflexivity.
Qed.

(** [Number.parseInt] reads a number back from what [toString] made of it,
    whatever comes after it that does not start with a digit. *)
Lemma parseInt_toString z rest :
  takeWhile isDigit rest = [] -> parseInt (toString z ++ rest) = Some z.
Proof.
  intros Hrest. destruct z as [|p|p]; unfold toString.
  - unfold parseInt. cbn. rewrite Hrest. reflexivity.
  - rewrite parseInt_unsigned by (exact Hrest || apply Unsigned.to_uint_nonnil).
    rewrite digitsValue_uint, Unsigned.of_to. reflexivity.
  - pose proof (takeWhile_digits (Pos.to_uint p) rest) as Hs.
    rewrite Hrest, app_nil_r in Hs.
    unfold parseInt. cbn -[takeWhile digitsValue]. rewrite Hs.
    pose proof (digitsValue_uint (Pos.to_uint p)) as Hv. rewrite Unsigned.of_to in Hv.
    destruct (uint_digits (Pos.to_uint p)) eqn:E.
    + exfalso. exact (uint_digits_nonnil _ (Unsigned.to_uint_nonnil p) E).
    + rewrite Hv. reflexivity.
Qed.

Lemma toString_no_colon z : Forall (fun c => negb (c =? 58) = true) (toString z).
Proof.
  assert (H : forall d, Forall (fun c => negb (c =? 58) = true) (uint_digits d)).
  { induction d; cbn; constructor; try assumption; reflexivity. }
  destruct z; cbn; [repeat constructor | apply H | constructor; [reflexivity | apply H]].
Qed.

Lemma beforeColon_noteKey a b : beforeColon (noteKey a b) = toString a.
Proof.
  unfold beforeColon, noteKey. cbn [app].
  apply takeWhile_stop; [apply toString_no_colon | reflexivity].
Qed.

(** The project that an ad hoc search reads from the key of a note,
    [Number.parseInt(key.split(":")[0])], is the project the key was made
    for. *)
Lemma parseInt_of_noteKey a b : parseInt (beforeColon (noteKey a b)) = Some a.
Proof.
  rewrite beforeColon_noteKey, <- (app_nil_r (toString a)).
  apply parseInt_toString. reflexivity.
Qed.

(** X27. The key of a note, [`${project}:${note}`], tells the notes apart:
    two notes have the same key only if they are the same note of the same
    project. *)
Theorem noteKey_injective a b a' b' :
  noteKey a b = noteKey a' b' -> a = a' /\ b = b'.
Proof.
  intros H.
  assert (Ha : a = a').
  { pose proof (parseInt_of_noteKey a b) as H1. rewrite H, parseInt_of_noteKey in H1.
    congruence. }
  subst a'. split; [reflexivity|].
  unfold noteKey in H. apply app_inv_head in H. injection H as H.
  pose proof (parseInt_toString b [] eq_refl) as H1.
  rewrite H, parseInt_toString in H1 by reflexivity. congruence.
Qed.

(** X27, for the key "12:-3". *)
Lemma noteKey_injective_witness :
  noteKey 12 (-3) = str "12:-3" /\ (12 = 12 /\ -3 = -3)%Z.
Proof.
  split; [reflexivity|].
  apply (noteKey_injective 12 (-3) 12 (-3)). reflexivity.
Defined.

(** ** The fuzzy search *)

Lemma isPrefix_fuzzy_at gap key normed :
  isPrefix key normed = true -> fuzzy_at gap key normed = true.
Proof.
  revert gap key. induction normed as [|x normed IH]; intros gap [|c key]; cbn; try easy.
  intros [Hc Hk]%andb_true_iff. rewrite N.eqb_sym, Hc, (IH true key Hk). reflexivity.
Qed.

(** What a search for a substring finds, a fuzzy search finds as well. *)
Lemma substring_match_is_fuzzy_match key normed :
  includes key normed = true -> fuzzy_test key normed = true.
Proof.
  induction normed as [|x normed IH]; cbn [includes fuzzy_test].
  - intros [H|H]%orb_true_iff; [|discriminate]. rewrite (isPrefix_fuzzy_at _ _ _ H). reflexivity.
  - intros [H|H]%orb_true_iff.
    + rewrite (isPrefix_fuzzy_at _ _ _ H). reflexivity.
    + rewrite (IH H). apply orb_true_r.
Qed.

Lemma fuzzy_at_sublist gap key normed :
  fuzzy_at gap key normed = true -> sublist key normed.
Proof.
  revert gap key. induction normed as [|x normed IH]; intros gap [|c key]; cbn.
  - constructor.
  - discriminate.
  - intros _. apply sublist_nil_l.
  - intros [[Hc Hk]%andb_true_iff|[_ Hk]%andb_true_iff]%orb_true_iff.
    + apply N.eqb_eq in Hc. subst. apply sublist_skip, (IH _ _ Hk).
    + apply sublist_cons, (IH _ _ Hk).
Qed.

Lemma sublist_fuzzy_at key normed :
  Forall (fun c => isLineTerminator c = false) normed ->
  sublist key normed -> fuzzy_at true key normed = true.
Proof.
  intros Hn Hs. induction Hs as [|x key normed _ IH|x key normed _ IH].
  - reflexivity.
  - inversion Hn; subst. cbn. rewrite N.eqb_refl, IH by assumption. reflexivity.
  - inversion Hn as [|? ? Hx Hn']; subst. destruct key as [|c key]; [reflexivity|].
    cbn [fuzzy_at]. rewrite Hx, (IH Hn'). cbn. apply orb_true_r.
Qed.

(** X10. The regular expression of the fuzzy search, the characters of the
    key with [.*?] in between, finds the key in a normalized phrase that has
    no line terminator exactly when the characters of the key occur in the
    phrase in this order. *)
Theorem fuzzy_match_iff_subsequence key normed :
  Forall (fun c => isLineTerminator c = false) normed ->
  fuzzy_test key normed = true <-> sublist key normed.
Proof.
  intros Hn. split.
  - clear Hn. induction normed as [|x normed IH]; cbn [fuzzy_test].
    + rewrite orb_false_r. apply fuzzy_at_sublist.
    + intros [H|H]%orb_true_iff; [exact (fuzzy_at_sublist _ _ _ H)|].
      apply sublist_cons, IH, H.
  - intros Hs. induction Hs as [|x key normed Hs IH|x key normed Hs IH].
    + reflexivity.
    + inversion Hn; subst. cbn [fuzzy_test fuzzy_at].
      rewrite N.eqb_refl, (sublist_fuzzy_at key normed) by assumption. reflexivity.
    + inversion Hn; subst. cbn [fuzzy_test]. rewrite IH by assumption. apply orb_true_r.
Qed.

(** X10, for the key "ct" and the phrase "cat". *)
Lemma fuzzy_match_iff_subsequence_witness :
  fuzzy_test (str "ct") (str "cat") = true <-> sublist (str "ct") (str "cat").
Proof.
  apply (fuzzy_match_iff_subsequence (str "ct") (str "cat")).
  repeat constructor.
Defined.

(** ** What the normalizers do not tell apart *)

Lemma dropWhile_pad {A} (f : A -> bool) ws l :
  Forall (fun c => f c = true) ws -> dropWhile f (ws ++ l) = dropWhile f l.
Proof. induction 1 as [|c ws Hc _ IH]; cbn; [reflexivity|]. rewrite Hc. exact IH. Qed.

Lemma dropWhileEnd_all {A} (f : A -> bool) ws :
  Forall (fun c => f c = true) ws -> dropWhileEnd f ws = [].
Proof. induction 1 as [|c ws Hc _ IH]; cbn; [reflexivity|]. rewrite IH, Hc. reflexivity. Qed.

Lemma dropWhileEnd_pad {A} (f : A -> bool) l ws :
  Forall (fun c => f c = true) ws -> dropWhileEnd f (l ++ ws) = dropWhileEnd f l.
Proof.
  intros H. induction l as [|x l IH]; cbn; [apply dropWhileEnd_all, H|].
  rewrite IH. reflexivity.
Qed.

Lemma dropWhile_app_all {A} (f : A -> bool) l ws :
  Forall (fun c => f c = true) ws ->
  dropWhile f (l ++ ws) = dropWhile f l ++ ws
  \/ (dropWhile f (l ++ ws) = [] /\ dropWhile f l = []).
Proof.
  intros H. induction l as [|x l IH]; cbn.
  - right. split; [|reflexivity].
    rewrite <- (app_nil_r ws) at 1. rewrite dropWhile_pad by exact H. reflexivity.
  - destruct (f x); [exact IH | left; reflexivity].
Qed.

Lemma trim_pad ws ws' p :
  Forall (fun c => isSpace c = true) ws -> Forall (fun c => isSpace c = true) ws' ->
  trim (ws ++ p ++ ws') = trim p.
Proof.
  intros H H'. unfold trim. rewrite dropWhile_pad by exact H.
  destruct (dropWhile_app_all isSpace p ws' H') as [E|[E1 E2]].
  - rewrite E. apply dropWhileEnd_pad, H'.
  - rewrite E1, E2. reflexivity.
Qed.

(** X28. White space before and after a phrase does not count: with it
    [normalize] gives what it gives without it, whatever the project, its
    normalizer and the tables of the host. *)
Theorem normalize_ignores_the_white_space_around_a_phrase {U : Unicode}
    ws ws' phrase project i :
  Forall (fun c => isSpace c = true) ws -> Forall (fun c => isSpace c = true) ws' ->
  normalize (ws ++ phrase ++ ws') project i = normalize phrase project i.
Proof.
  intros H H'. unfold normalize.
  destruct (normalizers _) as [n|] eqn:E; [|reflexivity]. f_equal.
  unfold normalizers in E.
  destruct (jsstring_eqb _ []); [injection E as <-|].
  - cbn [Normalizer.code normalizer_default]. rewrite trim_pad by assumption. reflexivity.
  - destruct (jsstring_eqb _ _); [injection E as <-|discriminate].
    cbn [Normalizer.code normalizer_German]. rewrite trim_pad by assumption. reflexivity.
Qed.

(** X28, for "cat" after a tabulator and before two spaces, in the project
    "German". *)
Lemma normalize_ignores_the_white_space_around_a_phrase_witness :
  normalize ([9] ++ str "cat" ++ str "  ") (ByPk 1) (index withGerman)
  = normalize (str "cat") (ByPk 1) (index withGerman).
Proof.
  apply (normalize_ignores_the_white_space_around_a_phrase
           [9] (str "  ") (str "cat") (ByPk 1) (index withGerman));
    repeat constructor.
Defined.

Lemma dropWhile_map {A} (f : A -> bool) (g : A -> A) l :
  Forall (fun c => f (g c) = f c) l -> dropWhile f (List.map g l) = List.map g (dropWhile f l).
Proof.
  induction 1 as [|c l Hc _ IH]; cbn; [reflexivity|]. rewrite Hc.
  destruct (f c); [exact IH | reflexivity].
Qed.

Lemma dropWhileEnd_map {A} (f : A -> bool) (g : A -> A) l :
  Forall (fun c => f (g c) = f c) l ->
  dropWhileEnd f (List.map g l) = List.map g (dropWhileEnd f l).
Proof.
  induction 1 as [|c l Hc _ IH]; cbn; [reflexivity|]. rewrite IH, Hc.
  destruct (dropWhileEnd f l); cbn; [destruct (f c)|]; reflexivity.
Qed.

Lemma trim_map g s :
  Forall (fun c => isSpace (g c) = isSpace c) s -> trim (List.map g s) = List.map g (trim s).
Proof.
  intros H. unfold trim. rewrite dropWhile_map by exact H.
  apply dropWhileEnd_map, Forall_dropWhile, H.
Qed.

Lemma collapse_from_map g b s :
  g 32 = 32 -> Forall (fun c => isSpace (g c) = isSpace c) s ->
  collapse_from b (List.map g s) = List.map g (collapse_from b s).
Proof.
  intros H32 H. revert b. induction H as [|c l Hc _ IH]; intros b; cbn; [reflexivity|].
  rewrite Hc. destruct (isSpace c); [destruct b|]; cbn; rewrite ?H32, IH; reflexivity.
Qed.

Lemma map_filter_map_agree {A B C} (P : B -> bool) (k : B -> C) (g h : A -> B) s :
  Forall (fun c => P (g c) = P (h c) /\ (P (h c) = true -> k (g c) = k (h c))) s ->
  List.map k (List.filter P (List.map g s)) = List.map k (List.filter P (List.map h s)).
Proof.
  induction 1 as [|c l [H1 H2] _ IH]; cbn; [reflexivity|]. rewrite H1.
  destruct (P (h c)); cbn; [rewrite H2, IH by reflexivity|]; auto.
Qed.

Lemma filter_map_comm {A B} (P : B -> bool) (g : A -> B) s :
  List.filter P (List.map g s) = List.map g (List.filter (fun c => P (g c)) s).
Proof.
  induction s as [|c s IH]; cbn; [reflexivity|].
  destruct (P (g c)); cbn; rewrite IH; reflexivity.
Qed.

(* lower case, below U+0100 *)
Lemma latin1_lower_facts c :
  c < 256 ->
  isSpace (Latin1.lower c) = isSpace c
  /\ Latin1.wordChar (Latin1.base (Latin1.lower c)) = Latin1.wordChar (Latin1.base c)
  /\ Latin1.lower (Latin1.base (Latin1.lower c)) = Latin1.lower (Latin1.base c)
  /\ Latin1.base (Latin1.lower c) = Latin1.lower (Latin1.base c).
Proof.
  intros Hc.
  apply (below_256 (fun c =>
           Bool.eqb (isSpace (Latin1.lower c)) (isSpace c)
           && Bool.eqb (Latin1.wordChar (Latin1.base (Latin1.lower c)))
                       (Latin1.wordChar (Latin1.base c))
           && (Latin1.lower (Latin1.base (Latin1.lower c)) =? Latin1.lower (Latin1.base c))
           && (Latin1.base (Latin1.lower c) =? Latin1.lower (Latin1.base c)))) in Hc;
    [|vm_compute; reflexivity].
  rewrite !andb_true_iff, !eqb_true_iff, !N.eqb_eq in Hc. tauto.
Qed.

(* the letter without its diacritics, below U+0100 *)
Lemma latin1_base_facts c :
  c < 256 ->
  isSpace (Latin1.base c) = isSpace c /\ Latin1.base (Latin1.base c) = Latin1.base c.
Proof.
  intros Hc.
  apply (below_256 (fun c =>
           Bool.eqb (isSpace (Latin1.base c)) (isSpace c)
           && (Latin1.base (Latin1.base c) =? Latin1.base c))) in Hc;
    [|vm_compute; reflexivity].
  rewrite !andb_true_iff, !eqb_true_iff, !N.eqb_eq in Hc. tauto.
Qed.

Lemma normalizeDefault_lower p :
  Latin1.inRange p ->
  Latin1.normalizeDefault (List.map Latin1.lower p) = Latin1.normalizeDefault p.
Proof.
  intros Hp. unfold Latin1.normalizeDefault, collapse.
  assert (Hs : forall s, Latin1.inRange s ->
                 Forall (fun c => isSpace (Latin1.lower c) = isSpace c) s).
  { intros s Hs. eapply Forall_impl; [exact Hs|]. intros c Hc.
    apply (latin1_lower_facts c Hc). }
  rewrite trim_map by (apply Hs, Hp).
  rewrite collapse_from_map by (reflexivity || apply Hs, Forall_trim, Hp).
  rewrite List.map_map.
  apply (map_filter_map_agree Latin1.wordChar Latin1.lower
           (fun c => Latin1.base (Latin1.lower c)) Latin1.base).
  eapply Forall_impl; [exact (inRange_collapse_trim p Hp)|]. intros c Hc.
  destruct (latin1_lower_facts c Hc) as (_ & H1 & H2 & _).
  split; [exact H1 | intros _; exact H2].
Qed.

Lemma normalizeDefault_base p :
  Latin1.inRange p ->
  Latin1.normalizeDefault (List.map Latin1.base p) = Latin1.normalizeDefault p.
Proof.
  intros Hp. unfold Latin1.normalizeDefault, collapse.
  assert (Hs : forall s, Latin1.inRange s ->
                 Forall (fun c => isSpace (Latin1.base c) = isSpace c) s).
  { intros s Hs. eapply Forall_impl; [exact Hs|]. intros c Hc.
    apply (latin1_base_facts c Hc). }
  rewrite trim_map by (apply Hs, Hp).
  rewrite collapse_from_map by (reflexivity || apply Hs, Forall_trim, Hp).
  rewrite List.map_map.
  apply (map_filter_map_agree Latin1.wordChar Latin1.lower
           (fun c => Latin1.base (Latin1.base c)) Latin1.base).
  eapply Forall_impl; [exact (inRange_collapse_trim p Hp)|]. intros c Hc.
  destruct (latin1_base_facts c Hc) as (_ & H1). rewrite H1. split; reflexivity.
Qed.

Lemma lower_no_umlaut c :
  c < 256 -> umlaut c = false ->
  Latin1.lower c <> 223 /\ Latin1.lower c <> 228 /\ Latin1.lower c <> 246
  /\ Latin1.lower c <> 252.
Proof.
  intros Hc.
  apply (below_256 (fun c => implb (negb (umlaut c))
           (negb (Latin1.lower c =? 223) && negb (Latin1.lower c =? 228)
            && negb (Latin1.lower c =? 246) && negb (Latin1.lower c =? 252)))) in Hc;
    [|vm_compute; reflexivity].
  intros Hu. rewrite Hu in Hc. cbn [negb implb] in Hc.
  rewrite !andb_true_iff, !negb_true_iff, !N.eqb_neq in Hc. tauto.
Qed.

Lemma normalizeGerman_without_umlauts p :
  Latin1.inRange p -> Forall (fun c => umlaut c = false) p ->
  Latin1.normalizeGerman p = Latin1.normalizeDefault p.
Proof.
  intros Hp Hu. unfold Latin1.normalizeGerman, Latin1.normalizeDefault.
  set (s := collapse (trim p)).
  assert (Hs : Latin1.inRange s) by (apply inRange_collapse_trim, Hp).
  assert (Hsu : Forall (fun c => umlaut c = false) s).
  { apply Forall_collapse_from; [reflexivity|]. apply Forall_trim, Hu. }
  assert (Hg : germanLetters (List.map Latin1.lower s) = List.map Latin1.lower s).
  { assert (H : Forall (fun c => c <> 223 /\ c <> 228 /\ c <> 246 /\ c <> 252)
                       (List.map Latin1.lower s)).
    { apply Forall_map. unfold Latin1.inRange in Hs. rewrite Forall_forall in Hs, Hsu.
      apply Forall_forall. intros c Hc. apply lower_no_umlaut; auto. }
    unfold germanLetters.
    rewrite (replaceChar_absent 223), (replaceChar_absent 228), (replaceChar_absent 246),
            (replaceChar_absent 252);
      [reflexivity | eapply Forall_impl; [exact H|]; cbv beta; tauto ..]. }
  rewrite Hg, List.map_map, !filter_map_comm, List.map_map.
  assert (Hf : List.filter (fun c => Latin1.wordChar (Latin1.base (Latin1.lower c))) s
               = List.filter (fun c => Latin1.wordChar (Latin1.base c)) s).
  { apply (filter_agree (fun c => c < 256)); [|exact Hs]. intros c Hc.
    apply (latin1_lower_facts c Hc). }
  rewrite Hf. apply map_ext_in. intros c Hc%List.filter_In.
  destruct Hc as [Hc _]. unfold Latin1.inRange in Hs. rewrite Forall_forall in Hs.
  apply (latin1_lower_facts c). apply Hs, list_elem_of_In, Hc.
Qed.

Section CaseAndDiacritics.
Context {U : Unicode} (host : Latin1Host U).

(** X29. For a phrase below U+0100 the default normalizer tells neither
    the case of the letters nor their diacritics: the phrase in lower case,
    and the phrase without its diacritics, are normalized to what the phrase
    is normalized to. *)
Theorem default_normalizer_ignores_case_and_diacritics p :
  Latin1.inRange p ->
  Normalizer.code normalizer_default (toLowerCase p) = Normalizer.code normalizer_default p
  /\ Normalizer.code normalizer_default (stripDiacrics p)
     = Normalizer.code normalizer_default p.
Proof.
  intros Hp.
  rewrite (lower_latin1 U host p Hp), (stripDiacrics_latin1 host p Hp).
  rewrite !(default_latin1 host) by (exact Hp || apply inRange_map_lower, Hp
                                     || apply inRange_map_base, Hp).
  split; [apply normalizeDefault_lower | apply normalizeDefault_base]; exact Hp.
Qed.

(** X30. The German normalizer differs from the default one by the letters
    it spells out only: a phrase below U+0100 without ß, ä, ö, ü, Ä, Ö and Ü
    is normalized by both to the same. *)
Theorem German_normalizer_is_the_default_one_without_umlauts p :
  Latin1.inRange p -> Forall (fun c => umlaut c = false) p ->
  Normalizer.code normalizer_German p = Normalizer.code normalizer_default p.
Proof.
  intros Hp Hu. rewrite (German_latin1 host p Hp), (default_latin1 host p Hp).
  apply normalizeGerman_without_umlauts; assumption.
Qed.

End CaseAndDiacritics.

(** X29, for "Über" with the tables of the two blocks: "über" and "Uber"
    are normalized to "uber", as "Über" is. *)
Lemma default_normalizer_ignores_case_and_diacritics_witness :
  Normalizer.code normalizer_default (toLowerCase Uber) = Normalizer.code normalizer_default Uber
  /\ Normalizer.code normalizer_default (stripDiacrics Uber)
     = Normalizer.code normalizer_default Uber.
Proof.
  apply (default_normalizer_ignores_case_and_diacritics ucd_latin1_host Uber).
  exact inRange_Uber.
Defined.

(** X30, for "Élan  vital" with the tables of the two blocks. *)
Lemma German_normalizer_is_the_default_one_without_umlauts_witness :
  Normalizer.code normalizer_German (201 :: str "lan  vital")
  = Normalizer.code normalizer_default (201 :: str "lan  vital").
Proof.
  apply (German_normalizer_is_the_default_one_without_umlauts ucd_latin1_host
           (201 :: str "lan  vital"));
    repeat constructor.
Defined.

(** ** The relations of a project *)

Lemma loop_singles relation names rest :
  Forall (fun s : jsstring => exists c, s = [c]) names ->
  reverseRelation_loop relation (names ++ rest)
  = if bool_decide (relation ∈ names) then RevUndefined
    else reverseRelation_loop relation rest.
Proof.
  induction 1 as [|s names [c ->] _ IH]; cbn [app reverseRelation_loop].
  - reflexivity.
  - unfold charAt. cbn. destruct (decide (Some [c] = Some relation)) as [E|E].
    + injection E as <-. rewrite !bool_decide_eq_true_2; [reflexivity | left | reflexivity].
    + rewrite (bool_decide_eq_false_2 _ E).
      rewrite bool_decide_eq_false_2 by discriminate. rewrite IH.
      destruct (decide (relation ∈ names)) as [Hin|Hin].
      * rewrite !bool_decide_eq_true_2; [reflexivity | right; exact Hin | exact Hin].
      * rewrite !bool_decide_eq_false_2; [reflexivity | | exact Hin].
        intros [->|H]%elem_of_cons; [apply E; reflexivity | exact (Hin H)].
Qed.

Lemma forIn_take {A} (array : list A) :
  take 10 (forIn array)
  = List.map (fun n => toString (Z.of_nat n)) (seq 0 (Nat.min (length array) 10))
  /\ forIn array
     = take 10 (forIn array)
       ++ List.map (fun n => toString (Z.of_nat n))
            (seq (Nat.min (length array) 10) (length array - Nat.min (length array) 10)).
Proof.
  assert (E : take 10 (forIn array)
              = List.map (fun n => toString (Z.of_nat n))
                         (seq 0 (Nat.min (length array) 10))).
  { unfold forIn. rewrite <- fmap_take, take_seq.
    replace (Nat.min 10 (length array)) with (Nat.min (length array) 10) by lia.
    reflexivity. }
  split; [exact E|]. rewrite E. unfold forIn. rewrite <- map_app, <- seq_app.
  do 2 f_equal. lia.
Qed.

(** X2. What [reverseRelation] answers: [undefined] when the relation is
    one of the first ten indices of the array of pairs of the project,
    written as a number, and [null] when it is anything else.  The pairs
    themselves are not looked at. *)
Theorem reverseRelation_answers_undefined_or_null project relation i info :
  snd (findProject project i) = Some info ->
  reverseRelation project relation i
  = Ok (if bool_decide (relation ∈ take 10 (forIn (Project.relations info)))
        then RevUndefined else RevNull).
Proof.
  intros Hf. unfold reverseRelation. rewrite Hf. f_equal.
  set (array := Project.relations info). set (n := length array).
  destruct (forIn_take array) as [Hten Hsplit]. fold n in Hten, Hsplit.
  rewrite Hsplit at 1. rewrite loop_singles.
  2:{ rewrite Hten. apply Forall_map, Forall_forall. intros k Hk.
      apply list_elem_of_In, in_seq in Hk.
      exists (48 + N.of_nat k). apply toString_small. lia. }
  case_bool_decide as Hin; [reflexivity|].
  destruct (Nat.le_gt_cases n 10) as [Hn|Hn].
  - replace (n - Nat.min n 10)%nat with 0%nat by lia. reflexivity.
  - apply loop_digits.
    + intros c -> [Hc1 Hc2]. apply Hin. rewrite Hten.
      apply list_elem_of_In, in_map_iff. exists (N.to_nat (c - 48)). split.
      * rewrite toString_small by lia. f_equal. lia.
      * apply in_seq. lia.
    + apply Forall_map, Forall_forall. intros k _. apply toString_digit.
Qed.

(** X2, for the default project: "0", the index of its one pair, gives
    [undefined], and "see also" gives [null]. *)
Lemma reverseRelation_answers_undefined_or_null_witness :
  reverseRelation (ByPk 0) (str "0") (index fresh) = Ok RevUndefined
  /\ reverseRelation (ByPk 0) (str "see also") (index fresh) = Ok RevNull.
Proof.
  split.
  - rewrite (reverseRelation_answers_undefined_or_null (ByPk 0) (str "0") (index fresh)
               makeDefaultProject eq_refl).
    reflexivity.
  - rewrite (reverseRelation_answers_undefined_or_null (ByPk 0) (str "see also")
               (index fresh) makeDefaultProject eq_refl).
    reflexivity.
Defined.

Lemma charAt_digit s n r :
  Forall Latin1.digit s -> charAt s n = Some r -> exists c, Latin1.digit c /\ r = [c].
Proof.
  intros Hs. unfold charAt.
  intros H. apply fmap_Some in H as (c & E & ->). exists c. split; [|reflexivity].
  rewrite Forall_forall in Hs. apply Hs. eapply list_elem_of_lookup_2. exact E.
Qed.

Lemma Forall_setAdd {A} `{EqDecision A} (P : A -> Prop) x (s : list A) :
  P x -> Forall P s -> Forall P (setAdd x s).
Proof.
  intros Hx Hs. unfold setAdd. case_bool_decide; [exact Hs|].
  apply Forall_app. split; [exact Hs | constructor; [exact Hx | constructor]].
Qed.

(** X1. A string in the set that [relationsForProject] gives is one decimal
    digit, a character of an index of the array of pairs of the project,
    whatever the relations are called: a relation is in the set only when
    its name happens to be such a digit. *)
Theorem relationsForProject_holds_digits_only project i s r :
  relationsForProject project i = Ok s ->
  Some r ∈ s -> exists c, Latin1.digit c /\ r = [c].
Proof.
  unfold relationsForProject.
  destruct (snd (findProject project i)) as [info|]; [|discriminate].
  intros [= <-]. unfold forIn.
  set (names := List.map _ _).
  assert (Hn : Forall (Forall Latin1.digit) names).
  { apply Forall_map, Forall_forall. intros k _. apply toString_digit. }
  set (P := fun m : option jsstring =>
              forall r, m = Some r -> exists c, Latin1.digit c /\ r = [c]).
  assert (HP : forall acc, Forall P acc ->
             Forall P (fold_left (fun relations pair_ =>
                         setAdd (charAt pair_ 1) (setAdd (charAt pair_ 0) relations))
                       names acc)).
  { induction Hn as [|name names Hname _ IH]; intros acc Hacc; cbn [fold_left]; [exact Hacc|].
    apply IH. apply Forall_setAdd; [|apply Forall_setAdd; [|exact Hacc]];
      intros r' E; exact (charAt_digit _ _ _ Hname E). }
  intros Hin. specialize (HP [] (Forall_nil_2 _)). rewrite Forall_forall in HP.
  exact (HP _ Hin r eq_refl).
Qed.

(** X1, for the default project, whose relations are "see also" and
    "see also": the set is {"0", undefined}. *)
Lemma relationsForProject_holds_digits_only_witness :
  relationsForProject (ByPk 0) (index fresh) = Ok [Some (str "0"); None]
  /\ exists c, Latin1.digit c /\ str "0" = [c].
Proof.
  split; [reflexivity|].
  apply (relationsForProject_holds_digits_only (ByPk 0) (index fresh)
           [Some (str "0"); None] (str "0")); [reflexivity | left].
Defined.

(** ** [missing] *)

Lemma jsmap_set_values {K V} `{EqDecision K} (P : V -> Prop) (k : K) (v : V) m :
  P v -> Forall P (JsMap.values m) -> Forall P (JsMap.values (JsMap.set k v m)).
Proof.
  intros Hv. unfold JsMap.values. induction m as [|[k' v'] m IH]; cbn; intros H.
  - repeat constructor. exact Hv.
  - inversion H as [|? ? H1 H2]; subst. destruct (decide (k = k')); cbn.
    + constructor; assumption.
    + constructor; [exact H1 | apply IH, H2].
Qed.

Lemma of_entries_values {K V} `{EqDecision K} (P : V -> Prop) (l : list (K * V)) :
  Forall P (List.map snd l) -> Forall P (JsMap.values (JsMap.of_entries l)).
Proof.
  unfold JsMap.of_entries.
  assert (H : forall m, Forall P (JsMap.values m) -> Forall P (List.map snd l) ->
                Forall P (JsMap.values
                            (fold_left (fun m kv => JsMap.set (fst kv) (snd kv) m) l m))).
  { induction l as [|[k v] l IH]; intros m Hm Hl; cbn; [exact Hm|].
    inversion Hl; subst. apply IH; [apply jsmap_set_values|]; assumption. }
  apply H. constructor.
Qed.

Lemma jsmap_get_values {K V} `{EqDecision K} (k : K) (v : V) m :
  JsMap.get k m = Some v -> v ∈ JsMap.values m.
Proof.
  unfold JsMap.values. induction m as [|[k' v'] m IH]; cbn; [discriminate|].
  destruct (decide (k = k')); [intros [= ->]; left | intros H; right; apply IH, H].
Qed.

Lemma max_bound (l : list nat) n : n ∈ l -> (n <= fold_right Nat.max 0 l)%nat.
Proof.
  induction l as [|m l IH]; [intros H; inversion H|].
  intros [->|H]%elem_of_cons; cbn; [lia|]. specialize (IH H). lia.
Qed.

Lemma setOfPairs_from (P : PairObject.t -> Prop) array s :
  Forall P s -> Forall P array ->
  Forall P (fold_left (fun s p =>
               if existsb (fun q => (PairObject.identity q =? PairObject.identity p)%nat) s
               then s else s ++ [p]) array s).
Proof.
  revert s. induction array as [|p array IH]; intros s Hs Ha; cbn [fold_left]; [exact Hs|].
  inversion Ha; subst. apply IH; [|assumption].
  destruct (existsb _ s); [exact Hs|]. apply Forall_app. split; [exact Hs|].
  repeat constructor. assumption.
Qed.

Lemma deletePair_other p s :
  Forall (fun q => PairObject.identity q <> PairObject.identity p) s -> deletePair p s = s.
Proof.
  unfold deletePair. induction 1 as [|q s Hq _ IH]; cbn; [reflexivity|].
  apply Nat.eqb_neq in Hq. rewrite Hq, IH. reflexivity.
Qed.

(** X3. The set that [missing] resolves to holds every pair whose note is
    not cached, whatever the store holds: the arrays it deletes from the set
    are those it has just made for its map, which are not in the set. *)
Theorem missing_keeps_what_the_store_holds maybeMissing w s :
  fst (missing maybeMissing w) = Resolved s ->
  s = setOfPairs
        (List.filter
           (fun p => negb (JsMap.has (pairKey (PairObject.pair p)) (cache (index w))))
           maybeMissing).
Proof.
  unfold missing, promise.
  set (pairs := List.filter _ maybeMissing).
  set (new := S (fold_right Nat.max 0%nat (List.map PairObject.identity maybeMissing))).
  destruct pairs as [|p0 pairs'] eqn:Ep; [cbn; intros [= <-]; reflexivity|].
  rewrite <- Ep. clear Ep p0 pairs'.
  set (map := JsMap.of_entries _).
  rewrite run_bind. unfold storageGet, calling.
  destruct (Storage.get (JsMap.keys map) (chrome (index w))) as [[found|e] c]; cbn;
    [|discriminate].
  intros [= <-].
  assert (Hold : Forall (fun q => PairObject.identity q < new)%nat (setOfPairs pairs)).
  { apply setOfPairs_from; [constructor|]. apply Forall_forall. intros q Hq.
    subst pairs. apply list_elem_of_In, List.filter_In in Hq. destruct Hq as [Hq _].
    unfold new. apply Nat.lt_succ_r, max_bound, list_elem_of_In, in_map, Hq. }
  assert (Hnew : Forall (fun q => new <= PairObject.identity q)%nat (JsMap.values map)).
  { apply of_entries_values. apply Forall_forall. intros q Hq.
    apply list_elem_of_In, in_map_iff in Hq. destruct Hq as [[k q'] [<- Hq]].
    apply list_elem_of_In, elem_of_lookup_imap in Hq. destruct Hq as (n & p & [= _ ->] & _).
    cbn. lia. }
  induction (JsMap.keys found) as [|key keys IH]; cbn [fold_left]; [reflexivity|].
  destruct (JsMap.get key map) as [p|] eqn:E; [|exact IH].
  rewrite deletePair_other; [exact IH|].
  apply jsmap_get_values in E. rewrite Forall_forall in Hnew. specialize (Hnew p E).
  eapply Forall_impl; [exact Hold|]. cbv beta. intros q Hq. lia.
Qed.

(** X3, for the pair of "cat" once the program is started again: the note
    [0:0] is in the store, and its pair is in the set all the same. *)
Lemma missing_keeps_what_the_store_holds_witness :
  is_Some (local (chrome (index catStored)) !! str "0:0")
  /\ fst (missing [catPair] catStored) = Resolved [catPair]
  /\ [catPair] = setOfPairs [catPair].
Proof.
  split; [eexists; vm_compute; reflexivity|].
  split; [vm_compute; reflexivity|].
  apply (missing_keeps_what_the_store_holds [catPair] catStored [catPair]).
  vm_compute. reflexivity.
Defined.

(** ** The parts of the index that a computation leaves *)

Section Leaves.
Context {X : Type} (part : Index -> X).

Lemma leaves_ret {A} (a : A) : leaves part (ret a).
Proof. intros w. reflexivity. Qed.

Lemma leaves_mret {A} (a : A) : leaves part (mret a : M A).
Proof. intros w. reflexivity. Qed.

Lemma leaves_throw {A} e : leaves part (throw e : M A).
Proof. intros w. reflexivity. Qed.

Lemma leaves_bind {A B} (m : M A) (k : A -> M B) :
  leaves part m -> (forall a, leaves part (k a)) -> leaves part (m ≫= k).
Proof.
  intros Hm Hk w. unfold mbind, M_bind, bind.
  specialize (Hm w). destruct (m w) as [[a|e] w1]; cbn in *.
  - rewrite (Hk a w1). exact Hm.
  - exact Hm.
Qed.

(** What comes after a reading needs to leave the part only for what can be
    read. *)
Lemma leaves_bind_reading {A B} (f : Index -> Result A) (k : A -> M B) :
  (forall a, (exists i, f i = Ok a) -> leaves part (k a)) ->
  leaves part (reading f ≫= k).
Proof.
  intros H w. unfold mbind, M_bind, bind, reading.
  destruct (f (index w)) as [a|e] eqn:E; [|reflexivity].
  apply (H a). exists (index w). exact E.
Qed.

Lemma leaves_this : leaves part this.
Proof. intros w. reflexivity. Qed.

Lemma leaves_reading {A} (f : Index -> Result A) : leaves part (reading f).
Proof. intros w. reflexivity. Qed.

Lemma leaves_defined {A} (o : option A) : leaves part (defined o).
Proof. destruct o; intros w; reflexivity. Qed.

Lemma leaves_readObj l : leaves part (readObj l).
Proof. intros w. unfold readObj. destruct (heap w !! l); reflexivity. Qed.

Lemma leaves_writeObj l j : leaves part (writeObj l j).
Proof. intros w. reflexivity. Qed.

Lemma leaves_alloc j : leaves part (alloc j).
Proof. intros w. reflexivity. Qed.

Lemma leaves_noteAt l : leaves part (noteAt l).
Proof. apply leaves_bind; [apply leaves_readObj | intros; apply leaves_defined]. Qed.

Lemma leaves_deepClone o : leaves part (deepClone o).
Proof.
  destruct o as [l|]; cbn; [|apply leaves_ret].
  apply leaves_bind; [apply leaves_readObj|]. intros j.
  apply leaves_bind; [apply leaves_alloc | intros; apply leaves_ret].
Qed.

Lemma leaves_update f : (forall i, part (f i) = part i) -> leaves part (update f).
Proof. intros H w. apply H. Qed.

Lemma leaves_calling {A} (op : Chrome -> Reply A * Chrome) :
  (forall i, part (withChrome (snd (op (chrome i))) i) = part i) ->
  leaves part (calling op).
Proof. intros H w. unfold calling. specialize (H (index w)). destruct (op _). exact H. Qed.

Lemma leaves_storageSet s :
  (forall items i, part (withChrome (snd (Storage.set items (chrome i))) i) = part i) ->
  leaves part (storageSet s).
Proof. intros H w. unfold storageSet. apply leaves_calling. apply H. Qed.

Lemma leaves_callback {A} (m : M (Outcome A)) : leaves part m -> leaves part (callback m).
Proof.
  intros H w. unfold callback. specialize (H w). destruct (m w) as [[o|e] w1]; exact H.
Qed.

Lemma leaves_foldM {A B} (f : B -> A -> M B) l b :
  (forall b a, leaves part (f b a)) -> leaves part (foldM f l b).
Proof.
  intros H. revert b. induction l as [|x l IH]; intros b; cbn.
  - apply leaves_ret.
  - apply leaves_bind; [apply H | intros; apply IH].
Qed.

Lemma leaves_filterM {A} (f : A -> M bool) l :
  (forall a, leaves part (f a)) -> leaves part (filterM f l).
Proof.
  intros H. induction l as [|x l IH]; cbn.
  - apply leaves_ret.
  - apply leaves_bind; [apply H|]. intros b.
    apply leaves_bind; [apply IH | intros; apply leaves_ret].
Qed.

Lemma leaves_promise {A} (m : M (Outcome A)) w :
  leaves part m -> part (index (snd (promise m w))) = part (index w).
Proof. intros H. rewrite snd_promise. apply H. Qed.

End Leaves.

Ltac leaves_step :=
  first
    [ apply leaves_ret | apply leaves_mret | apply leaves_this | apply leaves_noteAt
    | apply leaves_reading | apply leaves_alloc | apply leaves_readObj
    | apply leaves_writeObj | apply leaves_throw | apply leaves_defined
    | apply leaves_deepClone
    | apply leaves_callback
    | apply leaves_foldM; intros
    | apply leaves_filterM; intros
    | apply leaves_bind; [|intros]
    | match goal with
      | |- leaves _ (match ?x with _ => _ end) => destruct x
      | |- leaves _ (if ?b then _ else _) => destruct b
      end ].

Section LeavesAdd.
Context {U : Unicode} {X : Type} (part : Index -> X).

Lemma leaves_add_mirror info relation keyPair p acc :
  leaves part (add_mirror info relation keyPair p acc).
Proof. unfold add_mirror. destruct acc as [rev storable]. repeat leaves_step. Qed.

Lemma leaves_add_pairs fuel n data info relation keyPair acc :
  leaves part (add_pairs fuel n data info relation keyPair acc).
Proof.
  revert n acc. induction fuel as [|fuel IH]; intros n acc; cbn; [apply leaves_ret|].
  apply leaves_bind; [apply leaves_noteAt|]. intros d.
  destruct (_ ≫= _); [|apply leaves_ret].
  apply leaves_bind; [apply leaves_add_mirror | intros; apply IH].
Qed.

End LeavesAdd.

(** A part that no call of the store and no change of the index at hand
    touches. *)
Ltac leaves_tac :=
  solve [ repeat first [ apply leaves_calling; intros; reflexivity
                       | apply leaves_storageSet; intros; reflexivity
                       | apply leaves_update; intros; reflexivity
                       | apply leaves_add_pairs
                       | leaves_step ] ].

(** Reading the store leaves what is stored. *)
Lemma local_get keys c : local (snd (Storage.get keys c)) = local c.
Proof. unfold Storage.get, Storage.next. destruct (faults c) as [|[e|] fs]; reflexivity. Qed.

(** ** How a computation ends *)

Lemma post_ret {A} (Q : A -> Prop) a : Q a -> post Q (ret a).
Proof. intros H w a' [= <-]. exact H. Qed.

Lemma post_throw {A} (Q : A -> Prop) e : post Q (throw e).
Proof. intros w a [=]. Qed.

Lemma post_bind_with {A B} (R : A -> Prop) (Q : B -> Prop) (m : M A) (k : A -> M B) :
  post R m -> (forall a, R a -> post Q (k a)) -> post Q (m ≫= k).
Proof.
  intros Hm Hk w b. unfold mbind, M_bind, bind. specialize (Hm w).
  destruct (m w) as [[a|e] w1]; cbn in *; [|discriminate].
  apply (Hk a (Hm a eq_refl)).
Qed.

Lemma post_bind {A B} (Q : B -> Prop) (m : M A) (k : A -> M B) :
  (forall a, post Q (k a)) -> post Q (m ≫= k).
Proof.
  intros Hk. apply (post_bind_with (fun _ => True)); [intros w a _; exact I | auto].
Qed.

Lemma post_callback {A} (Q : Outcome A -> Prop) (m : M (Outcome A)) :
  Q Pending -> post Q m -> post Q (callback m).
Proof.
  intros HP Hm w o. unfold callback. specialize (Hm w).
  destruct (m w) as [[o'|e] w1]; cbn in *; intros [= <-]; [apply Hm; reflexivity | exact HP].
Qed.

Lemma post_reading {A} (Q : A -> Prop) (f : Index -> Result A) :
  (forall i a, f i = Ok a -> Q a) -> post Q (reading f).
Proof. intros H w a. cbn. apply H. Qed.

Lemma post_filterM_none {A} (f : A -> M bool) l :
  (forall x, post (fun b => b = false) (f x)) -> post (fun r => r = []) (filterM f l).
Proof.
  intros H. induction l as [|x l IH]; cbn [filterM].
  - apply post_ret. reflexivity.
  - apply (post_bind_with (fun b => b = false)); [apply H|]. intros b ->.
    apply (post_bind_with (fun r => r = [])); [exact IH|]. intros r ->.
    apply post_ret. reflexivity.
Qed.

Lemma post_promise {A} (Q : Outcome A -> Prop) (m : M (Outcome A)) w :
  (forall e, Q (Rejected e)) -> post Q m -> Q (fst (promise m w)).
Proof.
  intros HR Hm. unfold promise. specialize (Hm w).
  destruct (m w) as [[o|e] w1]; cbn in *; [apply Hm; reflexivity | apply HR].
Qed.

Lemma under_bind {X A B} (part : Index -> X) (x : X) (Q : Result B -> World -> Prop)
    (m : M A) (k : A -> M B) :
  leaves part m ->
  (forall e w, part (index w) = x -> Q (Throw e) w) ->
  (forall a, under (fun w => part (index w) = x) Q (k a)) ->
  under (fun w => part (index w) = x) Q (m ≫= k).
Proof.
  intros Hm He Hk w Hw. unfold mbind, M_bind, bind. specialize (Hm w).
  destruct (m w) as [[a|e] w1]; cbn in *.
  - apply Hk. rewrite Hm. exact Hw.
  - apply He. rewrite Hm. exact Hw.
Qed.

Lemma under_callback {A} (P : World -> Prop) (Q : Result (Outcome A) -> World -> Prop)
    (m : M (Outcome A)) :
  under P (fun r w => match r with Ok o => Q (Ok o) w | Throw _ => Q (Ok Pending) w end) m ->
  under P Q (callback m).
Proof.
  intros H w Hw. unfold callback. specialize (H w Hw).
  destruct (m w) as [[o|e] w1]; exact H.
Qed.

Lemma under_ret {A} (P : World -> Prop) (Q : Result A -> World -> Prop) (a : A) :
  (forall w, P w -> Q (Ok a) w) -> under P Q (ret a).
Proof. intros H w Hw. apply H, Hw. Qed.

(** The steps of a computation on a world that is known. *)
Ltac run :=
  repeat first
    [ rewrite run_bind
    | progress cbn [this ret mret M_ret update throw defined reading fst snd index heap
                    chrome local faults bytesInUse Storage.withLocal withChrome
                    projects currentProject projectIndices tags reverseProjectIndex cache
                    withProjects withCurrentProject withProjectIndices withTags
                    withReverseProjectIndex withCache settle fold_left omap list_omap]
    | progress unfold callback, storageSet, storageGet, storageClear, storageRemove,
                      calling, Storage.set, Storage.get, Storage.clear, Storage.remove,
                      Storage.next, alloc, readObj, writeObj, deepClone, noteAt ].

(** ** [find] *)

Section Find.
Context {U : Unicode}.

Lemma lookup_keys_none phrase (projects : list Z) w (keys : list (Z * Z)) :
  (forall pk, In pk projects -> projectIndex phrase (ByPk pk) (index w) = Ok None) ->
  foldM (fun keys pk =>
           r ← reading (projectIndex phrase (ByPk pk));
           ret (match r with Some n => keys ++ [(pk, n)] | None => keys end))
        projects keys w
  = (Ok keys, w).
Proof.
  revert keys. induction projects as [|pk projects IH]; intros keys H; cbn [foldM].
  - reflexivity.
  - rewrite run_bind, run_bind. unfold reading at 1. rewrite (H pk (or_introl eq_refl)).
    cbn [ret]. apply IH. intros pk' Hin. apply H. right. exact Hin.
Qed.

(** X4. A lookup of a phrase that no project asked has in its phrase index
    resolves to "none", and leaves the index, the objects and the store as
    they are: the store is not asked. *)
Theorem lookup_of_a_phrase_that_is_not_indexed phrase project w :
  (forall pk, In pk (match project with None => allProjects (index w) | Some p => [p] end) ->
              projectIndex phrase (ByPk pk) (index w) = Ok None) ->
  find (lookup phrase project) w = (Resolved state_none, w).
Proof.
  intros H. unfold find, promise, find_lookup. rewrite run_bind. cbn [this].
  rewrite run_bind, (lookup_keys_none _ _ _ _ H). reflexivity.
Qed.

(** X5. A lookup of a note that is in the store and not in the cache
    resolves to "found" with a new object for the note, and puts a copy of
    it in the cache: another object, with the same contents. *)
Theorem lookup_in_the_store_caches_a_copy phrase pk n w j :
  projectIndex phrase (ByPk pk) (index w) = Ok (Some n) ->
  (forall l, JsMap.get (noteKey pk n) (cache (index w)) <> Some (Some l)) ->
  hd None (faults (chrome (index w))) = None ->
  local (chrome (index w)) !! noteKey pk n = Some j ->
  let w' := snd (find (lookup phrase (Some pk)) w) in
  fst (find (lookup phrase (Some pk)) w)
  = Resolved (state_found (Some pk, Some (length (heap w))))
  /\ heap w' = heap w ++ [j; j]
  /\ cache (index w')
     = JsMap.set (noteKey pk n) (Some (S (length (heap w)))) (cache (index w)).
Proof.
  intros Hpi Hc Hf Hj.
  destruct w as [[[loc b fl] ps cp pis ts rv ch] h].
  cbn [index chrome cache faults local heap] in *.
  unfold find, promise, find_lookup. run. cbn [foldM]. run.
  rewrite Hpi. run. unfold pairKey.
  cbn [app List.filter omap list_omap rev fst snd List.map].
  assert (E : match JsMap.get (noteKey pk n) ch with Some (Some l) => Some l | _ => None end
              = None).
  { destruct (JsMap.get (noteKey pk n) ch) as [[l|]|]; [exfalso; exact (Hc l eq_refl) | |];
      reflexivity. }
  rewrite !E. cbn [fmap option_fmap option_map app List.map fst snd]. run.
  destruct fl as [|[e|] fs]; try discriminate Hf.
  all: cbn [Storage.nodup List.filter]; run; cbn [omap list_omap]; rewrite Hj;
    cbn [fmap option_fmap option_map foldM JsMap.get fst snd]; run;
    rewrite decide_True by reflexivity;
    run; rewrite lookup_app_r by lia;
    rewrite Nat.sub_diag; cbn -[noteKey JsMap.set app]; run;
    rewrite <- app_assoc; repeat split;
    rewrite length_app, Nat.add_1_r; reflexivity.
Qed.

Lemma leaves_storageGet_holdings keys : leaves holdings (storageGet keys).
Proof.
  apply leaves_calling. intros i. unfold holdings. cbn. rewrite local_get. reflexivity.
Qed.

(** X7. Of the index, [find] changes the cache only, whatever the query and
    however it ends: the projects, the current project, the phrase indices
    and the tags are as before, and so is what is stored. *)
Theorem find_changes_the_cache_only query w :
  holdings (index (snd (find query w))) = holdings (index w).
Proof.
  unfold find. apply leaves_promise. destruct query as [phrase project|query].
  - unfold find_lookup.
    repeat first [ apply leaves_storageGet_holdings
                 | apply leaves_update; intros; reflexivity
                 | leaves_step ].
  - unfold find_adHoc.
    repeat first [ apply leaves_storageGet_holdings
                 | apply leaves_update; intros; reflexivity
                 | leaves_step ].
Qed.

(** X9. An ad hoc query that does not say whether the notes are to be
    starred finds nothing: the filter of the candidates answers nothing
    for it, so no candidate is kept, and the query does not resolve to
    "found" or to "ambiguous". *)
Theorem adHoc_find_without_starred_finds_nothing query w :
  AdHoc.starred query = None -> noMatch (fst (find (ad_hoc query) w)).
Proof.
  intros Hs. unfold find. apply post_promise; [intros e; exact I|].
  unfold find_adHoc.
  assert (Hk : forall candidates,
             post noMatch
               (candidates ← filterM (fun m : Match =>
                               match snd m with
                               | Some l =>
                                   note ← readObj l;
                                   reading (fun _ => adHocFilter query note)
                               | None => throw TypeError
                               end) candidates;
                ret (match candidates with
                     | [] => Resolved state_none
                     | [m] => Resolved (state_found m)
                     | _ => Resolved (state_ambiguous candidates)
                     end))).
  { intros candidates. apply (post_bind_with (fun r => r = [])).
    - apply post_filterM_none. intros [pk [l|]]; cbn [snd]; [|apply post_throw].
      apply post_bind. intros note. apply post_reading. intros _ b.
      unfold adHocFilter. rewrite Hs. intros [= <-]. reflexivity.
    - intros r ->. apply post_ret. exact I. }
  repeat first
    [ apply Hk
    | apply post_ret; exact I
    | apply post_callback; [exact I|]
    | apply post_bind; intros
    | match goal with
      | |- post _ (match ?x with _ => _ end) => destruct x
      | |- post _ (if ?b then _ else _) => destruct b
      end ].
Qed.

End Find.

(** X4, for "cat" on a new index. *)
Lemma lookup_of_a_phrase_that_is_not_indexed_witness :
  find (lookup (str "cat") None) fresh = (Resolved state_none, fresh).
Proof.
  apply (lookup_of_a_phrase_that_is_not_indexed (str "cat") None fresh).
  intros pk [<-|[]]. reflexivity.
Defined.

(** X5, for "cat" once the program is started again: the caller gets the
    object at 0, the cache the object at 1. *)
Lemma lookup_in_the_store_caches_a_copy_witness :
  fst (find (lookup (str "cat") (Some 0%Z)) catStored)
  = Resolved (state_found (Some 0%Z, Some 0%nat))
  /\ heap (snd (find (lookup (str "cat") (Some 0%Z)) catStored)) = [JNote cat; JNote cat]
  /\ cache (index (snd (find (lookup (str "cat") (Some 0%Z)) catStored)))
     = [(str "0:0", Some 1%nat)].
Proof.
  apply (lookup_in_the_store_caches_a_copy (str "cat") 0 0 catStored (JNote cat));
    [reflexivity | intros l H; vm_compute in H; discriminate H | reflexivity
    | vm_compute; reflexivity].
Defined.

(** X9, for "cat", which is cached and not starred: a query for the notes
    that are not starred finds it, a query that does not say finds
    nothing. *)
Lemma adHoc_find_without_starred_finds_nothing_witness :
  fst (find (ad_hoc (exactly (str "cat"))) withCat)
  = Resolved (state_found (Some 0%Z, Some 0%nat))
  /\ fst (find (ad_hoc (starredOrNot (str "cat"))) withCat) = Resolved state_none
  /\ noMatch (fst (find (ad_hoc (starredOrNot (str "cat"))) withCat)).
Proof.
  split; [vm_compute; reflexivity|]. split; [vm_compute; reflexivity|].
  apply (adHoc_find_without_starred_finds_nothing (starredOrNot (str "cat")) withCat).
  reflexivity.
Defined.

(** ** [add] *)

(** The key that a loop of [add] or of [saveProject] comes to is past every
    key it has seen, as long as these are below 2^53, where [v + 1] is
    exact. *)
Lemma fold_max_fresh {A} (g : A -> Z) (l : list A) (z : Z) :
  (0 <= z <= 2 ^ 53)%Z ->
  (forall x, In x l -> (g x < 2 ^ 53)%Z) ->
  let n := fold_left (fun pk x => if (pk <=? g x)%Z then Double.add (g x) 1 else pk) l z in
  (z <= n <= 2 ^ 53)%Z /\ forall x, In x l -> (g x < n)%Z.
Proof.
  cbv zeta. revert z. induction l as [|y l IH]; intros z Hz Hl; cbn [fold_left].
  - split; [lia | intros x []].
  - assert (Hy : (g y < 2 ^ 53)%Z) by (apply Hl; left; reflexivity).
    assert (Hl' : forall x, In x l -> (g x < 2 ^ 53)%Z) by (intros x Hx; apply Hl; right; exact Hx).
    destruct (Z.leb_spec z (g y)) as [Hle|Hgt].
    + assert (E : Double.add (g y) 1 = (g y + 1)%Z) by (apply round_exact; lia).
      rewrite E. destruct (IH (g y + 1)%Z ltac:(lia) Hl') as [H1 H2].
      split; [lia|]. intros x [<-|Hin]; [lia | exact (H2 _ Hin)].
    + destruct (IH z Hz Hl') as [H1 H2].
      split; [lia|]. intros x [<-|Hin]; [lia | exact (H2 _ Hin)].
Qed.

(** At 2^53 it is not: [v + 1] is [v] there, and the phrase that comes next
    gets the number of the last one. *)
Lemma nextPk_at_2_53 : nextPk [(str "a", 2 ^ 53)%Z] = (2 ^ 53)%Z.
Proof. reflexivity. Qed.

Lemma set_add_elem tag t x : x ∈ set_add tag t <-> x ∈ t \/ x = tag.
Proof.
  unfold set_add. case_bool_decide as H.
  - split; [left; assumption | intros [?| ->]; assumption].
  - rewrite elem_of_app, list_elem_of_singleton. reflexivity.
Qed.

Lemma set_add_NoDup tag t : NoDup t -> NoDup (set_add tag t).
Proof.
  intros H. unfold set_add. case_bool_decide as Hin; [exact H|].
  apply NoDup_app. split; [exact H|]. split; [|apply NoDup_singleton].
  intros x Hx ->%list_elem_of_singleton. exact (Hin Hx).
Qed.

Lemma set_add_all_elem new t x :
  x ∈ fold_left (fun t tag => set_add tag t) new t <-> x ∈ t \/ x ∈ new.
Proof.
  revert t. induction new as [|tag new IH]; intros t; cbn [fold_left].
  - rewrite elem_of_nil. tauto.
  - rewrite IH, set_add_elem, elem_of_cons. tauto.
Qed.

Lemma set_add_all_NoDup new t :
  NoDup t -> NoDup (fold_left (fun t tag => set_add tag t) new t).
Proof.
  revert t. induction new as [|tag new IH]; intros t H; cbn [fold_left]; [exact H|].
  apply IH, set_add_NoDup, H.
Qed.

Section Add.
Context {U : Unicode}.

(** What [add] leaves in the index, however it ends: the phrase in the
    phrase index, if the project has one, and the object in the cache. *)
Lemma add_registry phrase w pk name info data key :
  findProject (ByPk pk) (index w) = (name, Some info) ->
  normalize phrase (ByInfo info) (index w) = Ok key ->
  let stored := JsMap.get (Project.pk info) (projectIndices (index w)) in
  let idx := default [] stored in
  let n := default (nextPk idx) (JsMap.get key idx) in
  registry (index (snd (add phrase pk data w)))
  = (projects (index w), reverseProjectIndex (index w),
     match stored, JsMap.get key idx with
     | Some _, None =>
         JsMap.set (Project.pk info) (JsMap.set key n idx) (projectIndices (index w))
     | _, _ => projectIndices (index w)
     end,
     JsMap.set (noteKey (Project.pk info) n) (Some data) (cache (index w))).
Proof.
  intros Hf Hn stored idx n. unfold add. rewrite snd_promise.
  rewrite run_bind. cbn [this]. rewrite Hf. cbn [snd].
  rewrite run_bind. unfold reading at 1. cbn [normalizeFor]. rewrite Hn.
  rewrite run_bind. cbn [defined ret].
  fold stored. fold idx. subst n.
  destruct (JsMap.get key idx) as [n|] eqn:Hk; cbn [default from_option id].
  - rewrite run_bind. cbn [ret]. rewrite run_bind. cbn [update].
    match goal with
    | |- context [ (?tail ?w1).2 ] =>
        let H := fresh in
        assert (H : keeps tail) by (repeat keeps_step);
        rewrite (H w1); clear H
    end.
    destruct stored; reflexivity.
  - rewrite run_bind. rewrite run_bind. cbn [update ret]. rewrite run_bind. cbn [update].
    match goal with
    | |- context [ (?tail ?w1).2 ] =>
        let H := fresh in
        assert (H : keeps tail) by (repeat keeps_step);
        rewrite (H w1); clear H
    end.
    destruct stored; reflexivity.
Qed.

(** X11. What [add] has added, a lookup finds: after [add], however it
    ended, a lookup in the same project of any phrase that is normalized to
    the same resolves to "found", with the object that was added. *)
Theorem add_then_lookup phrase phrase' w pk name info data key idx :
  findProject (ByPk pk) (index w) = (name, Some info) ->
  Project.pk info = pk ->
  normalize phrase (ByInfo info) (index w) = Ok key ->
  normalize phrase' (ByInfo info) (index w) = Ok key ->
  JsMap.get pk (projectIndices (index w)) = Some idx ->
  fst (find (lookup phrase' (Some pk)) (snd (add phrase pk data w)))
  = Resolved (state_found (Some pk, Some data)).
Proof.
  intros Hf Hpk Hn Hn' Hidx.
  pose proof (add_registry phrase w pk name info data key Hf Hn) as Hr.
  cbv zeta in Hr. rewrite Hpk, Hidx in Hr. cbn [default from_option id] in Hr.
  set (w' := snd (add phrase pk data w)) in *.
  unfold registry in Hr. injection Hr as Hp Hrv Hi Hc.
  set (n := from_option id (nextPk idx) (JsMap.get key idx)) in *.
  apply (lookup_of_cached phrase' w' pk name info key n data).
  - rewrite <- Hf. apply findProject_registry; assumption.
  - exact Hn'.
  - rewrite Hpk, Hi. subst n. destruct (JsMap.get key idx) as [m|] eqn:Hk; cbn.
    + rewrite Hidx. exact Hk.
    + rewrite jsmap_get_set. cbn. apply jsmap_get_set.
  - rewrite Hc. apply jsmap_get_set.
Qed.

(** X12. A phrase that is new to its project gets a key of its own, as long
    as the numbers in the phrase index of the project are below 2^53: [add]
    puts it in the phrase index with a number that is not negative and
    greater than the number of every phrase the index had, and caches the
    object under the key made of it. *)
Theorem add_gives_a_new_phrase_a_fresh_key phrase w pk name info data key idx :
  findProject (ByPk pk) (index w) = (name, Some info) ->
  normalize phrase (ByInfo info) (index w) = Ok key ->
  JsMap.get (Project.pk info) (projectIndices (index w)) = Some idx ->
  JsMap.get key idx = None ->
  (forall phrase' n', In (phrase', n') idx -> (n' < 2 ^ 53)%Z) ->
  exists n,
    projectIndices (index (snd (add phrase pk data w)))
    = JsMap.set (Project.pk info) (JsMap.set key n idx) (projectIndices (index w))
    /\ JsMap.get (noteKey (Project.pk info) n) (cache (index (snd (add phrase pk data w))))
       = Some (Some data)
    /\ (0 <= n)%Z
    /\ forall phrase' n', In (phrase', n') idx -> (n' < n)%Z.
Proof.
  intros Hf Hn Hidx Hk Hsafe.
  pose proof (add_registry phrase w pk name info data key Hf Hn) as Hr.
  cbv zeta in Hr. rewrite Hidx in Hr. cbn [default from_option id] in Hr. rewrite Hk in Hr.
  cbn [from_option] in Hr. unfold registry in Hr. injection Hr as _ _ Hi Hc.
  exists (nextPk idx). rewrite Hi, Hc. split; [reflexivity|]. split; [apply jsmap_get_set|].
  destruct (fold_max_fresh (fun kv : jsstring * Z => snd kv) idx 0%Z) as [H1 H2];
    [lia | intros [phrase' n'] Hin; exact (Hsafe _ _ Hin) |].
  split; [apply H1|]. intros phrase' n' Hin. exact (H2 _ Hin).
Qed.

(** X13. When the index has no phrase index for the project, which is so
    for the default project once the program is started again with the
    phrase index of another project in the store and none of its own, and
    the normalizer of the project is a registered one, [add] gives every
    phrase the number 0, however it ends: the object is cached under the key
    of the note 0, the phrase index that was made is not kept, and a lookup
    in the project is rejected with a [TypeError]. *)
Theorem add_without_a_phrase_index_uses_key_0 phrase phrase' w pk name info data key :
  findProject (ByPk pk) (index w) = (name, Some info) ->
  normalize phrase (ByInfo info) (index w) = Ok key ->
  JsMap.get (Project.pk info) (projectIndices (index w)) = None ->
  projectIndices (index (snd (add phrase pk data w))) = projectIndices (index w)
  /\ cache (index (snd (add phrase pk data w)))
     = JsMap.set (noteKey (Project.pk info) 0) (Some data) (cache (index w))
  /\ fst (find (lookup phrase' (Some pk)) (snd (add phrase pk data w)))
     = Rejected TypeError.
Proof.
  intros Hf Hn Hidx.
  pose proof (add_registry phrase w pk name info data key Hf Hn) as Hr.
  cbv zeta in Hr. rewrite Hidx in Hr. cbn in Hr.
  unfold registry in Hr. injection Hr as Hp Hrv Hi Hc.
  split; [exact Hi|]. split; [exact Hc|].
  set (w' := snd (add phrase pk data w)) in *.
  assert (Hf' : findProject (ByPk pk) (index w') = (name, Some info)).
  { rewrite <- Hf. apply findProject_registry; assumption. }
  unfold find, promise, find_lookup. rewrite run_bind. cbn [this foldM].
  rewrite !run_bind. unfold reading at 1. unfold projectIndex. rewrite Hf'. cbn [snd].
  rewrite Hi, Hidx. reflexivity.
Qed.

End Add.

(** X11, for "Cat" added to the default project of a new index as the
    object at 0, and looked up as "cat". *)
Lemma add_then_lookup_witness :
  fst (find (lookup (str "cat") (Some 0%Z)) (snd (add (str "Cat") 0 0 catObject)))
  = Resolved (state_found (Some 0%Z, Some 0%nat)).
Proof.
  apply (add_then_lookup (str "Cat") (str "cat") catObject 0 [] makeDefaultProject 0
           (str "cat") []); reflexivity.
Defined.

(** X12, for "dog" added to the default project, which has "cat" as the
    note 0. *)
Lemma add_gives_a_new_phrase_a_fresh_key_witness :
  exists n,
    projectIndices (index (snd (add (str "dog") 0 0 withCat)))
    = JsMap.set 0%Z (JsMap.set (str "dog") n [(str "cat", 0%Z)])
                (projectIndices (index withCat))
    /\ JsMap.get (noteKey 0 n) (cache (index (snd (add (str "dog") 0 0 withCat))))
       = Some (Some 0%nat)
    /\ (0 <= n)%Z
    /\ forall phrase' n', In (phrase', n') [(str "cat", 0%Z)] -> (n' < n)%Z.
Proof.
  apply (add_gives_a_new_phrase_a_fresh_key (str "dog") withCat 0 [] makeDefaultProject 0
           (str "dog") [(str "cat", 0%Z)]); try reflexivity.
  intros phrase' n' [[= _ <-]|[]]. reflexivity.
Defined.

(** X13, for the object of the note "cat", added as "cat" to the default
    project once the program is started again after the project "German"
    was made: [add] resolves, and the lookup of "cat" is rejected. *)
Lemma add_without_a_phrase_index_uses_key_0_witness :
  projectIndices (index restartedCat) = [(1%Z, [])]
  /\ heap restartedCat = [JNote cat]
  /\ fst (add (str "cat") 0 0 restartedCat) = Resolved tt
  /\ projectIndices (index (snd (add (str "cat") 0 0 restartedCat))) = [(1%Z, [])]
  /\ cache (index (snd (add (str "cat") 0 0 restartedCat))) = [(str "0:0", Some 0%nat)]
  /\ fst (find (lookup (str "cat") (Some 0%Z)) (snd (add (str "cat") 0 0 restartedCat)))
     = Rejected TypeError.
Proof.
  do 3 (split; [vm_compute; reflexivity|]).
  apply (add_without_a_phrase_index_uses_key_0 (str "cat") (str "cat") restartedCat 0 []
           makeDefaultProject 0 (str "cat")); vm_compute; reflexivity.
Defined.

Section AddAndTheStore.
Context {U : Unicode}.

(** X14. When the store fails, [add] does not resolve, and what is stored
    is as before.  What [add] has put in the index and in the cache by then
    stays there. *)
Theorem add_with_a_failing_store phrase pk data w e rest :
  faults (chrome (index w)) = Some e :: rest ->
  fst (add phrase pk data w) <> Resolved tt
  /\ local (chrome (index (snd (add phrase pk data w)))) = local (chrome (index w)).
Proof.
  intros Hf.
  set (Q := fun (r : Result (Outcome unit)) (w' : World) =>
              r <> Ok (Resolved tt)
              /\ local (chrome (index w')) = local (chrome (index w))).
  unfold add, promise.
  match goal with
  | |- (let (r, w') := ?m w in _).1 <> _ /\ _ =>
      assert (H : under (fun w' => chrome (index w') = chrome (index w)) Q m)
  end.
  { assert (He : forall e' w', chrome (index w') = chrome (index w) -> Q (Throw e') w').
    { intros e' w' Hw'. split; [discriminate | rewrite Hw'; reflexivity]. }
    repeat first
      [ apply under_bind;
        [ solve [ repeat first
                    [ apply leaves_add_pairs
                    | apply leaves_update; intros []; reflexivity
                    | apply leaves_update; intros;
                      match goal with
                      | |- context [match ?x with _ => _ end] => destruct x
                      end; reflexivity
                    | leaves_step ] ]
        | exact He | intros ]
      | match goal with
        | |- under _ _ (let '(_, _) := ?x in _) => destruct x
        end ].
    intros w' Hw'. unfold mbind, M_bind, bind, storageSet, calling, Storage.set, Storage.next.
    rewrite Hw', Hf. cbn. split; [discriminate | reflexivity]. }
  specialize (H w eq_refl). unfold Q in H. revert H.
  match goal with
  | |- _ -> (let (r, w') := ?m w in _).1 <> _ /\ _ => destruct (m w) as [[o|e'] w1]
  end; cbn [fst snd]; intros [H1 H2]; (split; [|exact H2]); congruence.
Qed.

Lemma add_tags phrase w pk name info data key d :
  findProject (ByPk pk) (index w) = (name, Some info) ->
  normalize phrase (ByInfo info) (index w) = Ok key ->
  heap w !! data = Some (JNote d) ->
  tags (index (snd (add phrase pk data w)))
  = fold_left (fun t tag => set_add tag t) (Note.tags d) (tags (index w)).
Proof.
  intros Hf Hn Hd. unfold add. rewrite snd_promise.
  rewrite run_bind. cbn [this]. rewrite Hf. cbn [snd].
  rewrite run_bind. unfold reading at 1. cbn [normalizeFor]. rewrite Hn.
  rewrite run_bind. cbn [defined ret].
  destruct (JsMap.get key _) as [n|].
  - rewrite run_bind. cbn [ret].
    rewrite run_bind. cbn [update]. rewrite run_bind. cbn [this].
    rewrite run_bind. unfold noteAt at 1. rewrite run_bind. unfold readObj at 1.
    cbn [heap index]. rewrite Hd. cbn [asNote defined ret].
    rewrite run_bind. cbn [update]. rewrite run_bind. cbn [this].
    match goal with
    | |- context [ (?tail ?w2).2 ] =>
        let H := fresh in
        assert (H : leaves tags tail) by leaves_tac;
        rewrite (H w2); clear H
    end.
    reflexivity.
  - rewrite run_bind. rewrite run_bind. cbn [update ret].
    rewrite run_bind. cbn [update]. rewrite run_bind. cbn [this].
    rewrite run_bind. unfold noteAt at 1. rewrite run_bind. unfold readObj at 1.
    cbn [heap index]. rewrite Hd. cbn [asNote defined ret].
    rewrite run_bind. cbn [update]. rewrite run_bind. cbn [this].
    match goal with
    | |- context [ (?tail ?w2).2 ] =>
        let H := fresh in
        assert (H : leaves tags tail) by leaves_tac;
        rewrite (H w2); clear H
    end.
    cbn. destruct (JsMap.get (Project.pk info) _); reflexivity.
Qed.

(** X15. After [add], however it ended, the tags of the index are those it
    had and those of the note that was added, and none of them is there
    twice if none was. *)
Theorem add_collects_the_tags phrase w pk name info data key d :
  findProject (ByPk pk) (index w) = (name, Some info) ->
  normalize phrase (ByInfo info) (index w) = Ok key ->
  heap w !! data = Some (JNote d) ->
  let tags' := tags (index (snd (add phrase pk data w))) in
  (forall t, t ∈ tags' <-> t ∈ tags (index w) \/ t ∈ Note.tags d)
  /\ (NoDup (tags (index w)) -> NoDup tags').
Proof.
  intros Hf Hn Hd tags'. subst tags'. rewrite (add_tags _ _ _ _ _ _ _ _ Hf Hn Hd).
  split; [intros t; apply set_add_all_elem | apply set_add_all_NoDup].
Qed.

End AddAndTheStore.

(** X14, for "cat" on a new index whose store fails. *)
Lemma add_with_a_failing_store_witness :
  fst (add (str "cat") 0 0 (failing (str "no room") catObject)) <> Resolved tt
  /\ local (chrome (index (snd (add (str "cat") 0 0 (failing (str "no room") catObject)))))
     = local (chrome (index (failing (str "no room") catObject))).
Proof.
  apply (add_with_a_failing_store (str "cat") 0 0 (failing (str "no room") catObject)
           (str "no room") []).
  reflexivity.
Defined.

(** X15, for "cat", whose one tag is "animal", on a new index. *)
Lemma add_collects_the_tags_witness :
  (forall t, t ∈ tags (index (snd (add (str "cat") 0 0 catObject)))
             <-> t ∈ tags (index catObject) \/ t ∈ [str "animal"])
  /\ (NoDup (tags (index catObject))
      -> NoDup (tags (index (snd (add (str "cat") 0 0 catObject))))).
Proof.
  apply (add_collects_the_tags (str "cat") catObject 0 [] makeDefaultProject 0 (str "cat") cat);
    reflexivity.
Defined.

(** X16, for "dog" added with "cat" under "see also": the list of "cat"
    under "see also" is as before, which is no list. *)
Lemma add_touches_no_named_relation_witness :
  named 0 (str "see also") (heap withCatAndDog) = named 0 (str "see also") (heap withCat).
Proof.
  assert (H : str "see also" <> []) by discriminate.
  exact (add_touches_no_named_relation (str "dog") 0 1
           (snd (alloc (JNote dog) withCat)) 0 (str "see also") H).
Defined.

(** ** [deleteRelation] and the store *)

Section DeleteRelationStore.
Context {U : Unicode}.

(** X18. [deleteRelation] stores nothing, whatever it is asked and however
    it ends: what is stored after it is what was stored before. *)
Theorem deleteRelation_never_writes_the_store phrase project relation p w :
  local (chrome (index (snd (deleteRelation phrase project relation p w))))
  = local (chrome (index w)).
Proof.
  unfold deleteRelation.
  apply (leaves_promise (fun i => local (chrome i))).
  assert (Hget : forall keys, leaves (fun i => local (chrome i)) (storageGet keys)).
  { intros keys. apply leaves_calling. intros i. cbn. apply local_get. }
  apply leaves_bind; [apply leaves_this|]. intros i.
  destruct (findProject (ByInfo project) i) as [projectName found].
  apply leaves_bind; [apply leaves_reading|]. intros key.
  apply leaves_bind; [apply leaves_defined|]. intros projectInfo.
  destruct (_ ≫= _) as [pk|]; [|apply leaves_ret].
  destruct (JsMap.get _ (cache i)) as [[data|]|]; try apply leaves_ret.
  (* the other end of the relation is at hand *)
  assert (Hk : forall (k : Reversed -> M (Outcome unit)),
             (forall r, (forall s, r <> RevString s) ->
                        leaves (fun i => local (chrome i)) (k r)) ->
             leaves (fun i => local (chrome i))
                    (reading (reverseRelation (ByInfo projectInfo) relation) ≫= k)).
  { intros k Hk. apply leaves_bind_reading. intros r [i' Hr]. apply Hk.
    intros s ->. exact (reverseRelation_never_a_relation (U:=U) _ _ _ _ Hr). }
  destruct (JsMap.get (pairKey p) (cache i)) as [[other|]|].
  1: apply Hk; intros [[|c s]| |] Hr; try apply leaves_ret; exfalso; exact (Hr _ eq_refl).
  all: apply leaves_bind; [apply Hget|]; intros r; apply leaves_callback;
    destruct r as [found'|e]; [|apply leaves_ret];
    apply leaves_bind; [apply leaves_alloc|]; intros other;
    (apply leaves_bind; [apply leaves_update; intros; reflexivity|]); intros _;
    apply Hk; intros [[|c s]| |] Hr; try apply leaves_ret; exfalso; exact (Hr _ eq_refl).
Qed.

End DeleteRelationStore.

(** ** The projects *)

Section Projects.
Context {U : Unicode}.

(** X19. [setCurrentProject] does all or nothing.  Either it resolves, the
    key is the key of a project, and the project is the current one in the
    index and in the store; or it does not resolve, and the current project
    and what is stored are as before. *)
Theorem setCurrentProject_all_or_nothing pk w :
  let w' := snd (setCurrentProject pk w) in
  (fst (setCurrentProject pk w) = Resolved tt
   /\ JsMap.has pk (reverseProjectIndex (index w)) = true
   /\ currentProject (index w') = pk
   /\ local (chrome (index w')) !! str "currentProject" = Some (JNumber pk))
  \/ (fst (setCurrentProject pk w) <> Resolved tt
      /\ currentProject (index w') = currentProject (index w)
      /\ local (chrome (index w')) = local (chrome (index w))).
Proof.
  destruct w as [[[loc b fl] ps cp pis ts rv ch] h].
  unfold setCurrentProject, promise, JsMap.has. run.
  destruct (JsMap.get pk rv) as [name|]; [|right; repeat split; discriminate].
  run. destruct fl as [|[e|] fs]; run.
  - left. rewrite lookup_insert_eq. repeat split.
  - right. repeat split. discriminate.
  - left. rewrite lookup_insert_eq. repeat split.
Qed.

(** X20. [saveProject] under a name that is new, once its white space is
    normalized, makes a project, as long as the keys of the projects there
    are below 2^53: its key is at least 1 and greater than the key of every
    project there is, the project is found by its name and by its key, its
    phrase index is empty, and the key is what the promise resolves to when
    it resolves. *)
Theorem saveProject_makes_a_new_project args w :
  let name := collapseFirst (trim (SaveProject.name args)) in
  let i' := index (snd (saveProject args w)) in
  JsMap.get name (projects (index w)) = None ->
  (forall n info, In (n, info) (projects (index w)) -> (Project.pk info < 2 ^ 53)%Z) ->
  exists project,
    Project.name project = name
    /\ (1 <= Project.pk project)%Z
    /\ (forall n info, In (n, info) (projects (index w)) ->
          (Project.pk info < Project.pk project)%Z)
    /\ findProject (ByName name) i' = (name, Some project)
    /\ findProject (ByPk (Project.pk project)) i' = (name, Some project)
    /\ JsMap.get (Project.pk project) (projectIndices i') = Some []
    /\ (forall pk, fst (saveProject args w) = Resolved pk -> pk = Project.pk project).
Proof.
  intros name i' Hnew Hsafe. subst i'.
  destruct w as [[[loc b fl] ps cp pis ts rv ch] h]. cbn [index projects] in *.
  unfold saveProject, promise. fold name. clearbody name. run. rewrite Hnew. run.
  set (pk := fold_left _ ps 1%Z).
  eexists {| Project.pk := pk; Project.name := name |}. cbn [Project.pk Project.name].
  split; [reflexivity|].
  destruct (fold_max_fresh (fun kv : jsstring * ProjectInfo => Project.pk (snd kv)) ps 1%Z)
    as [H1 H2]; [lia | intros [n info] Hin; exact (Hsafe _ _ Hin) |].
  fold pk in H1, H2.
  split; [apply H1|]. split; [intros n info Hin; exact (H2 _ Hin)|].
  destruct fl as [|[e|] fs]; run; unfold findProject, defaultProject; run;
    rewrite !jsmap_get_set; (destruct name; cbn [truthy]; rewrite ?jsmap_get_set);
    (repeat split; try discriminate); intros ? [= <-]; reflexivity.
Qed.

(** X21. [saveProject] under a name that a project has, once its white
    space is normalized, keeps the key of the project, its phrase index and
    the cache, and replaces its description, its normalizer and its
    relations: the phrases that are indexed stay as the former normalizer
    made them.  A name of white space only is the name of the default
    project. *)
Theorem saveProject_keeps_the_key_of_a_known_name args w existing :
  let name := collapseFirst (trim (SaveProject.name args)) in
  let i' := index (snd (saveProject args w)) in
  JsMap.get name (projects (index w)) = Some existing ->
  JsMap.get name (projects i')
  = Some {| Project.pk := Project.pk existing;
            Project.name := name;
            Project.description :=
              collapseFirst (trim (default (str "[no description]")
                                           (SaveProject.description args)));
            Project.normalizer := default [] (SaveProject.normalizer args);
            Project.relations :=
              default [(str "see also", str "see also")] (SaveProject.relations args) |}
  /\ projectIndices i' = projectIndices (index w)
  /\ reverseProjectIndex i' = reverseProjectIndex (index w)
  /\ cache i' = cache (index w)
  /\ (forall pk, fst (saveProject args w) = Resolved pk -> pk = Project.pk existing).
Proof.
  intros name i' Hold. subst i'.
  destruct w as [[[loc b fl] ps cp pis ts rv ch] h]. cbn [index projects] in *.
  unfold saveProject, promise. fold name. clearbody name. run. rewrite Hold. run.
  destruct fl as [|[e|] fs]; run; rewrite jsmap_get_set;
    (repeat split; try discriminate); intros ? [= <-]; reflexivity.
Qed.

(** X22. When [saveProject] resolves, the projects of the index are what is
    stored under "projects", and the key it resolves to is the key of one of
    them. *)
Theorem saveProject_stores_the_projects args w pk :
  fst (saveProject args w) = Resolved pk ->
  let i' := index (snd (saveProject args w)) in
  local (chrome i') !! str "projects" = Some (JProjects (projects i'))
  /\ exists name info, JsMap.get name (projects i') = Some info /\ Project.pk info = pk.
Proof.
  destruct w as [[[loc b fl] ps cp pis ts rv ch] h].
  unfold saveProject, promise. run.
  set (name := collapseFirst (trim (SaveProject.name args))).
  destruct (JsMap.get name ps) as [existing|] eqn:E; run.
  - destruct fl as [|[e|] fs]; run; try discriminate; intros [= <-];
      (split; [apply lookup_insert_eq|]); eexists name, _;
      (split; [apply jsmap_get_set | reflexivity]).
  - set (n := fold_left _ ps 1%Z). cbn [JsMap.set].
    destruct (decide (str "projects" = toString n)) as [Heq|Hne];
      destruct fl as [|[e|] fs]; run; try discriminate; intros [= <-];
      (split; [apply lookup_insert_eq|]); eexists name, _;
      (split; [apply jsmap_get_set | reflexivity]).
Qed.

End Projects.

(** X20, for the project "German" on a new index: its key is 1. *)
Lemma saveProject_makes_a_new_project_witness :
  exists project,
    Project.name project = str "German"
    /\ (1 <= Project.pk project)%Z
    /\ (forall n info, In (n, info) (projects (index fresh)) ->
          (Project.pk info < Project.pk project)%Z)
    /\ findProject (ByName (str "German")) (index withGerman) = (str "German", Some project)
    /\ findProject (ByPk (Project.pk project)) (index withGerman)
       = (str "German", Some project)
    /\ JsMap.get (Project.pk project) (projectIndices (index withGerman)) = Some []
    /\ (forall pk, fst (saveProject german fresh) = Resolved pk -> pk = Project.pk project).
Proof.
  apply (saveProject_makes_a_new_project german fresh); [reflexivity|].
  intros n info [[= _ <-]|[]]. reflexivity.
Defined.

(** X21, for a name of two spaces and the normalizer "German" on a new
    index: the default project has the normalizer "German" from then on. *)
Lemma saveProject_keeps_the_key_of_a_known_name_witness :
  JsMap.get [] (projects (index (snd (saveProject blank fresh))))
  = Some {| Project.pk := 0;
            Project.name := [];
            Project.description := str "[no description]";
            Project.normalizer := str "German";
            Project.relations := [(str "see also", str "see also")] |}
  /\ projectIndices (index (snd (saveProject blank fresh))) = projectIndices (index fresh)
  /\ reverseProjectIndex (index (snd (saveProject blank fresh)))
     = reverseProjectIndex (index fresh)
  /\ cache (index (snd (saveProject blank fresh))) = cache (index fresh)
  /\ (forall pk, fst (saveProject blank fresh) = Resolved pk -> pk = 0%Z).
Proof.
  apply (saveProject_keeps_the_key_of_a_known_name blank fresh makeDefaultProject).
  reflexivity.
Defined.

(** X22, for the project "German" on a new index. *)
Lemma saveProject_stores_the_projects_witness :
  local (chrome (index withGerman)) !! str "projects"
  = Some (JProjects (projects (index withGerman)))
  /\ exists name info,
       JsMap.get name (projects (index withGerman)) = Some info /\ Project.pk info = 1%Z.
Proof.
  apply (saveProject_stores_the_projects german fresh 1). reflexivity.
Defined.

Section RemoveAndClear.
Context {U : Unicode}.

(** X23. [removeProject] leaves the phrase indices of the index as they
    are, whatever the project and however it ends: the phrase index of a
    project that was removed stays, and [allProjects] still gives its
    key. *)
Theorem removeProject_keeps_the_phrase_indices project w :
  projectIndices (index (snd (removeProject project w))) = projectIndices (index w)
  /\ allProjects (index (snd (removeProject project w))) = allProjects (index w).
Proof.
  assert (H : projectIndices (index (snd (removeProject project w)))
              = projectIndices (index w)).
  { unfold removeProject. apply leaves_promise. leaves_tac. }
  split; [exact H | unfold allProjects; rewrite H; reflexivity].
Qed.

(** X24. When [removeProject] resolves, the project it was given is found
    neither by its name nor by its key any more, and the current project is
    the default project if it was the one removed. *)
Theorem removeProject_resolved project w info :
  snd (findProject project (index w)) = Some info ->
  fst (removeProject project w) = Resolved tt ->
  let i' := index (snd (removeProject project w)) in
  projects i' = JsMap.delete (Project.name info) (projects (index w))
  /\ reverseProjectIndex i' = JsMap.delete (Project.pk info) (reverseProjectIndex (index w))
  /\ currentProject i'
     = (if bool_decide (currentProject (index w) = Project.pk info) then 0%Z
        else currentProject (index w)).
Proof.
  intros Hf.
  set (part := fun i : Index => (projects i, reverseProjectIndex i, currentProject i)).
  set (Q := fun (r : Result (Outcome unit)) (w' : World) =>
              r = Ok (Resolved tt) ->
              projects (index w') = JsMap.delete (Project.name info) (projects (index w))
              /\ reverseProjectIndex (index w')
                 = JsMap.delete (Project.pk info) (reverseProjectIndex (index w))
              /\ currentProject (index w')
                 = (if bool_decide (currentProject (index w) = Project.pk info) then 0%Z
                    else currentProject (index w))).
  unfold removeProject, promise. rewrite run_bind. cbn [this]. rewrite run_bind, Hf.
  cbn [defined ret].
  match goal with
  | |- (let (r, w') := ?m w in _).1 = _ -> _ =>
      assert (H : under (fun w' => part (index w') = part (index w)) Q m)
  end.
  { repeat first
      [ apply under_ret; intros; subst Q; cbv beta iota; discriminate
      | match goal with
        | |- under _ _ (update _ ≫= _) =>
            (* the store has removed the notes: the project goes *)
            intros w0 Hw0; unfold part in Hw0; injection Hw0 as Hp Hr Hc; subst Q;
            destruct w0 as [[[loc b fl] ps cp pis ts rv ch] h];
            cbn [index projects reverseProjectIndex currentProject] in Hp, Hr, Hc;
            subst ps rv cp; run;
            destruct (bool_decide (currentProject (index w) = Project.pk info)); run;
            destruct fl as [|[e|] fs]; run; intros; try discriminate; repeat split
        end
      | apply under_bind;
        [leaves_tac | intros; subst Q; cbv beta iota; discriminate | intros]
      | apply under_callback
      | match goal with
        | |- under _ _ (match ?x with _ => _ end) => destruct x
        end ]. }
  specialize (H w eq_refl). unfold Q in H. revert H.
  match goal with
  | |- _ -> (let (r, w') := ?m w in _).1 = _ -> _ => destruct (m w) as [[o|e] w1]
  end; cbn [fst snd]; [|discriminate].
  intros H ->. apply H. reflexivity.
Qed.

(** X25. [clear] does all or nothing.  Either it resolves, and the index
    has the default project with an empty phrase index and nothing else: no
    tag, no cached note, and no key of a project either, so that
    [setCurrentProject] is rejected for every key, that of the default
    project too; the current project is as before.  Or it does not resolve,
    and the index and what is stored are as before. *)
Theorem clear_all_or_nothing w :
  let i' := index (snd (clear w)) in
  (fst (clear w) = Resolved tt
   /\ projects i' = [([], makeDefaultProject)]
   /\ projectIndices i' = [(0%Z, [])]
   /\ tags i' = [] /\ cache i' = [] /\ reverseProjectIndex i' = []
   /\ currentProject i' = currentProject (index w)
   /\ forall pk,
        fst (setCurrentProject pk (snd (clear w)))
        = Rejected (Message (toString pk
                             ++ str " is not the primary key of a known project")))
  \/ (fst (clear w) <> Resolved tt
      /\ registry i' = registry (index w)
      /\ tags i' = tags (index w)
      /\ currentProject i' = currentProject (index w)
      /\ local (chrome i') = local (chrome (index w))).
Proof.
  destruct w as [[[loc b fl] ps cp pis ts rv ch] h].
  unfold clear, promise. run.
  destruct fl as [|[e|] fs]; run.
  - left. repeat split.
  - right. repeat split. discriminate.
  - left. destruct fs as [|[e|] fs]; run; repeat split.
Qed.

End RemoveAndClear.

(** X24, for the project "German", the only one besides the default
    project. *)
Lemma removeProject_resolved_witness :
  projects (index (snd (removeProject (ByPk 1) withGerman)))
  = JsMap.delete (str "German") (projects (index withGerman))
  /\ reverseProjectIndex (index (snd (removeProject (ByPk 1) withGerman)))
     = JsMap.delete 1%Z (reverseProjectIndex (index withGerman))
  /\ currentProject (index (snd (removeProject (ByPk 1) withGerman)))
     = (if bool_decide (currentProject (index withGerman) = 1%Z) then 0%Z
        else currentProject (index withGerman)).
Proof.
  apply (removeProject_resolved (ByPk 1) withGerman germanInfo);
    vm_compute; reflexivity.
Defined.

(** ** [getIndex] *)

Lemma get_of_store (m : gmap jsstring Json) (keys : list jsstring) k :
  JsMap.get k (omap (fun k => (fun j => (k, j)) <$> m !! k) keys)
  = if bool_decide (k ∈ keys) then m !! k else None.
Proof.
  induction keys as [|k' keys IH]; [reflexivity|].
  cbn [omap list_omap]. change (list_omap _ _ ?f keys) with (omap f keys).
  destruct (decide (k = k')) as [->|Hne].
  - rewrite (bool_decide_eq_true_2 (k' ∈ k' :: keys)) by left.
    destruct (m !! k') as [j|] eqn:E; cbn [fmap option_fmap option_map JsMap.get].
    + rewrite decide_True by reflexivity. reflexivity.
    + rewrite IH. destruct (bool_decide _); reflexivity.
  - assert (Hin : bool_decide (k ∈ k' :: keys) = bool_decide (k ∈ keys)).
    { apply bool_decide_ext. rewrite elem_of_cons. tauto. }
    rewrite Hin.
    destruct (m !! k') as [j|]; cbn [fmap option_fmap option_map JsMap.get].
    + rewrite decide_False by exact Hne. exact IH.
    + exact IH.
Qed.

Lemma nodup_elem k keys : k ∈ Storage.nodup keys <-> k ∈ keys.
Proof.
  induction keys as [|k' keys IH]; cbn [Storage.nodup]; [reflexivity|].
  rewrite !elem_of_cons, list_elem_of_In, filter_In, <- list_elem_of_In, IH.
  unfold jsstring_eqb. destruct (decide (k = k')) as [->|Hne]; [tauto|].
  rewrite bool_decide_eq_false_2 by exact Hne. cbn. tauto.
Qed.

Lemma nodup_NoDup keys : NoDup (Storage.nodup keys).
Proof.
  induction keys as [|k keys IH]; cbn [Storage.nodup]; constructor.
  - rewrite list_elem_of_In, filter_In. unfold jsstring_eqb. intros [_ H].
    rewrite bool_decide_eq_true_2 in H by reflexivity. discriminate H.
  - apply NoDup_ListNoDup, List.NoDup_filter, NoDup_ListNoDup, IH.
Qed.

Lemma keys_of_store (m : gmap jsstring Json) (keys : list jsstring) :
  NoDup keys ->
  NoDup (List.map fst (omap (fun k => (fun j => (k, j)) <$> m !! k) keys)).
Proof.
  induction 1 as [|k keys Hk Hkeys IH]; [constructor|].
  cbn [omap list_omap]. change (list_omap _ _ ?f keys) with (omap f keys).
  destruct (m !! k) as [j|]; cbn [fmap option_fmap option_map]; [|exact IH].
  cbn [List.map fst]. constructor; [|exact IH].
  intros Hin. apply Hk. apply list_elem_of_In, in_map_iff in Hin as [[k' j'] [E Hin]].
  cbn in E. subst k'. apply list_elem_of_In, list_elem_of_omap in Hin as (k'' & Hin & E).
  destruct (m !! k''); [|discriminate]. injection E as -> _. exact Hin.
Qed.

Lemma jsmap_get_elem {K V} `{EqDecision K} (k : K) (v : V) m :
  NoDup (List.map fst m) -> JsMap.get k m = Some v <-> (k, v) ∈ m.
Proof.
  induction m as [|[k' v'] m IH]; cbn [JsMap.get List.map fst]; intros Hnd.
  - rewrite elem_of_nil. split; [discriminate | tauto].
  - apply NoDup_cons in Hnd as [Hk Hnd]. rewrite elem_of_cons.
    destruct (decide (k = k')) as [->|Hne].
    + split; [intros [= ->]; left; reflexivity|].
      intros [[= ->]|Hin]; [reflexivity|]. exfalso. apply Hk.
      apply list_elem_of_In, in_map_iff. exists (k', v). split; [reflexivity|].
      apply list_elem_of_In, Hin.
    + rewrite (IH Hnd). split; [right; assumption|]. intros [[= -> _]|Hin]; [contradiction|].
      exact Hin.
Qed.

Lemma jsmap_get_Permutation {K V} `{EqDecision K} (k : K) (m m' : list (K * V)) :
  m ≡ₚ m' -> NoDup (List.map fst m) -> JsMap.get k m = JsMap.get k m'.
Proof.
  intros Hp Hnd.
  assert (Hnd' : NoDup (List.map fst m')).
  { eapply NoDup_Permutation_proper; [|exact Hnd]. symmetry. apply Permutation_map, Hp. }
  destruct (JsMap.get k m) as [v|] eqn:E.
  - symmetry. apply jsmap_get_elem; [exact Hnd'|]. rewrite <- Hp.
    apply jsmap_get_elem; assumption.
  - destruct (JsMap.get k m') as [v|] eqn:E'; [|reflexivity].
    apply jsmap_get_elem in E'; [|exact Hnd']. rewrite <- Hp in E'.
    apply jsmap_get_elem in E'; [|exact Hnd]. congruence.
Qed.

Lemma insertByIndex_Permutation {A} (x : Z * A) l : insertByIndex x l ≡ₚ x :: l.
Proof.
  induction l as [|y l IH]; cbn [insertByIndex]; [reflexivity|].
  destruct (_ <? _)%Z; [reflexivity|]. rewrite IH. apply Permutation_swap.
Qed.

(** [Object.entries] gives every property once. *)
Lemma objectEntries_Permutation {A} (l : list (jsstring * A)) : objectEntries l ≡ₚ l.
Proof.
  unfold objectEntries.
  induction l as [|kv l IH]; [reflexivity|].
  cbn [omap list_omap List.filter].
  change (list_omap _ _ ?f l) with (omap f l).
  destruct (arrayIndex (fst kv)) as [z|]; cbn [fmap option_fmap option_map fold_right].
  - rewrite insertByIndex_Permutation. cbn [List.map snd app]. rewrite IH. reflexivity.
  - rewrite <- Permutation_middle, IH. reflexivity.
Qed.

Lemma toString_injective a b : toString a = toString b -> a = b.
Proof.
  intros E. pose proof (parseInt_toString a [] eq_refl) as Ha.
  pose proof (parseInt_toString b [] eq_refl) as Hb.
  rewrite app_nil_r in Ha, Hb. congruence.
Qed.

(** The phrase indices that [getIndex] makes of the answer of the store. *)
Lemma indices_read (entries : list (jsstring * Json)) :
  let f := fun (acc : option (JsMap Z (JsMap jsstring Z))) (idx_ridx : jsstring * Json) =>
             match acc, parseInt (fst idx_ridx), snd idx_ridx with
             | Some m, Some idx, JIndex ridx =>
                 Some (JsMap.set idx (JsMap.of_entries ridx) m)
             | _, _, _ => None
             end in
  NoDup (List.map fst entries) ->
  (forall k, k ∈ List.map fst entries -> exists z, k = toString z) ->
  forall m0 m, fold_left f entries (Some m0) = Some m ->
  forall pk,
    match JsMap.get (toString pk) entries with
    | Some (JIndex ridx) => JsMap.get pk m = Some (JsMap.of_entries ridx)
    | Some _ => False
    | None => JsMap.get pk m = JsMap.get pk m0
    end.
Proof.
  intros f.
  assert (HNone : forall l, fold_left f l None = None)
    by (induction l as [|x l IH]; [reflexivity | exact IH]).
  induction entries as [|[k j] entries IH]; intros Hnd Hk m0 m Hm pk.
  - cbn in Hm. injection Hm as <-. reflexivity.
  - cbn [List.map fst] in Hnd, Hk. apply NoDup_cons in Hnd as [Hfresh Hnd].
    destruct (Hk k ltac:(left)) as [z ->].
    assert (Hk' : forall k, k ∈ List.map fst entries -> exists z, k = toString z)
      by (intros k' Hin; apply Hk; right; exact Hin).
    cbn [fold_left] in Hm. unfold f at 2 in Hm. cbn [fst snd] in Hm.
    pose proof (parseInt_toString z [] eq_refl) as Hz. rewrite app_nil_r in Hz.
    rewrite Hz in Hm.
    destruct j as [| |ridx| | |]; try (rewrite HNone in Hm; discriminate Hm).
    specialize (IH Hnd Hk' _ _ Hm pk). cbn [JsMap.get].
    destruct (decide (toString pk = toString z)) as [E|Hne].
    + apply toString_injective in E as ->.
      destruct (JsMap.get (toString z) entries) as [j|] eqn:Ej.
      * exfalso. apply Hfresh. apply jsmap_get_elem in Ej; [|exact Hnd].
        apply list_elem_of_In, in_map_iff. exists (toString z, j).
        split; [reflexivity | apply list_elem_of_In, Ej].
      * rewrite IH. apply jsmap_get_set.
    + destruct (JsMap.get (toString pk) entries) as [[]|]; try exact IH.
      rewrite IH. apply jsmap_get_set_ne. congruence.
Qed.

Lemma next_local c : local (snd (Storage.next c)) = local c.
Proof. unfold Storage.next. destruct (faults c) as [|f fs]; reflexivity. Qed.

(** What [getIndex] hands to the constructor when it resolves. *)
Lemma getIndex_resolved {U : Unicode} c i :
  fst (getIndex c) = Resolved i ->
  let l := match local c !! str "projects" with Some (JProjects l) => l | _ => [] end in
  exists c' pis,
    fold_left
      (fun acc idx_ridx =>
         match acc, parseInt (fst idx_ridx), snd idx_ridx with
         | Some m, Some idx, JIndex ridx => Some (JsMap.set idx (JsMap.of_entries ridx) m)
         | _, _, _ => None
         end)
      (objectEntries
         (omap (fun k => (fun j => (k, j)) <$> local c !! k)
               (Storage.nodup (List.map (fun kv => toString (Project.pk (snd kv))) l))))
      (Some []) = Some pis
    /\ i = constructor c' (JsMap.of_entries l)
             (match local c !! str "currentProject" with Some (JNumber z) => z | _ => 0%Z end)
             pis
             (fold_left (fun s t => set_add t s)
                (match local c !! str "tags" with Some (JTags t) => t | _ => [] end) []).
Proof.
  unfold getIndex.
  assert (Hkeys : Storage.nodup [str "projects"; str "currentProject"; str "tags"]
                  = [str "projects"; str "currentProject"; str "tags"])
    by (vm_compute; reflexivity).
  unfold Storage.get. pose proof (next_local c) as Hloc.
  destruct (Storage.next c) as [[e|] c1]; [discriminate|]. cbn [snd] in Hloc.
  rewrite Hkeys, !get_of_store, Hloc.
  rewrite !bool_decide_eq_true_2 by (apply list_elem_of_In; vm_compute; tauto).
  pose proof (next_local c1) as Hloc1. rewrite Hloc in Hloc1.
  destruct (local c !! str "projects") as [[]|]; try discriminate;
    destruct (local c !! str "currentProject") as [[]|]; try discriminate;
    destruct (local c !! str "tags") as [[]|]; try discriminate;
    (destruct (Storage.next c1) as [[e|] c2]; [discriminate|]); cbn [snd] in Hloc1;
    rewrite Hloc1;
    (destruct (fold_left _ (objectEntries _) (Some [])) as [pis|] eqn:E; [|discriminate]);
    cbn [fst]; intros [= <-]; exists c2, pis; (split; [reflexivity | reflexivity]).
Qed.

(** X26. When [getIndex] resolves, the index has the current project and
    the tags that are stored, 0 and none if there are none, and an empty
    cache.  The phrase index of a project is what is stored under the key
    of the project, for the projects that are stored, and the index has no
    other.  Its projects are those that are stored; only when no phrase
    index of any of them is stored, the default project, as it is made
    anew, is put among them in the place of what was stored under its name,
    and its empty phrase index is the only one.  This is for stored projects
    whose keys are less than 2^53 in size: such a number is written in full
    by [toString] and read back by [parseInt]. *)
Theorem getIndex_reads_what_is_stored {U : Unicode} c i :
  let l := match local c !! str "projects" with Some (JProjects l) => l | _ => [] end in
  let phraseIndex := fun pk : Z =>
    if bool_decide (pk ∈ List.map (fun kv => Project.pk (snd kv)) l)
    then local c !! toString pk else None in
  fst (getIndex c) = Resolved i ->
  (forall name info, In (name, info) l -> (Z.abs (Project.pk info) < 2 ^ 53)%Z) ->
  currentProject i
  = match local c !! str "currentProject" with Some (JNumber z) => z | _ => 0%Z end
  /\ tags i
     = fold_left (fun s t => set_add t s)
                 (match local c !! str "tags" with Some (JTags t) => t | _ => [] end) []
  /\ cache i = []
  /\ ((exists pk, phraseIndex pk <> None) ->
      projects i = JsMap.of_entries l
      /\ forall pk, JsMap.get pk (projectIndices i)
                    = match phraseIndex pk with
                      | Some (JIndex ridx) => Some (JsMap.of_entries ridx)
                      | _ => None
                      end)
  /\ ((forall pk, phraseIndex pk = None) ->
      projects i = JsMap.set [] makeDefaultProject (JsMap.of_entries l)
      /\ projectIndices i = [(0%Z, [])]).
Proof.
  intros l phraseIndex Hi _. destruct (getIndex_resolved c i Hi) as (c' & pis & Hpis & ->).
  fold l in Hpis.
  set (keys := Storage.nodup (List.map (fun kv => toString (Project.pk (snd kv))) l)) in Hpis.
  set (result := omap (fun k => (fun j => (k, j)) <$> local c !! k) keys) in Hpis.
  assert (Hnd : NoDup (List.map fst (objectEntries result))).
  { eapply NoDup_Permutation_proper;
      [apply Permutation_map, objectEntries_Permutation|].
    apply keys_of_store, nodup_NoDup. }
  assert (Hget : forall pk, JsMap.get (toString pk) (objectEntries result) = phraseIndex pk).
  { intros pk. rewrite (jsmap_get_Permutation _ _ result (objectEntries_Permutation result))
      by exact Hnd.
    unfold result. rewrite get_of_store. unfold phraseIndex.
    erewrite bool_decide_ext; [reflexivity|].
    unfold keys. rewrite nodup_elem, !list_elem_of_In, !in_map_iff.
    split; intros [kv [E Hin]]; exists kv; (split; [|exact Hin]);
      [apply toString_injective; exact E | rewrite E; reflexivity]. }
  assert (Hk : forall k, k ∈ List.map fst (objectEntries result) -> exists z, k = toString z).
  { intros k Hin. rewrite (Permutation_map fst (objectEntries_Permutation result)) in Hin.
    apply list_elem_of_In, in_map_iff in Hin as [[k' j] [E Hin]]. cbn in E. subst k'.
    apply list_elem_of_In, list_elem_of_omap in Hin as (k' & Hin & E).
    destruct (local c !! k'); [|discriminate]. injection E as -> _.
    apply nodup_elem, list_elem_of_In, in_map_iff in Hin as [kv [<- _]]. eexists. reflexivity. }
  pose proof (indices_read (objectEntries result) Hnd Hk [] pis Hpis) as Hread.
  assert (Hpk : forall pk, JsMap.get pk pis
                           = match phraseIndex pk with
                             | Some (JIndex ridx) => Some (JsMap.of_entries ridx)
                             | _ => None
                             end).
  { intros pk. specialize (Hread pk). rewrite Hget in Hread.
    destruct (phraseIndex pk) as [[]|]; try contradiction; exact Hread. }
  unfold constructor.
  split; [destruct (length pis =? 0)%nat; reflexivity|].
  split; [destruct (length pis =? 0)%nat; reflexivity|].
  split; [destruct (length pis =? 0)%nat; reflexivity|].
  split.
  - intros [pk Hsome]. destruct pis as [|p pis].
    + exfalso. specialize (Hread pk). rewrite Hget in Hread.
      destruct (phraseIndex pk) as [[]|];
        first [contradiction | discriminate Hread | apply Hsome; reflexivity].
    + cbn [length Nat.eqb projects projectIndices]. split; [reflexivity | exact Hpk].
  - intros Hnone. destruct pis as [|[pk idx] pis]; [split; reflexivity|].
    exfalso. specialize (Hpk pk). rewrite Hnone in Hpk. cbn in Hpk.
    rewrite decide_True in Hpk by reflexivity. discriminate Hpk.
Qed.

(** X26, for the store after the project "German" was made, which holds the
    phrase index of "German" and none for the default project: the projects
    are those that are stored, and the phrase index of "German" is the only
    one.  And for the store of a new index, which holds the projects and no
    phrase index: the default project is made anew. *)
Lemma getIndex_reads_what_is_stored_witness :
  (projects (index restarted)
   = JsMap.of_entries [([], makeDefaultProject); (str "German", germanInfo)]
   /\ JsMap.get 1%Z (projectIndices (index restarted)) = Some []
   /\ JsMap.get 0%Z (projectIndices (index restarted)) = None)
  /\ (projects (index (reopened fresh)) = [([], makeDefaultProject)]
      /\ projectIndices (index (reopened fresh)) = [(0%Z, [])]).
Proof.
  split.
  - destruct (getIndex_reads_what_is_stored (chrome (index withGerman)) (index restarted))
      as (_ & _ & _ & H & _);
      [ vm_compute; reflexivity
      | intros name info Hin; vm_compute in Hin;
        destruct Hin as [[= _ <-]|[[= _ <-]|[]]]; reflexivity | ].
    destruct H as [Hp Hi]; [exists 1%Z; vm_compute; discriminate|].
    split; [exact Hp|]. split; [exact (Hi 1%Z) | exact (Hi 0%Z)].
  - destruct (getIndex_reads_what_is_stored (chrome (index fresh)) (index (reopened fresh)))
      as (_ & _ & _ & _ & H);
      [ vm_compute; reflexivity
      | intros name info Hin; vm_compute in Hin; destruct Hin as [[= _ <-]|[]]; reflexivity | ].
    apply H. intros pk. cbv zeta. case_bool_decide as Hin; [|reflexivity].
    vm_compute in Hin. apply list_elem_of_In in Hin as [<-|[]]. reflexivity.
Defined.

Lemma jsmap_set_keys_NoDup {K V} `{EqDecision K} (k : K) (v : V) m :
  NoDup (JsMap.keys m) -> NoDup (JsMap.keys (JsMap.set k v m)).
Proof.
  unfold JsMap.keys. induction m as [|[k' v'] m IH]; cbn; intros H.
  - apply NoDup_singleton.
  - apply NoDup_cons in H as [Hk' Hm]. destruct (decide (k = k')) as [->|Hne]; cbn.
    + apply NoDup_cons. split; assumption.
    + apply NoDup_cons. split; [|apply IH, Hm].
      intros Hin. apply Hk'. clear -Hin Hne.
      induction m as [|[k2 v2] m IH]; cbn in *.
      * apply list_elem_of_singleton in Hin. congruence.
      * destruct (decide (k = k2)) as [->|Hne2]; cbn in *.
        -- apply elem_of_cons in Hin as [->|Hin]; [congruence | right; exact Hin].
        -- apply elem_of_cons in Hin as [->|Hin]; [left | right; apply IH, Hin].
Qed.

(** What [set] writes under a key that its items have once: the value
    itself, or the object as it is at the call. *)
Lemma store_written (h : list Json) (storable : list (jsstring * Storable))
    (k : jsstring) (v : Storable) (j : Json) (m : gmap jsstring Json) :
  NoDup (JsMap.keys storable) -> JsMap.get k storable = Some v ->
  match v with Plain j' => Some j' | Ref l => h !! l end = Some j ->
  fold_left (fun m kv => <[fst kv := snd kv]> m)
            (omap (fun kv : jsstring * Storable =>
                     match snd kv with
                     | Plain j => Some (fst kv, j)
                     | Ref l => (fun j => (fst kv, j)) <$> h !! l
                     end) storable) m
  !! k = Some j.
Proof.
  intros Hnd Hget Hl. revert m.
  induction storable as [|[k' v'] storable IH]; intros m; [discriminate|].
  cbn [JsMap.get] in Hget. unfold JsMap.keys in Hnd. cbn in Hnd.
  apply NoDup_cons in Hnd as [Hk' Hnd].
  assert (Hrest : forall (items : list (jsstring * Json)) (m : gmap jsstring Json),
             k ∉ List.map fst items ->
             fold_left (fun m kv => <[fst kv := snd kv]> m) items m !! k = m !! k).
  { induction items as [|[k2 v2] items IHi]; intros m0 Hnin; [reflexivity|].
    cbn [fold_left fst snd]. rewrite IHi.
    - apply lookup_insert_ne. intros ->. apply Hnin. left.
    - intros Hin. apply Hnin. right. exact Hin. }
  destruct (decide (k = k')) as [->|Hne].
  - injection Hget as ->. cbn [omap list_omap snd fst].
    assert (Hw : match v with
                 | Plain j0 => Some (k', j0)
                 | Ref l => (fun j0 => (k', j0)) <$> h !! l
                 end = Some (k', j)).
    { destruct v as [j'|l]; [injection Hl as ->; reflexivity | rewrite Hl; reflexivity]. }
    rewrite Hw. cbn [fold_left fst snd].
    rewrite Hrest; [apply lookup_insert_eq|].
    intros Hin. apply Hk'. apply list_elem_of_In, in_map_iff in Hin.
    destruct Hin as [[k2 j2] [Hk2 Hin]]. cbn in Hk2. subst k2.
    apply list_elem_of_In, list_elem_of_omap in Hin. destruct Hin as [[k3 v3] [Hin3 Hw3]].
    apply list_elem_of_In, in_map_iff. exists (k3, v3).
    split; [|apply list_elem_of_In, Hin3].
    cbn in Hw3. cbn [fst].
    destruct v3 as [j3|l3]; [injection Hw3 as -> _; reflexivity|].
    destruct (h !! l3); cbn in Hw3; [injection Hw3 as -> _; reflexivity | discriminate].
  - cbn [omap list_omap].
    destruct (match snd (k', v') with
              | Plain j0 => Some (fst (k', v'), j0)
              | Ref l0 => (fun j0 => (fst (k', v'), j0)) <$> h !! l0
              end) as [kv|]; cbn [fold_left]; apply IH; assumption.
Qed.

Lemma toString_chars z : Forall (fun c => c = 45 \/ Latin1.digit c) (toString z).
Proof.
  assert (H : forall d, Forall (fun c => c = 45 \/ Latin1.digit c) (uint_digits d)).
  { intros d. eapply Forall_impl; [apply uint_digits_digit|]. intros c Hc. right. exact Hc. }
  destruct z; cbn; [|apply H|constructor; [left; reflexivity | apply H]].
  constructor; [right; unfold Latin1.digit; lia | constructor].
Qed.

Lemma noteKey_not_toString a b z : noteKey a b <> toString z.
Proof.
  intros E. pose proof (toString_no_colon z) as H. rewrite <- E in H.
  unfold noteKey in H. apply Forall_app in H as [_ H]. inversion H as [|? ? H58 _]; subst.
  discriminate H58.
Qed.

Lemma tags_not_toString z : str "tags" <> toString z.
Proof.
  intros E. pose proof (toString_chars z) as H. rewrite <- E in H.
  inversion H as [|? ? [H1|[H1 H2]] _]; subst; [discriminate H1|].
  vm_compute in H2. apply H2. reflexivity.
Qed.

Lemma post_foldM {A B} (R : B -> Prop) (f : B -> A -> M B) l b :
  (forall b a, R b -> post R (f b a)) -> R b -> post R (foldM f l b).
Proof.
  intros H. revert b. induction l as [|x l IH]; intros b Hb; cbn [foldM].
  - apply post_ret, Hb.
  - apply (post_bind_with R); [apply H, Hb | intros b' Hb'; apply IH, Hb'].
Qed.

Lemma under_bind_post {A B} (R : A -> Prop) (Q : Result B -> World -> Prop)
    (m : M A) (k : A -> M B) :
  post R m ->
  (forall e w, Q (Throw e) w) ->
  (forall a, R a -> under (fun _ => True) Q (k a)) ->
  under (fun _ => True) Q (m ≫= k).
Proof.
  intros Hm He Hk w _. unfold mbind, M_bind, bind. specialize (Hm w).
  destruct (m w) as [[a|e] w1]; cbn in *.
  - apply Hk; [apply Hm; reflexivity | exact I].
  - apply He.
Qed.

Section AddStores.
Context {U : Unicode}.

(** What [add] is about to store has every key once, and under the key of
    a project what it had from the start. *)
Lemma post_add_mirror (R : JsMap jsstring Storable -> Prop) info relation keyPair p acc :
  (forall q other storable, R storable -> R (JsMap.set (pairKey q) (Ref other) storable)) ->
  R (snd acc) ->
  post (fun acc' => R (snd acc')) (add_mirror info relation keyPair p acc).
Proof.
  intros HR Hacc. unfold add_mirror. destruct acc as [rev storable]. cbn [snd] in Hacc.
  repeat first
    [ apply post_ret; cbn [snd]; first [exact Hacc | apply HR, Hacc]
    | apply post_bind; intros
    | match goal with
      | |- post _ (match ?x with _ => _ end) => destruct x
      | |- post _ (if ?b then _ else _) => destruct b
      end ].
Qed.

Lemma post_add_pairs (R : JsMap jsstring Storable -> Prop) fuel n data info relation
    keyPair acc :
  (forall q other storable, R storable -> R (JsMap.set (pairKey q) (Ref other) storable)) ->
  R (snd acc) ->
  post (fun acc' => R (snd acc')) (add_pairs fuel n data info relation keyPair acc).
Proof.
  intros HR. revert n acc. induction fuel as [|fuel IH]; intros n acc Hacc; cbn [add_pairs].
  - apply post_ret, Hacc.
  - apply post_bind. intros d. destruct (_ ≫= _); [|apply post_ret, Hacc].
    apply (post_bind_with (fun acc' => R (snd acc')));
      [apply post_add_mirror; assumption | intros acc' Hacc'; apply IH, Hacc'].
Qed.

(** X8. When [add] resolves, the store holds what was added: under the key
    of the note the object as it is then, and, for a phrase that was new to
    the phrase index of its project, under the key of the project the
    phrase index with the phrase in it. *)
Theorem add_stores_the_note phrase w pk name info data key :
  findProject (ByPk pk) (index w) = (name, Some info) ->
  normalize phrase (ByInfo info) (index w) = Ok key ->
  fst (add phrase pk data w) = Resolved tt ->
  let w' := snd (add phrase pk data w) in
  let idx := default [] (JsMap.get (Project.pk info) (projectIndices (index w))) in
  let n := default (nextPk idx) (JsMap.get key idx) in
  (forall j, heap w' !! data = Some j ->
             local (chrome (index w')) !! noteKey (Project.pk info) n = Some j)
  /\ (JsMap.get key idx = None ->
      local (chrome (index w')) !! toString (Project.pk info)
      = Some (JIndex (JsMap.set key n idx))).
Proof.
  intros Hf Hn. cbv zeta.
  set (idx := default [] (JsMap.get (Project.pk info) (projectIndices (index w)))).
  set (n := default (nextPk idx) (JsMap.get key idx)).
  set (kI := toString (Project.pk info)).
  set (Q := fun (storable0 : JsMap jsstring Storable) (r : Result (Outcome unit))
                (w' : World) =>
              r = Ok (Resolved tt) ->
              (forall j, heap w' !! data = Some j ->
                         local (chrome (index w')) !! noteKey (Project.pk info) n = Some j)
              /\ (forall v, JsMap.get kI storable0 = Some (Plain v) ->
                            local (chrome (index w')) !! kI = Some v)).
  assert (Htail : forall storable0 : JsMap jsstring Storable,
             NoDup (JsMap.keys storable0) ->
             under (fun _ => True) (Q storable0)
    (let keyPair : KeyPair := (Project.pk info, n) in
    _ ← update (fun i => withCache (JsMap.set (pairKey keyPair) (Some data) (cache i)) i);
    i ← this;
    let l := length (tags i) in
    d ← noteAt data;
    _ ← update (fun i => withTags (fold_left (fun t tag => set_add tag t) (Note.tags d) (tags i)) i);
    i ← this;
    let storable :=
      if (l <? length (tags i))%nat
      then JsMap.set (str "tags") (Plain (JTags (tags i))) storable0
      else storable0 in
    storable ←
      foldM (fun storable relation =>
               d ← noteAt data;
               let pairs := default [] (JsMap.get relation (Note.relations d)) in
               acc ← add_pairs (length pairs + 2) 0 data info relation keyPair
                               ([], storable);
               ret (snd acc))
            (JsMap.keys (Note.relations d)) storable;
    let storable := JsMap.set (pairKey keyPair) (Ref data) storable in
    r ← storageSet storable;
    callback (ret (settle r id)))).
  { intros storable0 Hnd. cbv zeta.
    set (R := fun storable : JsMap jsstring Storable =>
                NoDup (JsMap.keys storable)
                /\ JsMap.get kI storable = JsMap.get kI storable0).
    assert (HR : forall q other storable,
               R storable -> R (JsMap.set (pairKey q) (Ref other) storable)).
    { intros q other storable [H1 H2]. split; [apply jsmap_set_keys_NoDup, H1|].
      rewrite jsmap_get_set_ne; [exact H2|]. intros E. symmetry in E.
      exact (noteKey_not_toString _ _ _ E). }
    assert (He : forall e w', Q storable0 (Throw e) w') by (intros e w' H; discriminate H).
    do 5 (apply (under_bind_post (fun _ => True)); [intros ? ? _; exact I | exact He |];
          intros ? _).
    apply (under_bind_post R); [|exact He|].
    - apply post_foldM.
      + intros b rel Hb. apply post_bind. intros d.
        apply (post_bind_with (fun acc' => R (snd acc')));
          [apply post_add_pairs; assumption | intros acc' Hacc'; apply post_ret, Hacc'].
      + destruct (_ <? _)%nat; [|split; [exact Hnd | reflexivity]].
        split; [apply jsmap_set_keys_NoDup, Hnd|].
        apply jsmap_get_set_ne. intros E. symmetry in E. exact (tags_not_toString _ E).
    - intros storable Hst w2 _. unfold Q.
      rewrite run_bind. unfold storageSet, calling, Storage.set, Storage.next, callback.
      destruct (HR (Project.pk info, n) data storable Hst) as [H1 H2].
      destruct (faults (chrome (index w2))) as [|[e|] fs]; cbn; try discriminate;
        intros _; (split; [intros j Hj | intros v Hv]);
        solve [ apply (store_written (heap w2) _ _ (Ref data));
                [exact H1 | apply jsmap_get_set | exact Hj]
              | apply (store_written (heap w2) _ _ (Plain v));
                [exact H1 | rewrite H2; exact Hv | reflexivity] ]. }
  unfold add, promise. rewrite run_bind. cbn [this]. rewrite Hf. cbn [snd].
  rewrite run_bind. unfold reading. cbn [normalizeFor]. rewrite Hn.
  rewrite run_bind. cbn [defined ret]. fold idx.
  destruct (JsMap.get key idx) as [n0|] eqn:Hk; subst n; cbn [default from_option id] in *.
  - rewrite run_bind. cbn [ret].
    specialize (Htail [] (NoDup_nil_2 (A:=jsstring)) w I). unfold Q in Htail. revert Htail.
    match goal with
    | |- _ -> (let (r, w') := ?m w in _).1 = _ -> _ => destruct (m w) as [[o|e] w1]
    end; cbn [fst snd]; [|discriminate].
    intros H ->. split; [apply H; reflexivity | discriminate].
  - rewrite run_bind, run_bind. cbn [update ret].
    match goal with
    | |- (let (r, w') := _ ?w0 in _).1 = _ -> _ =>
        specialize (Htail [(kI, Plain (JIndex (m2a (JsMap.set key (nextPk idx) idx))))]
                          (NoDup_singleton _) w0 I)
    end.
    unfold Q, kI in Htail. revert Htail.
    match goal with
    | |- _ -> (let (r, w') := ?m ?w0 in _).1 = _ -> _ => destruct (m w0) as [[o|e] w1]
    end; cbn [fst snd]; [|discriminate].
    intros H ->. destruct H as [H1 H2]; [reflexivity|]. split; [exact H1|]. intros _.
    apply H2. cbn. rewrite decide_True by reflexivity. reflexivity.
Qed.
End AddStores.

(** X8, for "cat" added to the default project of a new index. *)
Lemma add_stores_the_note_witness :
  (forall j, heap withCat !! 0%nat = Some j ->
             local (chrome (index withCat)) !! str "0:0" = Some j)
  /\ (JsMap.get (str "cat") ([] : JsMap jsstring Z) = None ->
      local (chrome (index withCat)) !! str "0"
      = Some (JIndex [(str "cat", 0%Z)])).
Proof.
  apply (add_stores_the_note (str "cat") catObject 0 [] makeDefaultProject 0 (str "cat"));
    vm_compute; reflexivity.
Defined.
